(** * Event pipeline: consumption, routing and idempotent persistence

    A shallow embedding of the consumer ([internal/consumer]), of the
    persistence gateway ([internal/database]), of the dead-letter queue
    ([internal/dlq]) and of the event schema ([internal/models]), with the
    table constraints of [schema.sql].

    Conventions of the embedding:
    - a Go [string] or [[]byte] is a [string] (a sequence of bytes);
    - a Go [int] is a [Z] in the 64-bit signed range, its arithmetic wraps
      ([int_wrap]); an SQL [INT] column holds a [Z] in the 32-bit range;
    - a [time.Time] is an instant [Z]; [time.Now()] is the reading [now] the
      environment supplies, one reading per upsert and per message;
    - a [float64] is a primitive [float]; amounts are only carried, never
      computed with, and a column holds the parameter bound to it (the
      engine's rounding to [DECIMAL(10,2)] and [DATETIME2] is left out);
    - a table is the list of its rows, in insertion order; a statement fails
      exactly when it violates a constraint of [schema.sql] (key, unique,
      foreign key, column width, INT range), and then changes nothing;
      failures of the connection and expired deadlines are left out;
    - [json.Unmarshal] and the [json.Marshal] of a queue entry are
      parameters ([Codec]); the Redis [RPUSH] succeeds or fails as the
      environment decides ([Env]);
    - log output and latency histograms (wall-clock durations) are left out. *)

From Stdlib Require Import PrimFloat.
From stdpp Require Import base decidable option list strings gmap sorting.

Open Scope Z_scope.
Open Scope string_scope.

(** ** Go integers *)

Definition int_wrap (z : Z) : Z := (z + 2 ^ 63) `mod` 2 ^ 64 - 2 ^ 63.
Definition int_range (z : Z) : Prop := - 2 ^ 63 ≤ z < 2 ^ 63.
Definition int_neg (z : Z) : Z := int_wrap (- z).
Definition int_add (a b : Z) : Z := int_wrap (a + b).

(** ** internal/models *)

Module models.

Definition EventType := string.
Definition UserCreatedEvent : EventType := "UserCreated".
Definition OrderPlacedEvent : EventType := "OrderPlaced".
Definition PaymentSettledEvent : EventType := "PaymentSettled".
Definition InventoryAdjustedEvent : EventType := "InventoryAdjusted".

Record BaseEvent := {
  be_EventID : string;
  be_EventType : EventType;
  be_Timestamp : Z
}.

Record UserCreated := {
  uc_BaseEvent : BaseEvent;
  uc_UserID : string;
  uc_Email : string;
  uc_FirstName : string;
  uc_LastName : string;
  uc_CreatedAt : Z
}.

Record OrderItem := {
  oi_SKU : string;
  oi_Quantity : Z;
  oi_Price : float
}.

Record OrderPlaced := {
  op_BaseEvent : BaseEvent;
  op_OrderID : string;
  op_UserID : string;
  op_TotalAmount : float;
  op_Currency : string;
  op_Items : list OrderItem;
  op_PlacedAt : Z
}.

Record PaymentSettled := {
  ps_BaseEvent : BaseEvent;
  ps_PaymentID : string;
  ps_OrderID : string;
  ps_Amount : float;
  ps_Currency : string;
  ps_PaymentMethod : string;
  ps_Status : string;
  ps_SettledAt : Z
}.

Record InventoryAdjusted := {
  ia_BaseEvent : BaseEvent;
  ia_SKU : string;
  ia_Quantity : Z;
  ia_AdjustmentType : string;
  ia_Reason : string;
  ia_AdjustedAt : Z
}.

Record DLQEntry := {
  dlq_EventID : string;
  dlq_OriginalData : string;
  dlq_Error : string;
  dlq_Timestamp : Z;
  dlq_RetryCount : Z
}.

End models.

Import models.

(** ** schema.sql: rows, tables and constraint violations *)

Record UserRow := {
  u_user_id : string;
  u_email : string;
  u_first_name : string;
  u_last_name : string;
  u_created_at : Z;
  u_updated_at : Z
}.

Record OrderRow := {
  o_order_id : string;
  o_user_id : string;
  o_total_amount : float;
  o_currency : string;
  o_placed_at : Z;
  o_updated_at : Z
}.

(** [order_items.id] is an identity column the engine assigns and the
    program never reads; a row is the four columns the program writes. *)
Record OrderItemRow := {
  i_order_id : string;
  i_sku : string;
  i_quantity : Z;
  i_price : float
}.

Record PaymentRow := {
  p_payment_id : string;
  p_order_id : string;
  p_amount : float;
  p_currency : string;
  p_payment_method : string;
  p_status : string;
  p_settled_at : Z;
  p_updated_at : Z
}.

Record InventoryRow := {
  inv_sku : string;
  inv_quantity : Z;
  inv_updated_at : Z
}.

Record DB := {
  users : list UserRow;
  orders : list OrderRow;
  order_items : list OrderItemRow;
  payments : list PaymentRow;
  inventory : list InventoryRow
}.

Definition empty_db : DB :=
  {| users := []; orders := []; order_items := []; payments := [];
     inventory := [] |}.

Definition set_users (t : list UserRow) (db : DB) : DB :=
  {| users := t; orders := orders db; order_items := order_items db;
     payments := payments db; inventory := inventory db |}.
Definition set_orders (t : list OrderRow) (db : DB) : DB :=
  {| users := users db; orders := t; order_items := order_items db;
     payments := payments db; inventory := inventory db |}.
Definition set_order_items (t : list OrderItemRow) (db : DB) : DB :=
  {| users := users db; orders := orders db; order_items := t;
     payments := payments db; inventory := inventory db |}.
Definition set_payments (t : list PaymentRow) (db : DB) : DB :=
  {| users := users db; orders := orders db; order_items := order_items db;
     payments := t; inventory := inventory db |}.
Definition set_inventory (t : list InventoryRow) (db : DB) : DB :=
  {| users := users db; orders := orders db; order_items := order_items db;
     payments := payments db; inventory := t |}.

(** The PRIMARY KEY constraints: no two rows of a table share their key. *)
Definition primary_keys (db : DB) : Prop :=
  NoDup (u_user_id <$> users db) ∧
  NoDup (o_order_id <$> orders db) ∧
  NoDup (p_payment_id <$> payments db) ∧
  NoDup (inv_sku <$> inventory db).
#[global] Instance primary_keys_dec db : Decision (primary_keys db).
Proof. unfold primary_keys. apply _. Defined.

Inductive SqlError :=
| StringTruncated (column : string)
| UniqueViolated (constraint : string)
| ForeignKeyViolated (constraint : string)
| ArithmeticOverflow (column : string).

Definition sql_error_text (e : SqlError) : string :=
  match e with
  | StringTruncated c =>
      "String or binary data would be truncated in column " ++ c
  | UniqueViolated c =>
      "Violation of UNIQUE KEY constraint " ++ c
  | ForeignKeyViolated c =>
      "The statement conflicted with the FOREIGN KEY constraint " ++ c
  | ArithmeticOverflow c =>
      "Arithmetic overflow error converting expression to data type int, column " ++ c
  end.

(** [VARCHAR(n)] *)
Definition varchar (n : nat) (s : string) : Prop := (String.length s ≤ n)%nat.
#[global] Instance varchar_dec n s : Decision (varchar n s).
Proof. unfold varchar. apply _. Defined.

(** [INT] *)
Definition sql_int (z : Z) : Prop := - 2 ^ 31 ≤ z < 2 ^ 31.
#[global] Instance sql_int_dec z : Decision (sql_int z).
Proof. unfold sql_int. apply _. Defined.

(** The first violated constraint of a list of checks, if any. *)
Fixpoint first_violation (checks : list (bool * SqlError)) : option SqlError :=
  match checks with
  | [] => None
  | (ok, e) :: rest => if ok then first_violation rest else Some e
  end.

(** [MERGE INTO target USING (one source row) ON on
     WHEN MATCHED THEN UPDATE ... WHEN NOT MATCHED THEN INSERT ...] *)
Definition MERGE {Row : Type} (on : Row → Prop) `{!∀ r, Decision (on r)}
    (when_matched : Row → Row) (when_not_matched : Row)
    (target : list Row) : list Row :=
  if decide (Exists on target)
  then (λ r, if decide (on r) then when_matched r else r) <$> target
  else target ++ [when_not_matched].

(** [fmt.Errorf("<prefix>: %w", err).Error()] *)
Definition Errorf_w (prefix : string) (err : string) : string :=
  prefix ++ ": " ++ err.

(** A statement either violates a constraint, leaving the tables as they
    were, or yields the new tables. *)
Definition Stmt := DB → SqlError + DB.

(** [ExecContext] of a statement, its error wrapped as the caller does. *)
Definition ExecContext (wrap : string) (s : Stmt) (db : DB) : string + DB :=
  match s db with
  | inl e => inl (Errorf_w wrap (sql_error_text e))
  | inr db' => inr db'
  end.

(** ** internal/database *)

Module database.

(** *** UpsertUser *)

Definition users_on (p1 : string) (r : UserRow) : Prop := u_user_id r = p1.
#[global] Instance users_on_dec p1 r : Decision (users_on p1 r).
Proof. unfold users_on. apply _. Defined.

Definition users_matched (p2 p3 p4 : string) (p5 : Z) (r : UserRow) : UserRow :=
  {| u_user_id := u_user_id r;
     u_email := p2; u_first_name := p3; u_last_name := p4;
     u_created_at := u_created_at r;
     u_updated_at := p5 |}.

Definition users_not_matched (p1 p2 p3 p4 : string) (p5 p6 : Z) : UserRow :=
  {| u_user_id := p1; u_email := p2; u_first_name := p3; u_last_name := p4;
     u_created_at := p6; u_updated_at := p5 |}.

Definition users_violation (p1 p2 p3 p4 : string) (db : DB) : option SqlError :=
  first_violation
    [(bool_decide (Exists (users_on p1) (users db) ∨ varchar 36 p1),
       StringTruncated "users.user_id");
     (bool_decide (varchar 255 p2), StringTruncated "users.email");
     (bool_decide (varchar 100 p3), StringTruncated "users.first_name");
     (bool_decide (varchar 100 p4), StringTruncated "users.last_name");
     (bool_decide (¬ Exists (λ r, u_user_id r ≠ p1 ∧ u_email r = p2) (users db)),
       UniqueViolated "users.email")].

Definition users_merge (p1 p2 p3 p4 : string) (p5 p6 : Z) : Stmt := λ db,
  match users_violation p1 p2 p3 p4 db with
  | Some e => inl e
  | None =>
      inr (set_users
             (MERGE (users_on p1) (users_matched p2 p3 p4 p5)
                (users_not_matched p1 p2 p3 p4 p5 p6) (users db)) db)
  end.

Definition UpsertUser (now : Z) (event : UserCreated) (db : DB)
    : option string * DB :=
  match ExecContext "failed to upsert user"
          (users_merge (uc_UserID event) (uc_Email event) (uc_FirstName event)
             (uc_LastName event) now (uc_CreatedAt event)) db with
  | inl err => (Some err, db)
  | inr db' => (None, db')
  end.

(** *** UpsertOrder *)

Definition orders_on (p1 : string) (r : OrderRow) : Prop := o_order_id r = p1.
#[global] Instance orders_on_dec p1 r : Decision (orders_on p1 r).
Proof. unfold orders_on. apply _. Defined.

Definition orders_matched (p2 : string) (p3 : float) (p4 : string) (p5 : Z)
    (r : OrderRow) : OrderRow :=
  {| o_order_id := o_order_id r;
     o_user_id := p2; o_total_amount := p3; o_currency := p4;
     o_placed_at := o_placed_at r;
     o_updated_at := p5 |}.

Definition orders_not_matched (p1 p2 : string) (p3 : float) (p4 : string)
    (p5 p6 : Z) : OrderRow :=
  {| o_order_id := p1; o_user_id := p2; o_total_amount := p3; o_currency := p4;
     o_placed_at := p6; o_updated_at := p5 |}.

Definition orders_violation (p1 p2 p4 : string) (db : DB) : option SqlError :=
  first_violation
    [(bool_decide (Exists (orders_on p1) (orders db) ∨ varchar 36 p1),
       StringTruncated "orders.order_id");
     (bool_decide (varchar 36 p2), StringTruncated "orders.user_id");
     (bool_decide (varchar 3 p4), StringTruncated "orders.currency");
     (bool_decide (Exists (users_on p2) (users db)),
       ForeignKeyViolated "orders.user_id")].

Definition orders_merge (p1 p2 : string) (p3 : float) (p4 : string)
    (p5 p6 : Z) : Stmt := λ db,
  match orders_violation p1 p2 p4 db with
  | Some e => inl e
  | None =>
      inr (set_orders
             (MERGE (orders_on p1) (orders_matched p2 p3 p4 p5)
                (orders_not_matched p1 p2 p3 p4 p5 p6) (orders db)) db)
  end.

Definition order_items_on (p1 : string) (r : OrderItemRow) : Prop :=
  i_order_id r = p1.
#[global] Instance order_items_on_dec p1 r : Decision (order_items_on p1 r).
Proof. unfold order_items_on. apply _. Defined.

(** [DELETE FROM order_items WHERE order_id = @p1] *)
Definition order_items_delete (p1 : string) : Stmt := λ db,
  inr (set_order_items (filter (λ r, ¬ order_items_on p1 r) (order_items db)) db).

Definition order_items_violation (p1 p2 : string) (p3 : Z) (db : DB)
    : option SqlError :=
  first_violation
    [(bool_decide (varchar 36 p1), StringTruncated "order_items.order_id");
     (bool_decide (varchar 50 p2), StringTruncated "order_items.sku");
     (bool_decide (sql_int p3), ArithmeticOverflow "order_items.quantity");
     (bool_decide (Exists (orders_on p1) (orders db)),
       ForeignKeyViolated "order_items.order_id")].

(** [INSERT INTO order_items (order_id, sku, quantity, price) VALUES (...)] *)
Definition order_items_insert (p1 p2 : string) (p3 : Z) (p4 : float) : Stmt := λ db,
  match order_items_violation p1 p2 p3 db with
  | Some e => inl e
  | None =>
      inr (set_order_items
             (order_items db ++
                [{| i_order_id := p1; i_sku := p2; i_quantity := p3; i_price := p4 |}])
             db)
  end.

(** The statements of a transaction run in sequence on the transaction's
    view of the tables; the first error ends it. *)
Definition Tx := DB → string + DB.

Definition tx_then (a b : Tx) : Tx := λ db,
  match a db with
  | inl err => inl err
  | inr db' => b db'
  end.

Declare Scope tx_scope.
Delimit Scope tx_scope with tx.
Bind Scope tx_scope with Tx.
Notation "a ;; b" := (tx_then a b)
  (at level 100, b at level 200, right associativity) : tx_scope.

Definition tx_done : Tx := inr.

(** [for _, item := range items { ... }] *)
Fixpoint tx_range {A : Type} (body : A → Tx) (items : list A) : Tx :=
  match items with
  | [] => tx_done
  | item :: rest => (body item ;; tx_range body rest)%tx
  end.

(** The deferred [tx.Rollback()] undoes the statements when the function
    returns before [tx.Commit()]. *)
Definition UpsertOrder (now : Z) (event : OrderPlaced) (db : DB)
    : option string * DB :=
  let tx : Tx :=
   (ExecContext "failed to upsert order"
      (orders_merge (op_OrderID event) (op_UserID event) (op_TotalAmount event)
         (op_Currency event) now (op_PlacedAt event)) ;;
    ExecContext "failed to delete existing order items"
      (order_items_delete (op_OrderID event)) ;;
    tx_range
      (λ item,
         ExecContext "failed to insert order item"
           (order_items_insert (op_OrderID event) (oi_SKU item)
              (oi_Quantity item) (oi_Price item)))
      (op_Items event))%tx
  in
  match tx db with
  | inl err => (Some err, db)
  | inr db' => (None, db')
  end.

(** *** UpsertPayment *)

Definition payments_on (p1 : string) (r : PaymentRow) : Prop := p_payment_id r = p1.
#[global] Instance payments_on_dec p1 r : Decision (payments_on p1 r).
Proof. unfold payments_on. apply _. Defined.

Definition payments_matched (p2 : string) (p3 : float) (p4 p5 p6 : string)
    (p7 p8 : Z) (r : PaymentRow) : PaymentRow :=
  {| p_payment_id := p_payment_id r;
     p_order_id := p2; p_amount := p3; p_currency := p4;
     p_payment_method := p5; p_status := p6; p_settled_at := p7;
     p_updated_at := p8 |}.

Definition payments_not_matched (p1 p2 : string) (p3 : float) (p4 p5 p6 : string)
    (p7 p8 : Z) : PaymentRow :=
  {| p_payment_id := p1;
     p_order_id := p2; p_amount := p3; p_currency := p4;
     p_payment_method := p5; p_status := p6; p_settled_at := p7;
     p_updated_at := p8 |}.

Definition payments_violation (p1 p2 p4 p5 p6 : string) (db : DB)
    : option SqlError :=
  first_violation
    [(bool_decide (Exists (payments_on p1) (payments db) ∨ varchar 36 p1),
       StringTruncated "payments.payment_id");
     (bool_decide (varchar 36 p2), StringTruncated "payments.order_id");
     (bool_decide (varchar 3 p4), StringTruncated "payments.currency");
     (bool_decide (varchar 50 p5), StringTruncated "payments.payment_method");
     (bool_decide (varchar 20 p6), StringTruncated "payments.status");
     (bool_decide (Exists (orders_on p2) (orders db)),
       ForeignKeyViolated "payments.order_id")].

Definition payments_merge (p1 p2 : string) (p3 : float) (p4 p5 p6 : string)
    (p7 p8 : Z) : Stmt := λ db,
  match payments_violation p1 p2 p4 p5 p6 db with
  | Some e => inl e
  | None =>
      inr (set_payments
             (MERGE (payments_on p1) (payments_matched p2 p3 p4 p5 p6 p7 p8)
                (payments_not_matched p1 p2 p3 p4 p5 p6 p7 p8) (payments db)) db)
  end.

Definition UpsertPayment (now : Z) (event : PaymentSettled) (db : DB)
    : option string * DB :=
  match ExecContext "failed to upsert payment"
          (payments_merge (ps_PaymentID event) (ps_OrderID event)
             (ps_Amount event) (ps_Currency event) (ps_PaymentMethod event)
             (ps_Status event) (ps_SettledAt event) now) db with
  | inl err => (Some err, db)
  | inr db' => (None, db')
  end.

(** *** UpsertInventory *)

Definition inventory_delta (event : InventoryAdjusted) : Z :=
  let delta := ia_Quantity event in
  if decide (ia_AdjustmentType event = "subtract")
  then int_neg delta
  else delta.

Definition inventory_on (p1 : string) (r : InventoryRow) : Prop := inv_sku r = p1.
#[global] Instance inventory_on_dec p1 r : Decision (inventory_on p1 r).
Proof. unfold inventory_on. apply _. Defined.

Definition inventory_matched (p2 p3 : Z) (r : InventoryRow) : InventoryRow :=
  {| inv_sku := inv_sku r;
     inv_quantity := inv_quantity r + p2;
     inv_updated_at := p3 |}.

Definition inventory_not_matched (p1 : string) (p2 p3 : Z) : InventoryRow :=
  {| inv_sku := p1; inv_quantity := p2; inv_updated_at := p3 |}.

Definition inventory_violation (p1 : string) (p2 : Z) (db : DB)
    : option SqlError :=
  first_violation
    [(bool_decide (Exists (inventory_on p1) (inventory db) ∨ varchar 50 p1),
       StringTruncated "inventory.sku");
     (bool_decide (Exists (inventory_on p1) (inventory db) ∨ sql_int p2),
       ArithmeticOverflow "inventory.quantity");
     (bool_decide (Forall (λ r, inventory_on p1 r → sql_int (inv_quantity r + p2))
                     (inventory db)),
       ArithmeticOverflow "inventory.quantity")].

Definition inventory_merge (p1 : string) (p2 p3 : Z) : Stmt := λ db,
  match inventory_violation p1 p2 db with
  | Some e => inl e
  | None =>
      inr (set_inventory
             (MERGE (inventory_on p1) (inventory_matched p2 p3)
                (inventory_not_matched p1 p2 p3) (inventory db)) db)
  end.

Definition UpsertInventory (now : Z) (event : InventoryAdjusted) (db : DB)
    : option string * DB :=
  let delta := inventory_delta event in
  match ExecContext "failed to upsert inventory"
          (inventory_merge (ia_SKU event) delta now) db with
  | inl err => (Some err, db)
  | inr db' => (None, db')
  end.

(** The quantity stored for a SKU, if it has a row. *)
Definition stored_quantity (sku : string) (db : DB) : option Z :=
  inv_quantity <$> head (filter (inventory_on sku) (inventory db)).

End database.

(** ** The world the consumer acts on *)

(** A [kafka.Message]. *)
Record Message := {
  Topic : string;
  Partition : Z;
  Offset : Z;
  Key : string;
  Value : string
}.

(** internal/metrics: a counter holds the number of its [Inc] calls, the
    gauge the integer last [Set]. *)
Record Metrics := {
  MessagesProcessed : gmap (string * string) nat;
  MessagesProcessedPerSecond : gmap string Z;
  DLQCount : nat
}.

(** The calls the consumer makes to its collaborators. *)
Inductive Call :=
| Call_UpsertUser (event : UserCreated)
| Call_UpsertOrder (event : OrderPlaced)
| Call_UpsertPayment (event : PaymentSettled)
| Call_UpsertInventory (event : InventoryAdjusted)
| Call_Push (eventID originalData errorMsg : string)
| Call_CommitMessage (msg : Message).

Definition is_upsert (c : Call) : bool :=
  match c with
  | Call_UpsertUser _ | Call_UpsertOrder _
  | Call_UpsertPayment _ | Call_UpsertInventory _ => true
  | _ => false
  end.

Definition is_push (c : Call) : bool :=
  match c with Call_Push _ _ _ => true | _ => false end.

Definition is_commit (c : Call) : bool :=
  match c with Call_CommitMessage _ => true | _ => false end.

(** [sql] is the relational store, [redis] the list under the DLQ key (each
    element the bytes pushed, the JSON encoding of an entry), [processedCount]
    the map
    [Start] allocates and shares with [processMessage] and with the ticker,
    [calls] the history of calls to the collaborators, oldest first. *)
Record World := {
  sql : DB;
  redis : list string;
  metrics : Metrics;
  processedCount : gmap string Z;
  calls : list Call
}.

(** What the environment decides while one message is processed: the clock
    reading, and the error of the Redis [RPUSH], if it fails. *)
Record Env := {
  now : Z;
  RPush_err : option string
}.

Definition with_sql (db : DB) (w : World) : World :=
  {| sql := db; redis := redis w; metrics := metrics w;
     processedCount := processedCount w; calls := calls w |}.
Definition with_redis (l : list string) (w : World) : World :=
  {| sql := sql w; redis := l; metrics := metrics w;
     processedCount := processedCount w; calls := calls w |}.
Definition with_metrics (m : Metrics) (w : World) : World :=
  {| sql := sql w; redis := redis w; metrics := m;
     processedCount := processedCount w; calls := calls w |}.
Definition with_processedCount (pc : gmap string Z) (w : World) : World :=
  {| sql := sql w; redis := redis w; metrics := metrics w;
     processedCount := pc; calls := calls w |}.
Definition call (c : Call) (w : World) : World :=
  {| sql := sql w; redis := redis w; metrics := metrics w;
     processedCount := processedCount w; calls := calls w ++ [c] |}.

(** A counter of the vector that was never incremented reads 0. *)
Definition counter_value (m : Metrics) (event_type status : string) : nat :=
  default 0%nat (MessagesProcessed m !! (event_type, status)).

Definition MessagesProcessed_Inc (event_type status : string) (m : Metrics)
    : Metrics :=
  {| MessagesProcessed :=
       <[(event_type, status) := S (counter_value m event_type status)]>
         (MessagesProcessed m);
     MessagesProcessedPerSecond := MessagesProcessedPerSecond m;
     DLQCount := DLQCount m |}.

Definition DLQCount_Inc (m : Metrics) : Metrics :=
  {| MessagesProcessed := MessagesProcessed m;
     MessagesProcessedPerSecond := MessagesProcessedPerSecond m;
     DLQCount := S (DLQCount m) |}.

Definition empty_metrics : Metrics :=
  {| MessagesProcessed := ∅; MessagesProcessedPerSecond := ∅; DLQCount := 0 |}.

Definition empty_world : World :=
  {| sql := empty_db; redis := []; metrics := empty_metrics;
     processedCount := ∅; calls := [] |}.

(** ** encoding/json *)

(** [json.Unmarshal] into each of the event types and into a queue entry:
    the value it leaves in the target and the error it returns; and
    [json.Marshal] of a queue entry: the bytes and the error. *)
Record Codec := {
  Unmarshal_BaseEvent : string → BaseEvent * option string;
  Unmarshal_UserCreated : string → UserCreated * option string;
  Unmarshal_OrderPlaced : string → OrderPlaced * option string;
  Unmarshal_PaymentSettled : string → PaymentSettled * option string;
  Unmarshal_InventoryAdjusted : string → InventoryAdjusted * option string;
  Marshal_DLQEntry : DLQEntry → string * option string;
  Unmarshal_DLQEntry : string → DLQEntry * option string
}.

(** ** internal/dlq *)

Module dlq.

Definition Push (json : Codec) (env : Env)
    (eventID originalData errorMsg : string) (w : World)
    : option string * World :=
  let w := call (Call_Push eventID originalData errorMsg) w in
  let entry :=
    {| dlq_EventID := eventID;
       dlq_OriginalData := originalData;
       dlq_Error := errorMsg;
       dlq_Timestamp := now env;
       dlq_RetryCount := 0 |} in
  match Marshal_DLQEntry json entry with
  | (_, Some err) => (Some (Errorf_w "failed to marshal DLQ entry" err), w)
  | (data, None) =>
      match RPush_err env with
      | Some err => (Some (Errorf_w "failed to push to DLQ" err), w)
      | None =>
          (None,
           with_metrics (DLQCount_Inc (metrics w))
             (with_redis (redis w ++ [data]) w))
      end
  end.

Definition GetCount (w : World) : Z := Z.of_nat (length (redis w)).

End dlq.

(** ** internal/consumer *)

Module consumer.

Section Consumer.

Context (json : Codec).

Definition handleUserCreated (env : Env) (data eventID : string) (w : World)
    : option string * World :=
  match Unmarshal_UserCreated json data with
  | (_, Some err) => (Some (Errorf_w "failed to unmarshal UserCreated event" err), w)
  | (event, None) =>
      let '(err, db) := database.UpsertUser (now env) event (sql w) in
      (err, with_sql db (call (Call_UpsertUser event) w))
  end.

Definition handleOrderPlaced (env : Env) (data eventID : string) (w : World)
    : option string * World :=
  match Unmarshal_OrderPlaced json data with
  | (_, Some err) => (Some (Errorf_w "failed to unmarshal OrderPlaced event" err), w)
  | (event, None) =>
      let '(err, db) := database.UpsertOrder (now env) event (sql w) in
      (err, with_sql db (call (Call_UpsertOrder event) w))
  end.

Definition handlePaymentSettled (env : Env) (data eventID : string) (w : World)
    : option string * World :=
  match Unmarshal_PaymentSettled json data with
  | (_, Some err) => (Some (Errorf_w "failed to unmarshal PaymentSettled event" err), w)
  | (event, None) =>
      let '(err, db) := database.UpsertPayment (now env) event (sql w) in
      (err, with_sql db (call (Call_UpsertPayment event) w))
  end.

Definition handleInventoryAdjusted (env : Env) (data eventID : string) (w : World)
    : option string * World :=
  match Unmarshal_InventoryAdjusted json data with
  | (_, Some err) =>
      (Some (Errorf_w "failed to unmarshal InventoryAdjusted event" err), w)
  | (event, None) =>
      let '(err, db) := database.UpsertInventory (now env) event (sql w) in
      (err, with_sql db (call (Call_UpsertInventory event) w))
  end.

(** A failed push is logged and otherwise ignored. *)
Definition sendToDLQ (env : Env) (eventID originalData errorMsg : string)
    (w : World) : World :=
  snd (dlq.Push json env eventID originalData errorMsg w).

Definition CommitMessage (msg : Message) (w : World) : World :=
  call (Call_CommitMessage msg) w.

(** [processedCount[eventType]]: a missing key reads 0. *)
Definition count_of (pc : gmap string Z) (eventType : string) : Z :=
  default 0 (pc !! eventType).

(** [processedCount[eventType]++] *)
Definition processedCount_incr (eventType : string) (w : World) : World :=
  with_processedCount
    (<[eventType := int_add (count_of (processedCount w) eventType) 1]>
       (processedCount w)) w.

Definition route (env : Env) (msg : Message) (baseEvent : BaseEvent) (w : World)
    : option string * World :=
  let eventType := be_EventType baseEvent in
  if decide (eventType = UserCreatedEvent) then
    handleUserCreated env (Value msg) (be_EventID baseEvent) w
  else if decide (eventType = OrderPlacedEvent) then
    handleOrderPlaced env (Value msg) (be_EventID baseEvent) w
  else if decide (eventType = PaymentSettledEvent) then
    handlePaymentSettled env (Value msg) (be_EventID baseEvent) w
  else if decide (eventType = InventoryAdjustedEvent) then
    handleInventoryAdjusted env (Value msg) (be_EventID baseEvent) w
  else
    (Some ("unknown event type: " ++ eventType), w).

Definition processMessage (env : Env) (msg : Message) (w : World) : World :=
  match Unmarshal_BaseEvent json (Value msg) with
  | (baseEvent, Some err) =>
      let w :=
        sendToDLQ env (be_EventID baseEvent) (Value msg)
          ("Failed to parse base event: " ++ err) w in
      CommitMessage msg w
  | (baseEvent, None) =>
      let '(err, w) := route env msg baseEvent w in
      let w :=
        match err with
        | Some err =>
            let w := sendToDLQ env (be_EventID baseEvent) (Value msg) err w in
            with_metrics
              (MessagesProcessed_Inc (be_EventType baseEvent) "error" (metrics w)) w
        | None =>
            let w :=
              with_metrics
                (MessagesProcessed_Inc (be_EventType baseEvent) "success" (metrics w))
                w in
            processedCount_incr (be_EventType baseEvent) w
        end in
      CommitMessage msg w
  end.

(** The body of the ticker's loop over [processedCount]: the accumulator is
    the gauge and the map being reset. *)
Definition sample_one (eventType : string) (count : Z)
    (acc : gmap string Z * gmap string Z) : gmap string Z * gmap string Z :=
  if decide (0 < count)
  then (<[eventType := count]> (fst acc), <[eventType := 0]> (snd acc))
  else acc.

(** One firing of the one-second ticker. *)
Definition ticker_fires (w : World) : World :=
  let '(gauge, pc) :=
    map_fold sample_one
      (MessagesProcessedPerSecond (metrics w), processedCount w)
      (processedCount w) in
  with_processedCount pc
    (with_metrics
       {| MessagesProcessed := MessagesProcessed (metrics w);
          MessagesProcessedPerSecond := gauge;
          DLQCount := DLQCount (metrics w) |} w).

(** What [ReadMessage] returns. *)
Inductive Read :=
| Read_Message (msg : Message)
| Read_ErrTimedOut
| Read_Error (err : string).

(** [Start] as the interleaving of its two activities, the ticker goroutine
    and the poll loop, at the grain of one tick and one loop iteration. *)
Inductive Step :=
| Ticker
| Poll (env : Env) (r : Read).

Definition step (w : World) (s : Step) : World :=
  match s with
  | Ticker => ticker_fires w
  | Poll env (Read_Message msg) => processMessage env msg w
  | Poll _ Read_ErrTimedOut => w
  | Poll _ (Read_Error _) => w
  end.

(** [Start] until the context is cancelled, after the steps of [schedule]. *)
Definition Start (schedule : list Step) (w : World) : World :=
  foldl step (with_processedCount ∅ w) schedule.

End Consumer.

End consumer.

(** ** Sample events, message bodies and a codec fixed on them *)

Module samples.

Definition base (id : string) (ty : EventType) : BaseEvent :=
  {| be_EventID := id; be_EventType := ty; be_Timestamp := 1000 |}.

Definition zero_base : BaseEvent :=
  {| be_EventID := ""; be_EventType := ""; be_Timestamp := 0 |}.

Definition alice : UserCreated :=
  {| uc_BaseEvent := base "evt-1" UserCreatedEvent;
     uc_UserID := "u-1"; uc_Email := "alice@example.com";
     uc_FirstName := "Alice"; uc_LastName := "Doe"; uc_CreatedAt := 900 |}.

(** The same user, announced again with a later creation time. *)
Definition alice_again : UserCreated :=
  {| uc_BaseEvent := base "evt-9" UserCreatedEvent;
     uc_UserID := "u-1"; uc_Email := "alice@example.org";
     uc_FirstName := "Alice"; uc_LastName := "Roe"; uc_CreatedAt := 950 |}.

Definition laptop : OrderItem :=
  {| oi_SKU := "LAPTOP-001"; oi_Quantity := 1; oi_Price := 299.5 |}.
Definition mouse : OrderItem :=
  {| oi_SKU := "MOUSE-001"; oi_Quantity := 2; oi_Price := 10.25 |}.
Definition cable : OrderItem :=
  {| oi_SKU := "CABLE-001"; oi_Quantity := 3; oi_Price := 4 |}.

Definition order1 : OrderPlaced :=
  {| op_BaseEvent := base "evt-2" OrderPlacedEvent;
     op_OrderID := "o-1"; op_UserID := "u-1"; op_TotalAmount := 320;
     op_Currency := "USD"; op_Items := [laptop; mouse]; op_PlacedAt := 910 |}.

(** The same order, delivered again with another item set. *)
Definition order1_changed : OrderPlaced :=
  {| op_BaseEvent := base "evt-3" OrderPlacedEvent;
     op_OrderID := "o-1"; op_UserID := "u-1"; op_TotalAmount := 12;
     op_Currency := "USD"; op_Items := [cable]; op_PlacedAt := 910 |}.

Definition payment1 : PaymentSettled :=
  {| ps_BaseEvent := base "evt-4" PaymentSettledEvent;
     ps_PaymentID := "p-1"; ps_OrderID := "o-1"; ps_Amount := 320;
     ps_Currency := "USD"; ps_PaymentMethod := "credit_card";
     ps_Status := "completed"; ps_SettledAt := 920 |}.

Definition adjust (sku : string) (quantity : Z) (adjustmentType : string)
    : InventoryAdjusted :=
  {| ia_BaseEvent := base "evt-5" InventoryAdjustedEvent;
     ia_SKU := sku; ia_Quantity := quantity;
     ia_AdjustmentType := adjustmentType; ia_Reason := "stock count";
     ia_AdjustedAt := 930 |}.

Definition returned_X : InventoryAdjusted := adjust "X" (-50) "returned".
Definition subtract_X : InventoryAdjusted := adjust "X" 5 "subtract".

(** Tables holding one inventory row. *)
Definition stock (sku : string) (quantity : Z) : DB :=
  set_inventory
    [{| inv_sku := sku; inv_quantity := quantity; inv_updated_at := 100 |}]
    empty_db.

(** Tables holding Alice, created at 500. *)
Definition with_alice : DB :=
  set_users
    [{| u_user_id := "u-1"; u_email := "alice@example.com";
        u_first_name := "Alice"; u_last_name := "Doe";
        u_created_at := 500; u_updated_at := 500 |}]
    empty_db.

(** Tables holding Alice and her order, without line items. *)
Definition with_order : DB :=
  set_orders
    [{| o_order_id := "o-1"; o_user_id := "u-1"; o_total_amount := 320;
        o_currency := "USD"; o_placed_at := 910; o_updated_at := 910 |}]
    with_alice.

(** Message bodies. *)
Definition body_user : string := "{eventType:UserCreated,userId:u-1}".
Definition body_inventory : string := "{eventType:InventoryAdjusted,sku:X}".
Definition body_unknown : string := "{eventType:UserDeleted,userId:u-1}".
Definition body_bad_field : string := "{eventType:UserCreated,userId:17}".
Definition body_garbage : string := "not json".

Definition syntax_error : string :=
  "invalid character 'o' in literal null (expecting 'u')".
Definition type_error : string :=
  "json: cannot unmarshal number into Go struct field UserCreated.userId of type string".

(** A queue entry written as the event id, the body and the error, with
    bars between them. *)
Definition entry_text (entry : DLQEntry) : string :=
  dlq_EventID entry ++ "|" ++ dlq_OriginalData entry ++ "|" ++ dlq_Error entry.

Definition sample_json : Codec :=
  {| Unmarshal_BaseEvent := λ data,
       if decide (data = body_user) then (base "evt-1" UserCreatedEvent, None)
       else if decide (data = body_inventory)
         then (base "evt-5" InventoryAdjustedEvent, None)
       else if decide (data = body_unknown) then (base "evt-6" "UserDeleted", None)
       else if decide (data = body_bad_field)
         then (base "evt-7" UserCreatedEvent, None)
       else (zero_base, Some syntax_error);
     Unmarshal_UserCreated := λ data,
       if decide (data = body_user) then (alice, None)
       else (alice, Some type_error);
     Unmarshal_OrderPlaced := λ data, (order1, Some syntax_error);
     Unmarshal_PaymentSettled := λ data, (payment1, Some syntax_error);
     Unmarshal_InventoryAdjusted := λ data,
       if decide (data = body_inventory) then (returned_X, None)
       else (returned_X, Some syntax_error);
     Marshal_DLQEntry := λ entry, (entry_text entry, None);
     Unmarshal_DLQEntry := λ data,
       ({| dlq_EventID := ""; dlq_OriginalData := ""; dlq_Error := "";
           dlq_Timestamp := 0; dlq_RetryCount := 0 |},
        Some "unexpected end of JSON input") |}.

Definition message (offset : Z) (body : string) : Message :=
  {| Topic := "events"; Partition := 0; Offset := offset; Key := "k";
     Value := body |}.

Definition redis_up (t : Z) : Env := {| now := t; RPush_err := None |}.
Definition redis_down (t : Z) : Env :=
  {| now := t; RPush_err := Some "dial tcp: connection refused" |}.

End samples.

(** ** Vocabulary of the properties *)

(** Delivering the same event once per clock reading of [nows], in
    sequence: the errors returned and the tables left. *)
Fixpoint deliver {Event : Type} (upsert : Z → Event → DB → option string * DB)
    (nows : list Z) (event : Event) (db : DB) : list (option string) * DB :=
  match nows with
  | [] => ([], db)
  | t :: rest =>
      let '(err, db1) := upsert t event db in
      let '(errs, db') := deliver upsert rest event db1 in
      (err :: errs, db')
  end.

(** The row of an event's user, given its two timestamps. *)
Definition user_row (event : UserCreated) (created_at updated_at : Z) : UserRow :=
  {| u_user_id := uc_UserID event; u_email := uc_Email event;
     u_first_name := uc_FirstName event; u_last_name := uc_LastName event;
     u_created_at := created_at; u_updated_at := updated_at |}.

Definition payment_row (event : PaymentSettled) (updated_at : Z) : PaymentRow :=
  {| p_payment_id := ps_PaymentID event; p_order_id := ps_OrderID event;
     p_amount := ps_Amount event; p_currency := ps_Currency event;
     p_payment_method := ps_PaymentMethod event; p_status := ps_Status event;
     p_settled_at := ps_SettledAt event; p_updated_at := updated_at |}.

Definition order_row (event : OrderPlaced) (placed_at updated_at : Z) : OrderRow :=
  {| o_order_id := op_OrderID event; o_user_id := op_UserID event;
     o_total_amount := op_TotalAmount event; o_currency := op_Currency event;
     o_placed_at := placed_at; o_updated_at := updated_at |}.

Definition item_row (order_id : string) (item : OrderItem) : OrderItemRow :=
  {| i_order_id := order_id; i_sku := oi_SKU item;
     i_quantity := oi_Quantity item; i_price := oi_Price item |}.

(** A row with only its last-modified timestamp replaced. *)
Definition touch_user (updated_at : Z) (r : UserRow) : UserRow :=
  {| u_user_id := u_user_id r; u_email := u_email r;
     u_first_name := u_first_name r; u_last_name := u_last_name r;
     u_created_at := u_created_at r; u_updated_at := updated_at |}.

Definition touch_payment (updated_at : Z) (r : PaymentRow) : PaymentRow :=
  {| p_payment_id := p_payment_id r; p_order_id := p_order_id r;
     p_amount := p_amount r; p_currency := p_currency r;
     p_payment_method := p_payment_method r; p_status := p_status r;
     p_settled_at := p_settled_at r; p_updated_at := updated_at |}.

(** The four known variants. *)
Definition known_variant (eventType : EventType) : Prop :=
  eventType = UserCreatedEvent ∨ eventType = OrderPlacedEvent ∨
  eventType = PaymentSettledEvent ∨ eventType = InventoryAdjustedEvent.

(** A body fails to decode: as the envelope, or, the envelope naming a
    known variant, as that variant's payload. The last index is the cause
    text [processMessage] derives from the decoder's error. *)
Inductive decode_failure (json : Codec) (data : string)
  : BaseEvent → string → Prop :=
| envelope_failure b err :
    Unmarshal_BaseEvent json data = (b, Some err) →
    decode_failure json data b ("Failed to parse base event: " ++ err)
| UserCreated_failure b event err :
    Unmarshal_BaseEvent json data = (b, None) →
    be_EventType b = UserCreatedEvent →
    Unmarshal_UserCreated json data = (event, Some err) →
    decode_failure json data b
      ("failed to unmarshal UserCreated event: " ++ err)
| OrderPlaced_failure b event err :
    Unmarshal_BaseEvent json data = (b, None) →
    be_EventType b = OrderPlacedEvent →
    Unmarshal_OrderPlaced json data = (event, Some err) →
    decode_failure json data b
      ("failed to unmarshal OrderPlaced event: " ++ err)
| PaymentSettled_failure b event err :
    Unmarshal_BaseEvent json data = (b, None) →
    be_EventType b = PaymentSettledEvent →
    Unmarshal_PaymentSettled json data = (event, Some err) →
    decode_failure json data b
      ("failed to unmarshal PaymentSettled event: " ++ err)
| InventoryAdjusted_failure b event err :
    Unmarshal_BaseEvent json data = (b, None) →
    be_EventType b = InventoryAdjustedEvent →
    Unmarshal_InventoryAdjusted json data = (event, Some err) →
    decode_failure json data b
      ("failed to unmarshal InventoryAdjusted event: " ++ err).

(** The failure record [Push] builds. *)
Definition failure_record (env : Env) (eventID originalData errorMsg : string)
    : DLQEntry :=
  {| dlq_EventID := eventID; dlq_OriginalData := originalData;
     dlq_Error := errorMsg; dlq_Timestamp := now env; dlq_RetryCount := 0 |}.

(** What a handler may touch: the tables, and the history of calls, by
    upserts only. *)
Definition handler_frame (w : World) (r : option string * World) : Prop :=
  redis (snd r) = redis w ∧ metrics (snd r) = metrics w ∧
  processedCount (snd r) = processedCount w ∧
  ∃ upserts, calls (snd r) = (calls w ++ upserts)%list ∧
             Forall (λ c, is_upsert c = true) upserts.

(** ** internal/database: the queries of the read API *)

Module queries.

Record Order := {
  ord_OrderID : string;
  ord_UserID : string;
  ord_TotalAmount : float;
  ord_Currency : string;
  ord_PlacedAt : Z;
  ord_UpdatedAt : Z
}.

Record UserWithOrders := {
  uwo_UserID : string;
  uwo_Email : string;
  uwo_FirstName : string;
  uwo_LastName : string;
  uwo_CreatedAt : Z;
  uwo_UpdatedAt : Z;
  uwo_Orders : list Order
}.

Record UserSummary := {
  us_UserID : string;
  us_Email : string;
  us_FirstName : string;
  us_LastName : string;
  us_CreatedAt : Z;
  us_UpdatedAt : Z
}.

Record Payment := {
  pay_PaymentID : string;
  pay_Amount : float;
  pay_PaymentMethod : string;
  pay_Status : string;
  pay_SettledAt : Z
}.

Record OrderWithPayment := {
  owp_OrderID : string;
  owp_UserID : string;
  owp_TotalAmount : float;
  owp_Currency : string;
  owp_PlacedAt : Z;
  owp_UpdatedAt : Z;
  owp_Payment : option Payment
}.

(** [ORDER BY placed_at DESC] and [ORDER BY created_at DESC]: rows with
    equal timestamps come in the order the merge sort leaves them. *)
Definition placed_at_desc (a b : OrderRow) : Prop :=
  (o_placed_at b ≤ o_placed_at a)%Z.
#[global] Instance placed_at_desc_dec a b : Decision (placed_at_desc a b).
Proof. unfold placed_at_desc. apply _. Defined.

Definition created_at_desc (a b : UserRow) : Prop :=
  (u_created_at b ≤ u_created_at a)%Z.
#[global] Instance created_at_desc_dec a b : Decision (created_at_desc a b).
Proof. unfold created_at_desc. apply _. Defined.

(** [rows.Scan] into an [Order]. *)
Definition scan_order (r : OrderRow) : Order :=
  {| ord_OrderID := o_order_id r; ord_UserID := o_user_id r;
     ord_TotalAmount := o_total_amount r; ord_Currency := o_currency r;
     ord_PlacedAt := o_placed_at r; ord_UpdatedAt := o_updated_at r |}.

Definition scan_user (r : UserRow) : UserSummary :=
  {| us_UserID := u_user_id r; us_Email := u_email r;
     us_FirstName := u_first_name r; us_LastName := u_last_name r;
     us_CreatedAt := u_created_at r; us_UpdatedAt := u_updated_at r |}.

Definition scan_payment (r : PaymentRow) : Payment :=
  {| pay_PaymentID := p_payment_id r; pay_Amount := p_amount r;
     pay_PaymentMethod := p_payment_method r; pay_Status := p_status r;
     pay_SettledAt := p_settled_at r |}.

(** [SELECT TOP 5 ... FROM orders WHERE user_id = @p1 ORDER BY placed_at DESC] *)
Definition last_orders (userID : string) (db : DB) : list OrderRow :=
  take 5 (merge_sort placed_at_desc
            (filter (λ o, o_user_id o = userID) (orders db))).

(** [QueryRowContext(...).Scan] reads the first row, [sql.ErrNoRows] when
    there is none. *)
Definition GetUserWithOrders (userID : string) (db : DB)
    : string + UserWithOrders :=
  match head (filter (database.users_on userID) (users db)) with
  | None => inl "user not found"
  | Some u =>
      inr {| uwo_UserID := u_user_id u; uwo_Email := u_email u;
             uwo_FirstName := u_first_name u; uwo_LastName := u_last_name u;
             uwo_CreatedAt := u_created_at u; uwo_UpdatedAt := u_updated_at u;
             uwo_Orders := scan_order <$> last_orders userID db |}
  end.

(** [FROM orders o LEFT JOIN payments p ON o.order_id = p.order_id
     WHERE o.order_id = @p1]: the first joined row, its payment columns
    NULL when the order has no payment. *)
Definition GetOrderWithPayment (orderID : string) (db : DB)
    : string + OrderWithPayment :=
  match head (filter (database.orders_on orderID) (orders db)) with
  | None => inl "order not found"
  | Some o =>
      let p := head (filter (λ p, p_order_id p = o_order_id o) (payments db)) in
      inr {| owp_OrderID := o_order_id o; owp_UserID := o_user_id o;
             owp_TotalAmount := o_total_amount o; owp_Currency := o_currency o;
             owp_PlacedAt := o_placed_at o; owp_UpdatedAt := o_updated_at o;
             owp_Payment := scan_payment <$> p |}
  end.

Definition recent_limit (limit : Z) : Z :=
  if decide (limit ≤ 0 ∨ 100 < limit)%Z then 5 else limit.

(** [SELECT TOP (@p1) ... FROM users ORDER BY created_at DESC] *)
Definition GetRecentUsers (limit : Z) (db : DB) : list UserSummary :=
  let limit := recent_limit limit in
  scan_user <$> take (Z.to_nat limit) (merge_sort created_at_desc (users db)).

End queries.

(** ** internal/api *)

Module api.

Definition newline : string := String (Ascii.ascii_of_nat 10) "".

(** What a handler writes: the status code, the Content-Type and the body,
    an error text or the value that is encoded as JSON. *)
Record Response (A : Type) := {
  StatusCode : Z;
  ContentType : string;
  Body : string + A
}.
Arguments StatusCode {A} _.
Arguments ContentType {A} _.
Arguments Body {A} _.

Definition StatusOK : Z := 200.
Definition StatusNotFound : Z := 404.

(** [http.Error(w, err.Error(), code)] *)
Definition http_Error {A : Type} (err : string) (code : Z) : Response A :=
  {| StatusCode := code; ContentType := "text/plain; charset=utf-8";
     Body := inl (err ++ newline) |}.

Definition getUser (userID : string) (db : DB) : Response queries.UserWithOrders :=
  match queries.GetUserWithOrders userID db with
  | inl err => http_Error err StatusNotFound
  | inr user =>
      {| StatusCode := StatusOK; ContentType := "application/json";
         Body := inr user |}
  end.

Definition getOrder (orderID : string) (db : DB)
    : Response queries.OrderWithPayment :=
  match queries.GetOrderWithPayment orderID db with
  | inl err => http_Error err StatusNotFound
  | inr order =>
      {| StatusCode := StatusOK; ContentType := "application/json";
         Body := inr order |}
  end.

End api.

(** ** internal/dlq: reading the queue *)

Module dlq_read.

(** Modelled from the spec: the LRANGE of the failure-sink store, which is
    not code of this repository: "returns a contiguous slice by position,
    supporting negative indices as from the tail"; both ends are inclusive,
    an end past the tail stands for the tail and a start before the head
    for the head. *)
Definition LRange {A : Type} (l : list A) (start stop : Z) : list A :=
  let n := Z.of_nat (length l) in
  let start := if decide (start < 0)%Z then Z.max 0 (n + start) else start in
  let stop := if decide (stop < 0)%Z then n + stop else Z.min stop (n - 1) in
  if decide (stop < start)%Z then []
  else take (Z.to_nat (stop - start + 1)) (drop (Z.to_nat start) l).

(** An element that does not decode is logged and skipped. *)
Definition GetEntries (json : Codec) (start stop : Z) (w : World)
    : list DLQEntry :=
  let results := LRange (redis w) start stop in
  foldl
    (λ (entries : list DLQEntry) (result : string),
       match Unmarshal_DLQEntry json result with
       | (_, Some _) => entries
       | (entry, None) => (entries ++ [entry])%list
       end)
    [] results.

End dlq_read.

(** ** internal/models: the partition keys *)

Definition UserCreated_GetKey (e : UserCreated) : string := uc_UserID e.
Definition OrderPlaced_GetKey (e : OrderPlaced) : string := op_OrderID e.
Definition PaymentSettled_GetKey (e : PaymentSettled) : string := ps_OrderID e.
Definition InventoryAdjusted_GetKey (e : InventoryAdjusted) : string := ia_SKU e.

(** ** internal/producer *)

(** [json.Marshal] of each of the event types: the bytes and the error. *)
Record Encoder := {
  Marshal_UserCreated : UserCreated → string * option string;
  Marshal_OrderPlaced : OrderPlaced → string * option string;
  Marshal_PaymentSettled : PaymentSettled → string * option string;
  Marshal_InventoryAdjusted : InventoryAdjusted → string * option string
}.

(** What the broker decides for one [Produce]: the error of the call, and the
    delivery report, an error or the partition and offset assigned. *)
Record Delivery := {
  Produce_err : option string;
  report : string + (Z * Z)
}.

Module producer.

Definition with_EventType (eventType : EventType) (b : BaseEvent) : BaseEvent :=
  {| be_EventID := be_EventID b; be_EventType := eventType;
     be_Timestamp := be_Timestamp b |}.

(** [publish]: [marshalled] is what [json.Marshal(event)] returns; [log] is
    the topic, the messages delivered so far. *)
Definition publish (json : Codec) (topic : string) (d : Delivery)
    (key : string) (marshalled : string * option string) (log : list Message)
    : option string * list Message :=
  match marshalled with
  | (_, Some err) => (Some (Errorf_w "failed to marshal event" err), log)
  | (data, None) =>
      match Unmarshal_BaseEvent json data with
      | (_, Some err) => (Some (Errorf_w "failed to extract base event" err), log)
      | (baseEvent, None) =>
          match Produce_err d with
          | Some err => (Some (Errorf_w "failed to produce message" err), log)
          | None =>
              match report d with
              | inl err => (Some (Errorf_w "delivery failed" err), log)
              | inr (partition, offset) =>
                  (None,
                   (log ++ [{| Topic := topic; Partition := partition;
                               Offset := offset; Key := key; Value := data |}])%list)
              end
          end
      end
  end.

Section Producer.

Context (enc : Encoder) (json : Codec) (topic : string).

Definition stamp_UserCreated (event : UserCreated) : UserCreated :=
  {| uc_BaseEvent := with_EventType UserCreatedEvent (uc_BaseEvent event);
     uc_UserID := uc_UserID event; uc_Email := uc_Email event;
     uc_FirstName := uc_FirstName event; uc_LastName := uc_LastName event;
     uc_CreatedAt := uc_CreatedAt event |}.

Definition stamp_OrderPlaced (event : OrderPlaced) : OrderPlaced :=
  {| op_BaseEvent := with_EventType OrderPlacedEvent (op_BaseEvent event);
     op_OrderID := op_OrderID event; op_UserID := op_UserID event;
     op_TotalAmount := op_TotalAmount event; op_Currency := op_Currency event;
     op_Items := op_Items event; op_PlacedAt := op_PlacedAt event |}.

Definition stamp_PaymentSettled (event : PaymentSettled) : PaymentSettled :=
  {| ps_BaseEvent := with_EventType PaymentSettledEvent (ps_BaseEvent event);
     ps_PaymentID := ps_PaymentID event; ps_OrderID := ps_OrderID event;
     ps_Amount := ps_Amount event; ps_Currency := ps_Currency event;
     ps_PaymentMethod := ps_PaymentMethod event; ps_Status := ps_Status event;
     ps_SettledAt := ps_SettledAt event |}.

Definition stamp_InventoryAdjusted (event : InventoryAdjusted)
    : InventoryAdjusted :=
  {| ia_BaseEvent := with_EventType InventoryAdjustedEvent (ia_BaseEvent event);
     ia_SKU := ia_SKU event; ia_Quantity := ia_Quantity event;
     ia_AdjustmentType := ia_AdjustmentType event; ia_Reason := ia_Reason event;
     ia_AdjustedAt := ia_AdjustedAt event |}.

Definition PublishUserCreated (d : Delivery) (event : UserCreated)
    (log : list Message) : option string * list Message :=
  let event := stamp_UserCreated event in
  publish json topic d (UserCreated_GetKey event) (Marshal_UserCreated enc event) log.

Definition PublishOrderPlaced (d : Delivery) (event : OrderPlaced)
    (log : list Message) : option string * list Message :=
  let event := stamp_OrderPlaced event in
  publish json topic d (OrderPlaced_GetKey event) (Marshal_OrderPlaced enc event) log.

Definition PublishPaymentSettled (d : Delivery) (event : PaymentSettled)
    (log : list Message) : option string * list Message :=
  let event := stamp_PaymentSettled event in
  publish json topic d (PaymentSettled_GetKey event)
    (Marshal_PaymentSettled enc event) log.

Definition PublishInventoryAdjusted (d : Delivery) (event : InventoryAdjusted)
    (log : list Message) : option string * list Message :=
  let event := stamp_InventoryAdjusted event in
  publish json topic d (InventoryAdjusted_GetKey event)
    (Marshal_InventoryAdjusted enc event) log.

End Producer.

End producer.

(** ** internal/config *)

Module config.

Record KafkaConfig := {
  kafka_Brokers : string;
  kafka_Topic : string;
  kafka_ConsumerGroup : string
}.

Record MSSQLConfig := {
  mssql_Server : string;
  mssql_Port : Z;
  mssql_User : string;
  mssql_Password : string;
  mssql_Database : string
}.

Record RedisConfig := {
  redis_Host : string;
  redis_Port : Z;
  redis_Password : string;
  redis_DB : Z;
  redis_DLQKey : string
}.

Record APIConfig := { api_Port : string }.
Record MetricsConfig := { metrics_Port : string }.

Record Config := {
  Kafka : KafkaConfig;
  MSSQL : MSSQLConfig;
  Redis : RedisConfig;
  API : APIConfig;
  Metrics_ : MetricsConfig
}.

(** [os.Getenv]: a variable that is not set reads as the empty string. *)
Definition Getenv (environ : gmap string string) (key : string) : string :=
  default "" (environ !! key).

Definition getEnv (environ : gmap string string) (key defaultValue : string)
    : string :=
  let value := Getenv environ key in
  if decide (value ≠ "") then value else defaultValue.

Section Load.

(** [strconv.Atoi]: the integer and the error. *)
Context (Atoi : string → Z * option string).

(** [environ] is the environment after [godotenv.Load]. *)
Definition Load (environ : gmap string string) : string + Config :=
  match Atoi (getEnv environ "REDIS_PORT" "6379") with
  | (_, Some err) => inl (Errorf_w "invalid REDIS_PORT" err)
  | (redisPort, None) =>
  match Atoi (getEnv environ "REDIS_DB" "0") with
  | (_, Some err) => inl (Errorf_w "invalid REDIS_DB" err)
  | (redisDB, None) =>
  match Atoi (getEnv environ "MSSQL_PORT" "1433") with
  | (_, Some err) => inl (Errorf_w "invalid MSSQL_PORT" err)
  | (mssqlPort, None) =>
      inr {| Kafka :=
               {| kafka_Brokers := getEnv environ "KAFKA_BROKERS" "localhost:9092";
                  kafka_Topic := getEnv environ "KAFKA_TOPIC" "events";
                  kafka_ConsumerGroup :=
                    getEnv environ "KAFKA_CONSUMER_GROUP" "event-consumer-group" |};
             MSSQL :=
               {| mssql_Server := getEnv environ "MSSQL_SERVER" "localhost";
                  mssql_Port := mssqlPort;
                  mssql_User := getEnv environ "MSSQL_USER" "sa";
                  mssql_Password := getEnv environ "MSSQL_PASSWORD" "";
                  mssql_Database := getEnv environ "MSSQL_DATABASE" "eventdb" |};
             Redis :=
               {| redis_Host := getEnv environ "REDIS_HOST" "localhost";
                  redis_Port := redisPort;
                  redis_Password := getEnv environ "REDIS_PASSWORD" "";
                  redis_DB := redisDB;
                  redis_DLQKey := getEnv environ "REDIS_DLQ_KEY" "dlq:events" |};
             API := {| api_Port := getEnv environ "API_PORT" "8080" |};
             Metrics_ := {| metrics_Port := getEnv environ "METRICS_PORT" "9090" |} |}
  end end end.

End Load.

End config.

(** ** Vocabulary of the further properties *)

(** What [schema.sql] promises of the tables beyond the primary keys: e-mail
    addresses are unique, every order has its user, every line item and
    every payment its order, and a stock quantity fits its INT column. *)
Definition schema_ok (db : DB) : Prop :=
  primary_keys db ∧
  NoDup (u_email <$> users db) ∧
  Forall (λ o, Exists (database.users_on (o_user_id o)) (users db)) (orders db) ∧
  Forall (λ i, Exists (database.orders_on (i_order_id i)) (orders db))
    (order_items db) ∧
  Forall (λ p, Exists (database.orders_on (p_order_id p)) (orders db))
    (payments db) ∧
  Forall (λ r, sql_int (inv_quantity r)) (inventory db).
#[global] Instance schema_ok_dec db : Decision (schema_ok db).
Proof. unfold schema_ok. apply _. Defined.

(** A body decodes, as the envelope and as the payload of the variant the
    envelope names: the upsert [processMessage] then calls, and the call as
    the history records it. *)
Inductive dispatched (json : Codec) (data : string)
  : BaseEvent → Call → (Z → DB → option string * DB) → Prop :=
| dispatched_UserCreated b event :
    Unmarshal_BaseEvent json data = (b, None) →
    be_EventType b = UserCreatedEvent →
    Unmarshal_UserCreated json data = (event, None) →
    dispatched json data b (Call_UpsertUser event)
      (λ now, database.UpsertUser now event)
| dispatched_OrderPlaced b event :
    Unmarshal_BaseEvent json data = (b, None) →
    be_EventType b = OrderPlacedEvent →
    Unmarshal_OrderPlaced json data = (event, None) →
    dispatched json data b (Call_UpsertOrder event)
      (λ now, database.UpsertOrder now event)
| dispatched_PaymentSettled b event :
    Unmarshal_BaseEvent json data = (b, None) →
    be_EventType b = PaymentSettledEvent →
    Unmarshal_PaymentSettled json data = (event, None) →
    dispatched json data b (Call_UpsertPayment event)
      (λ now, database.UpsertPayment now event)
| dispatched_InventoryAdjusted b event :
    Unmarshal_BaseEvent json data = (b, None) →
    be_EventType b = InventoryAdjustedEvent →
    Unmarshal_InventoryAdjusted json data = (event, None) →
    dispatched json data b (Call_UpsertInventory event)
      (λ now, database.UpsertInventory now event).

(** The line items fit the columns of [order_items]. *)
Definition items_fit (oid : string) (items : list OrderItem) : Prop :=
  Forall (λ item, varchar 36 oid ∧ varchar 50 (oi_SKU item) ∧
                  sql_int (oi_Quantity item)) items.

(** The messages a schedule delivers, in order. *)
Definition delivered (schedule : list consumer.Step) : list Message :=
  omap (λ s, match s with
             | consumer.Poll _ (consumer.Read_Message msg) => Some msg
             | _ => None
             end) schedule.

(** One call of a publisher, seen from the topic: when it returns an error
    nothing was appended; when it returns nil exactly one message was, on
    the producer's topic, with the given key and body. *)
Definition published (topic key body : string) (log : list Message)
    (result : option string * list Message) : Prop :=
  match result with
  | (Some _, log') => log' = log
  | (None, log') =>
      ∃ partition offset,
        log' = (log ++ [{| Topic := topic; Partition := partition;
                           Offset := offset; Key := key; Value := body |}])%list
  end.

(** ** Further samples *)

Module examples.

(** An order whose second line item does not fit the INT column. *)
Definition pallet : OrderItem :=
  {| oi_SKU := "PALLET-001"; oi_Quantity := 3000000000; oi_Price := 1 |}.

Definition order_too_big : OrderPlaced :=
  {| op_BaseEvent := samples.base "evt-8" OrderPlacedEvent;
     op_OrderID := "o-2"; op_UserID := "u-1"; op_TotalAmount := 12;
     op_Currency := "USD"; op_Items := [samples.cable; pallet];
     op_PlacedAt := 940 |}.

(** A user announced without a discriminant, as the test producer does. *)
Definition bob : UserCreated :=
  {| uc_BaseEvent := samples.base "evt-10" "";
     uc_UserID := "u-2"; uc_Email := "bob@example.com";
     uc_FirstName := "Bob"; uc_LastName := "Poe"; uc_CreatedAt := 960 |}.

Definition body_order : string := "{eventType:OrderPlaced,orderId:o-1}".
Definition body_order_too_big : string := "{eventType:OrderPlaced,orderId:o-2}".
Definition body_payment : string := "{eventType:PaymentSettled,paymentId:p-1}".
Definition body_bob : string := "{eventType:UserCreated,userId:u-2}".

(** A codec fixed on the sample bodies of all four variants. *)
Definition json : Codec :=
  {| Unmarshal_BaseEvent := λ data,
       if decide (data = samples.body_user)
         then (samples.base "evt-1" UserCreatedEvent, None)
       else if decide (data = body_bob)
         then (samples.base "evt-10" UserCreatedEvent, None)
       else if decide (data = body_order)
         then (samples.base "evt-2" OrderPlacedEvent, None)
       else if decide (data = body_order_too_big)
         then (samples.base "evt-8" OrderPlacedEvent, None)
       else if decide (data = body_payment)
         then (samples.base "evt-4" PaymentSettledEvent, None)
       else if decide (data = samples.body_inventory)
         then (samples.base "evt-5" InventoryAdjustedEvent, None)
       else (samples.zero_base, Some samples.syntax_error);
     Unmarshal_UserCreated := λ data,
       if decide (data = samples.body_user) then (samples.alice, None)
       else if decide (data = body_bob)
         then (producer.stamp_UserCreated bob, None)
       else (samples.alice, Some samples.type_error);
     Unmarshal_OrderPlaced := λ data,
       if decide (data = body_order) then (samples.order1, None)
       else if decide (data = body_order_too_big) then (order_too_big, None)
       else (samples.order1, Some samples.syntax_error);
     Unmarshal_PaymentSettled := λ data,
       if decide (data = body_payment) then (samples.payment1, None)
       else (samples.payment1, Some samples.syntax_error);
     Unmarshal_InventoryAdjusted := λ data,
       if decide (data = samples.body_inventory) then (samples.returned_X, None)
       else (samples.returned_X, Some samples.syntax_error);
     Marshal_DLQEntry := λ entry, (samples.entry_text entry, None);
     Unmarshal_DLQEntry := λ data,
       if decide (data = samples.entry_text
                           (failure_record (samples.redis_up 5) "evt-6"
                              samples.body_unknown
                              "unknown event type: UserDeleted"))
       then (failure_record (samples.redis_up 5) "evt-6" samples.body_unknown
               "unknown event type: UserDeleted", None)
       else (failure_record (samples.redis_up 0) "" "" "",
             Some "unexpected end of JSON input") |}.

(** An encoder that writes the sample bodies. *)
Definition enc : Encoder :=
  {| Marshal_UserCreated := λ e,
       if decide (uc_UserID e = "u-2") then (body_bob, None)
       else (samples.body_user, None);
     Marshal_OrderPlaced := λ e,
       if decide (op_OrderID e = "o-2") then (body_order_too_big, None)
       else (body_order, None);
     Marshal_PaymentSettled := λ e, (body_payment, None);
     Marshal_InventoryAdjusted := λ e, (samples.body_inventory, None) |}.

(** The tables once Bob has been stored beside Alice. *)
Definition with_bob : DB :=
  snd (database.UpsertUser 970 (producer.stamp_UserCreated bob)
         samples.with_alice).

(** A world whose tables hold Alice. *)
Definition alice_world : World :=
  with_sql samples.with_alice empty_world.

(** Seven orders of Alice, two of them placed at the same instant. *)
Definition placed (id : string) (t : Z) : OrderRow :=
  {| o_order_id := id; o_user_id := "u-1"; o_total_amount := 1;
     o_currency := "USD"; o_placed_at := t; o_updated_at := t |}.

Definition seven_orders : DB :=
  set_orders
    [placed "a" 3; placed "b" 9; placed "c" 1; placed "d" 9; placed "e" 5;
     placed "f" 7; placed "g" 2]
    samples.with_alice.

Definition delivered_ok : Delivery :=
  {| Produce_err := None; report := inr (0, 41) |}.
Definition delivery_failed : Delivery :=
  {| Produce_err := None; report := inl "Broker: Message timed out" |}.

(** [strconv.Atoi] on the sample values. *)
Definition Atoi (s : string) : Z * option string :=
  if decide (s = "6379") then (6379, None)
  else if decide (s = "0") then (0, None)
  else if decide (s = "1433") then (1433, None)
  else if decide (s = "6380") then (6380, None)
  else (0, Some "strconv.Atoi: parsing: invalid syntax").

End examples.

(** * Properties *)

Import database consumer.

Open Scope list_scope.

(** ** Go integers *)

Lemma int_wrap_id z : int_range z → int_wrap z = z.
Proof.
  unfold int_range, int_wrap. intros Hz.
  rewrite Z.mod_small by lia. lia.
Qed.

Lemma int_neg_opp z : - 2 ^ 63 < z < 2 ^ 63 → int_neg z = - z.
Proof. intros Hz. apply int_wrap_id. unfold int_range. lia. Qed.

Lemma int_add_exact a b : int_range (a + b) → int_add a b = a + b.
Proof. apply int_wrap_id. Qed.

(** ** Constraint checks *)

Lemma first_violation_None checks :
  first_violation checks = None ↔ Forall (λ c, fst c = true) checks.
Proof.
  induction checks as [|[ok e] checks IH]; simpl.
  - split; [constructor | done].
  - destruct ok; simpl.
    + rewrite IH. split; [by constructor | by inversion 1].
    + split; [done | inversion 1; simplify_eq/=].
Qed.

(** Reads a list of checks as the conjunction of what they check. *)
Ltac violation_spec :=
  rewrite first_violation_None;
  repeat rewrite Forall_cons; rewrite Forall_nil; simpl;
  repeat rewrite bool_decide_eq_true; tauto.

(** ** MERGE *)

Section MERGE.

Context {Row : Type} (on : Row → Prop) `{!∀ r, Decision (on r)}.
Context (upd : Row → Row) (new : Row).
Hypothesis upd_on : ∀ r, on r → on (upd r).
Hypothesis new_on : on new.

Lemma fmap_unmatched (l : list Row) :
  ¬ Exists on l → (λ r, if decide (on r) then upd r else r) <$> l = l.
Proof.
  intros Hno. induction l as [|r l IH]; [done|]. csimpl.
  rewrite IH by (intros ?; apply Hno; by right).
  case_decide as Hr; [|done]. destruct Hno. by left.
Qed.

Lemma filter_unmatched (l : list Row) : ¬ Exists on l → filter on l = [].
Proof.
  intros Hno. induction l as [|r l IH]; [done|].
  rewrite filter_cons_False by (intros ?; apply Hno; by left).
  apply IH. intros ?. apply Hno. by right.
Qed.

Lemma filter_matched (l : list Row) : Exists on l → filter on l ≠ [].
Proof.
  intros [r [Hr Hon]]%Exists_exists Hnil.
  by eapply filter_nil_not_elem_of.
Qed.

Lemma filter_on_fmap (l : list Row) :
  filter on ((λ r, if decide (on r) then upd r else r) <$> l) = upd <$> filter on l.
Proof.
  induction l as [|r l IH]; [done|]. csimpl.
  destruct (decide (on r)) as [Hr|Hr].
  - rewrite !filter_cons_True by auto. csimpl. by rewrite IH.
  - by rewrite !filter_cons_False.
Qed.

(** The rows that match after a MERGE: the inserted row when none matched
    before, the updated rows otherwise. *)
Lemma MERGE_filter_on (l : list Row) :
  filter on (MERGE on upd new l) =
    match filter on l with
    | [] => [new]
    | rs => upd <$> rs
    end.
Proof.
  unfold MERGE. case_decide as Hex.
  - rewrite filter_on_fmap. pose proof (filter_matched l Hex).
    by destruct (filter on l).
  - rewrite filter_app, (filter_unmatched l Hex).
    by rewrite filter_cons_True, filter_nil.
Qed.

(** Rows that do not match are not touched. *)
Lemma MERGE_filter_off (P : Row → Prop) `{!∀ r, Decision (P r)} (l : list Row) :
  (∀ r, P r → ¬ on r) →
  filter P (MERGE on upd new l) = filter P l.
Proof.
  intros HP. unfold MERGE. case_decide as Hex.
  - clear Hex. induction l as [|r l IH]; [done|]. csimpl.
    destruct (decide (on r)) as [Hr|Hr].
    + rewrite (filter_cons_False _ (upd r)) by (intros HPr; eapply HP; eauto).
      by rewrite (filter_cons_False _ r) by (intros HPr; eapply HP; eauto).
    + destruct (decide (P r)).
      * rewrite !filter_cons_True by done. by rewrite IH.
      * by rewrite !filter_cons_False.
  - rewrite filter_app, filter_cons_False, filter_nil, app_nil_r; [done|].
    intros HPn. by eapply HP.
Qed.

Lemma MERGE_Exists_on (l : list Row) : Exists on (MERGE on upd new l).
Proof.
  unfold MERGE. case_decide as Hex.
  - apply Exists_exists in Hex as [r [Hr Hon]].
    apply Exists_exists. exists (upd r). split; [|auto].
    apply list_elem_of_fmap. exists r. by rewrite decide_True.
  - apply Exists_app. right. by left.
Qed.

Lemma MERGE_Exists_off (P : Row → Prop) (l : list Row) :
  (∀ r, P r → ¬ on r) →
  Exists P (MERGE on upd new l) ↔ Exists P l.
Proof.
  intros HP. unfold MERGE. case_decide as Hex.
  - rewrite Exists_fmap. rewrite !Exists_exists.
    split; intros [r [Hr HPr]]; exists r; split; try done; simpl in *.
    + destruct (decide (on r)) as [Hon|Hon]; [|done].
      exfalso. eapply HP; eauto.
    + rewrite decide_False; [done|]. by apply HP.
  - rewrite Exists_app. split; [|by left].
    intros [?|Hn]; [done|]. apply Exists_cons in Hn as [Hn|Hn].
    + exfalso. by eapply HP.
    + by apply Exists_nil in Hn.
Qed.

(** A matched MERGE keeps every row in its place. *)
Lemma MERGE_lookup_matched (l : list Row) (i : nat) (r : Row) :
  l !! i = Some r → on r →
  MERGE on upd new l !! i = Some (upd r) ∧
  length (MERGE on upd new l) = length l.
Proof.
  intros Hi Hon. unfold MERGE.
  rewrite decide_True.
  - rewrite list_lookup_fmap, Hi, length_fmap. simpl. by rewrite decide_True.
  - apply Exists_exists. exists r. split; [|done]. by eapply list_elem_of_lookup_2.
Qed.

(** Merging the same source row again only redoes the update. *)
Lemma MERGE_MERGE (upd' : Row → Row) (new' : Row) (l : list Row) :
  (∀ r, on r → upd' (upd r) = upd' r) →
  upd' new = new' →
  MERGE on upd' new' (MERGE on upd new l) = MERGE on upd' new' l.
Proof.
  intros Hupd' Hnew'.
  unfold MERGE at 1. rewrite decide_True by apply MERGE_Exists_on.
  unfold MERGE. case_decide as Hex.
  - rewrite <- list_fmap_compose. apply list_fmap_ext. intros ? r _. simpl.
    destruct (decide (on r)) as [Hr|Hr].
    + rewrite decide_True by auto. auto.
    + by rewrite decide_False.
  - rewrite fmap_app. csimpl. rewrite decide_True by done.
    rewrite Hnew'. f_equal.
    induction l as [|r l IH]; [done|]. csimpl.
    rewrite decide_False by (intros ?; apply Hex; by left).
    f_equal. apply IH. intros ?. apply Hex. by right.
Qed.

End MERGE.

Lemma MERGE_Forall_on {Row : Type} (on : Row → Prop) `{!∀ r, Decision (on r)}
    (upd : Row → Row) (new : Row) (Q : Row → Prop) (l : list Row) :
  (∀ r, on r → Q (upd r)) → Q new →
  Forall (λ r, on r → Q r) (MERGE on upd new l).
Proof.
  intros Hupd Hnew. unfold MERGE. case_decide as Hex.
  - apply Forall_fmap, Forall_forall. intros r _. simpl.
    case_decide; auto. by intros ?.
  - apply Forall_app. split; [|by repeat constructor].
    apply Forall_forall. intros r Hr Hon. destruct Hex.
    apply Exists_exists. eauto.
Qed.

(** A primary key selects at most one row. *)
Lemma primary_key_filter {Row : Type} (key : Row → string) (k : string)
    (on : Row → Prop) `{!∀ r, Decision (on r)} (l : list Row) :
  (∀ r, on r → key r = k) →
  NoDup (key <$> l) → (length (filter on l) ≤ 1)%nat.
Proof.
  intros Hon. induction l as [|r l IH]; csimpl; [simpl; lia|].
  intros [Hr Hl]%NoDup_cons. specialize (IH Hl).
  destruct (decide (on r)) as [Hk|Hk].
  - rewrite filter_cons_True by done. simpl.
    destruct (filter on l) as [|r' l'] eqn:Hf; [simpl; lia|].
    exfalso. apply Hr. apply list_elem_of_fmap. exists r'.
    assert (r' ∈ filter on l) as Hin by (rewrite Hf; left).
    apply list_elem_of_filter in Hin as [Hk' Hin].
    split; [|done]. by rewrite (Hon r), (Hon r').
  - by rewrite filter_cons_False.
Qed.

(** The keys of a table after a MERGE on its primary key. *)
Lemma MERGE_keys {Row : Type} (key : Row → string) (k : string)
    (on : Row → Prop) `{!∀ r, Decision (on r)}
    (upd : Row → Row) (new : Row) (l : list Row) :
  (∀ r, on r ↔ key r = k) →
  (∀ r, key (upd r) = key r) → key new = k →
  NoDup (key <$> l) →
  NoDup (key <$> MERGE on upd new l).
Proof.
  intros Hon Hupd Hnew Hl. unfold MERGE. case_decide as Hex.
  - rewrite <- list_fmap_compose.
    erewrite list_fmap_ext; [exact Hl|]. intros ? r _. simpl.
    case_decide; auto.
  - rewrite fmap_app. csimpl. apply NoDup_app.
    split_and!; [done| |apply NoDup_singleton].
    intros x Hx ->%list_elem_of_singleton. apply Hex.
    apply list_elem_of_fmap in Hx as [r [Hr Hin]].
    apply Exists_exists. exists r. split; [done|]. apply Hon. congruence.
Qed.

Lemma filter_all {A : Type} (P : A → Prop) `{!∀ x, Decision (P x)} (l : list A) :
  Forall P l → filter P l = l.
Proof.
  induction 1 as [|x l Hx _ IH]; [done|].
  by rewrite filter_cons_True, IH.
Qed.

Lemma filter_none {A : Type} (P : A → Prop) `{!∀ x, Decision (P x)} (l : list A) :
  Forall (λ x, ¬ P x) l → filter P l = [].
Proof.
  induction 1 as [|x l Hx _ IH]; [done|].
  by rewrite filter_cons_False.
Qed.

(** ** Redelivery *)

Lemma last_cons_default {A : Type} (x y : A) (l : list A) :
  default x (last (y :: l)) = default y (last l).
Proof. rewrite last_cons. by destruct (last l). Qed.

Section Redelivery.

Context {Event : Type} (upsert : Z → Event → DB → option string * DB).

(** Whether an upsert succeeds does not depend on the clock ... *)
Hypothesis upsert_clock :
  ∀ t t' e db, fst (upsert t e db) = None → fst (upsert t' e db) = None.

(** ... and after a successful one, upserting the same event again gives
    what upserting it the first time at the later reading gives. *)
Hypothesis upsert_again :
  ∀ t t' e db,
    fst (upsert t e db) = None →
    upsert t' e (snd (upsert t e db)) = upsert t' e db.

Lemma deliver_last (ts : list Z) (t : Z) (e : Event) (db : DB) :
  fst (upsert t e db) = None →
  deliver upsert (t :: ts) e db =
    (replicate (S (length ts)) None, snd (upsert (default t (last ts)) e db)).
Proof.
  revert t db. induction ts as [|t' ts IH]; intros t db Hok.
  - simpl. destruct (upsert t e db) as [err db1]. simpl in *. by subst.
  - assert (fst (upsert t' e (snd (upsert t e db))) = None) as Hok'.
    { rewrite upsert_again by done. by eapply upsert_clock. }
    specialize (IH t' _ Hok').
    change (deliver upsert (t :: t' :: ts) e db)
      with (let '(err, db1) := upsert t e db in
            let '(errs, db') := deliver upsert (t' :: ts) e db1 in
            (err :: errs, db')).
    pose proof (upsert_again t (default t' (last ts)) e db Hok) as Hlast.
    destruct (upsert t e db) as [err db1]. cbn [fst snd] in Hok, IH, Hlast.
    subst err. by rewrite IH, last_cons_default, Hlast.
Qed.

End Redelivery.

(** ** UpsertUser *)

Lemma users_violation_spec p1 p2 p3 p4 db :
  users_violation p1 p2 p3 p4 db = None ↔
  (Exists (users_on p1) (users db) ∨ varchar 36 p1) ∧
  varchar 255 p2 ∧ varchar 100 p3 ∧ varchar 100 p4 ∧
  ¬ Exists (λ r, u_user_id r ≠ p1 ∧ u_email r = p2) (users db).
Proof.
  unfold users_violation. violation_spec.
Qed.

Lemma UpsertUser_eq now e db :
  UpsertUser now e db =
    match users_violation (uc_UserID e) (uc_Email e) (uc_FirstName e)
            (uc_LastName e) db with
    | Some err => (Some (Errorf_w "failed to upsert user" (sql_error_text err)), db)
    | None =>
        (None,
         set_users
           (MERGE (users_on (uc_UserID e))
              (users_matched (uc_Email e) (uc_FirstName e) (uc_LastName e) now)
              (users_not_matched (uc_UserID e) (uc_Email e) (uc_FirstName e)
                 (uc_LastName e) now (uc_CreatedAt e))
              (users db)) db)
    end.
Proof.
  unfold UpsertUser, ExecContext, users_merge.
  by destruct (users_violation _ _ _ _ db).
Qed.

Lemma UpsertUser_ok now e db :
  fst (UpsertUser now e db) = None ↔
  users_violation (uc_UserID e) (uc_Email e) (uc_FirstName e) (uc_LastName e) db
    = None.
Proof. rewrite UpsertUser_eq. by destruct (users_violation _ _ _ _ db). Qed.

Lemma UpsertUser_clock t t' e db :
  fst (UpsertUser t e db) = None → fst (UpsertUser t' e db) = None.
Proof. by rewrite !UpsertUser_ok. Qed.

Lemma users_violation_merged p1 p2 p3 p4 t c db :
  users_violation p1 p2 p3 p4 db = None →
  users_violation p1 p2 p3 p4
    (set_users
       (MERGE (users_on p1) (users_matched p2 p3 p4 t)
          (users_not_matched p1 p2 p3 p4 t c) (users db)) db) = None.
Proof.
  rewrite !users_violation_spec. simpl. intros (_ & ? & ? & ? & Hdup).
  split_and!; try done.
  - left. by apply MERGE_Exists_on.
  - rewrite MERGE_Exists_off; [done | done | done |]. by intros r [? _].
Qed.

Lemma UpsertUser_again t t' e db :
  fst (UpsertUser t e db) = None →
  UpsertUser t' e (snd (UpsertUser t e db)) = UpsertUser t' e db.
Proof.
  rewrite UpsertUser_ok. intros Hok. rewrite !UpsertUser_eq, Hok. simpl.
  rewrite users_violation_merged by done. f_equal. unfold set_users. simpl.
  f_equal. by apply MERGE_MERGE.
Qed.

Lemma UpsertUser_row now e db :
  primary_keys db →
  fst (UpsertUser now e db) = None →
  filter (users_on (uc_UserID e)) (users (snd (UpsertUser now e db))) =
    [user_row e
       (default (uc_CreatedAt e)
          (u_created_at <$> head (filter (users_on (uc_UserID e)) (users db))))
       now].
Proof.
  intros (Hpk & _) Hok. apply UpsertUser_ok in Hok.
  rewrite UpsertUser_eq, Hok. simpl.
  rewrite MERGE_filter_on by done.
  pose proof (primary_key_filter u_user_id (uc_UserID e)
                (users_on (uc_UserID e)) (users db) (λ _ H, H) Hpk) as Hlen.
  destruct (filter (users_on (uc_UserID e)) (users db)) as [|r0 rest] eqn:Hf;
    [done|].
  destruct rest; [|simpl in Hlen; lia].
  assert (r0 ∈ filter (users_on (uc_UserID e)) (users db)) as Hr0
    by (rewrite Hf; left).
  apply list_elem_of_filter in Hr0 as [Hr0 _].
  simpl. unfold users_matched, user_row. by rewrite Hr0.
Qed.

Lemma UpsertUser_second t t' e db :
  fst (UpsertUser t e db) = None →
  UpsertUser t' e (snd (UpsertUser t e db)) =
    (None,
     set_users
       ((λ r, if decide (users_on (uc_UserID e) r) then touch_user t' r else r)
          <$> users (snd (UpsertUser t e db)))
       (snd (UpsertUser t e db))).
Proof.
  rewrite UpsertUser_ok. intros Hok.
  rewrite (UpsertUser_eq t' e). rewrite (UpsertUser_eq t e), Hok. simpl.
  rewrite users_violation_merged by done. simpl.
  f_equal. unfold set_users at 1 3. simpl. f_equal.
  unfold MERGE at 1. rewrite decide_True by (by apply MERGE_Exists_on).
  apply list_fmap_ext. intros i r Hr. simpl.
  case_decide as Hon; [|done].
  pose proof (MERGE_Forall_on (users_on (uc_UserID e))
    (users_matched (uc_Email e) (uc_FirstName e) (uc_LastName e) t)
    (users_not_matched (uc_UserID e) (uc_Email e) (uc_FirstName e)
       (uc_LastName e) t (uc_CreatedAt e))
    (λ r, u_email r = uc_Email e ∧ u_first_name r = uc_FirstName e ∧
          u_last_name r = uc_LastName e) (users db)) as HQ.
  rewrite Forall_forall in HQ.
  destruct (HQ ltac:(done) ltac:(done) r) as (He & Hf & Hl);
    [by eapply list_elem_of_lookup_2 | done |].
  unfold users_matched, touch_user. by rewrite He, Hf, Hl.
Qed.

(** ** UpsertPayment *)

Lemma payments_violation_spec p1 p2 p4 p5 p6 db :
  payments_violation p1 p2 p4 p5 p6 db = None ↔
  (Exists (payments_on p1) (payments db) ∨ varchar 36 p1) ∧
  varchar 36 p2 ∧ varchar 3 p4 ∧ varchar 50 p5 ∧ varchar 20 p6 ∧
  Exists (orders_on p2) (orders db).
Proof. unfold payments_violation. violation_spec. Qed.

Lemma UpsertPayment_eq now e db :
  UpsertPayment now e db =
    match payments_violation (ps_PaymentID e) (ps_OrderID e) (ps_Currency e)
            (ps_PaymentMethod e) (ps_Status e) db with
    | Some err =>
        (Some (Errorf_w "failed to upsert payment" (sql_error_text err)), db)
    | None =>
        (None,
         set_payments
           (MERGE (payments_on (ps_PaymentID e))
              (payments_matched (ps_OrderID e) (ps_Amount e) (ps_Currency e)
                 (ps_PaymentMethod e) (ps_Status e) (ps_SettledAt e) now)
              (payment_row e now)
              (payments db)) db)
    end.
Proof.
  unfold UpsertPayment, ExecContext, payments_merge.
  by destruct (payments_violation _ _ _ _ _ db).
Qed.

Lemma UpsertPayment_ok now e db :
  fst (UpsertPayment now e db) = None ↔
  payments_violation (ps_PaymentID e) (ps_OrderID e) (ps_Currency e)
    (ps_PaymentMethod e) (ps_Status e) db = None.
Proof. rewrite UpsertPayment_eq. by destruct (payments_violation _ _ _ _ _ db). Qed.

Lemma UpsertPayment_clock t t' e db :
  fst (UpsertPayment t e db) = None → fst (UpsertPayment t' e db) = None.
Proof. by rewrite !UpsertPayment_ok. Qed.

Lemma payments_violation_merged p1 p2 p4 p5 p6 upd new db :
  (∀ r, payments_on p1 r → payments_on p1 (upd r)) → payments_on p1 new →
  payments_violation p1 p2 p4 p5 p6 db = None →
  payments_violation p1 p2 p4 p5 p6
    (set_payments (MERGE (payments_on p1) upd new (payments db)) db) = None.
Proof.
  intros Hupd Hnew. rewrite !payments_violation_spec. simpl.
  intros (_ & ? & ? & ? & ? & ?). split_and!; try done.
  left. by apply MERGE_Exists_on.
Qed.

Lemma UpsertPayment_again t t' e db :
  fst (UpsertPayment t e db) = None →
  UpsertPayment t' e (snd (UpsertPayment t e db)) = UpsertPayment t' e db.
Proof.
  rewrite UpsertPayment_ok. intros Hok. rewrite !UpsertPayment_eq, Hok. simpl.
  rewrite payments_violation_merged by done. f_equal. unfold set_payments. simpl.
  f_equal. by apply MERGE_MERGE.
Qed.

Lemma UpsertPayment_row now e db :
  primary_keys db →
  fst (UpsertPayment now e db) = None →
  filter (payments_on (ps_PaymentID e)) (payments (snd (UpsertPayment now e db))) =
    [payment_row e now].
Proof.
  intros (_ & _ & Hpk & _) Hok. apply UpsertPayment_ok in Hok.
  rewrite UpsertPayment_eq, Hok. simpl.
  rewrite MERGE_filter_on by done.
  pose proof (primary_key_filter p_payment_id (ps_PaymentID e)
                (payments_on (ps_PaymentID e)) (payments db) (λ _ H, H) Hpk)
    as Hlen.
  destruct (filter (payments_on (ps_PaymentID e)) (payments db))
    as [|r0 rest] eqn:Hf; [done|].
  destruct rest; [|simpl in Hlen; lia].
  assert (r0 ∈ filter (payments_on (ps_PaymentID e)) (payments db)) as Hr0
    by (rewrite Hf; left).
  apply list_elem_of_filter in Hr0 as [Hr0 _].
  simpl. unfold payments_matched, payment_row. by rewrite Hr0.
Qed.

Lemma UpsertPayment_second t t' e db :
  fst (UpsertPayment t e db) = None →
  UpsertPayment t' e (snd (UpsertPayment t e db)) =
    (None,
     set_payments
       ((λ r, if decide (payments_on (ps_PaymentID e) r)
              then touch_payment t' r else r)
          <$> payments (snd (UpsertPayment t e db)))
       (snd (UpsertPayment t e db))).
Proof.
  rewrite UpsertPayment_ok. intros Hok.
  rewrite (UpsertPayment_eq t' e). rewrite (UpsertPayment_eq t e), Hok. simpl.
  rewrite payments_violation_merged by done. simpl.
  f_equal. unfold set_payments at 1 3. simpl. f_equal.
  unfold MERGE at 1. rewrite decide_True by (by apply MERGE_Exists_on).
  apply list_fmap_ext. intros i r Hr. simpl.
  case_decide as Hon; [|done].
  pose proof (MERGE_Forall_on (payments_on (ps_PaymentID e))
    (payments_matched (ps_OrderID e) (ps_Amount e) (ps_Currency e)
       (ps_PaymentMethod e) (ps_Status e) (ps_SettledAt e) t)
    (payment_row e t)
    (λ r, payments_matched (ps_OrderID e) (ps_Amount e) (ps_Currency e)
            (ps_PaymentMethod e) (ps_Status e) (ps_SettledAt e) t' r
          = touch_payment t' r) (payments db)) as HQ.
  rewrite Forall_forall in HQ.
  apply HQ; [done | done | by eapply list_elem_of_lookup_2 | done].
Qed.

(** ** C1: redelivery of UserCreated and PaymentSettled *)

(** C1 (amended). Whatever the tables held, once UpsertUser (resp.
    UpsertPayment) has succeeded with an event, invoking it again with the
    same event any number of times succeeds every time and leaves the tables
    that a single invocation at the last clock reading leaves: exactly one
    row carries the event's user id (resp. payment id); its email, first
    name and last name (resp. every payment column) are the event's, its
    updated_at is the clock reading of the last invocation, and the user's
    created_at is the event's creation time only if the first invocation
    inserted the row, otherwise what the row held before. One more
    invocation changes nothing but the updated_at of that row. *)
Theorem C1_redelivery_one_row (t : Z) (ts : list Z) (db : DB) :
  primary_keys db →
  (∀ e : UserCreated,
     fst (UpsertUser t e db) = None →
     let db' := snd (deliver UpsertUser (t :: ts) e db) in
     fst (deliver UpsertUser (t :: ts) e db) = replicate (S (length ts)) None ∧
     db' = snd (UpsertUser (default t (last ts)) e db) ∧
     filter (users_on (uc_UserID e)) (users db') =
       [user_row e
          (default (uc_CreatedAt e)
             (u_created_at <$> head (filter (users_on (uc_UserID e)) (users db))))
          (default t (last ts))] ∧
     ∀ t', UpsertUser t' e db' =
             (None,
              set_users
                ((λ r, if decide (users_on (uc_UserID e) r)
                       then touch_user t' r else r) <$> users db') db')) ∧
  (∀ e : PaymentSettled,
     fst (UpsertPayment t e db) = None →
     let db' := snd (deliver UpsertPayment (t :: ts) e db) in
     fst (deliver UpsertPayment (t :: ts) e db) = replicate (S (length ts)) None ∧
     db' = snd (UpsertPayment (default t (last ts)) e db) ∧
     filter (payments_on (ps_PaymentID e)) (payments db') =
       [payment_row e (default t (last ts))] ∧
     ∀ t', UpsertPayment t' e db' =
             (None,
              set_payments
                ((λ r, if decide (payments_on (ps_PaymentID e) r)
                       then touch_payment t' r else r) <$> payments db') db')).
Proof.
  intros Hpk. split; intros e Hok db'; subst db'.
  - rewrite (deliver_last UpsertUser UpsertUser_clock UpsertUser_again) by done.
    cbn [fst snd]. split_and!; [done | done | |].
    + apply UpsertUser_row; [done | by eapply UpsertUser_clock].
    + intros t'. apply UpsertUser_second. by eapply UpsertUser_clock.
  - rewrite (deliver_last UpsertPayment UpsertPayment_clock UpsertPayment_again)
      by done.
    cbn [fst snd]. split_and!; [done | done | |].
    + apply UpsertPayment_row; [done | by eapply UpsertPayment_clock].
    + intros t'. apply UpsertPayment_second. by eapply UpsertPayment_clock.
Qed.

Lemma C1_redelivery_one_row_witness :
  primary_keys samples.with_order ∧
  fst (UpsertUser 10 samples.alice_again samples.with_order) = None ∧
  filter (users_on "u-1")
    (users (snd (deliver UpsertUser [10; 20; 30] samples.alice_again
                   samples.with_order))) =
    [user_row samples.alice_again 500 30] ∧
  fst (UpsertPayment 10 samples.payment1 samples.with_order) = None ∧
  filter (payments_on "p-1")
    (payments (snd (deliver UpsertPayment [10; 20; 30] samples.payment1
                      samples.with_order))) =
    [payment_row samples.payment1 30].
Proof.
  assert (primary_keys samples.with_order) as Hpk
    by (apply (bool_decide_unpack _); vm_compute; exact I).
  pose proof (C1_redelivery_one_row 10 [20; 30] samples.with_order Hpk)
    as [Hu Hp].
  split_and!.
  - exact Hpk.
  - vm_compute; reflexivity.
  - apply (Hu samples.alice_again). vm_compute; reflexivity.
  - vm_compute; reflexivity.
  - apply (Hp samples.payment1). vm_compute; reflexivity.
Defined.

(** C1 as stated fails on a user that is already stored: after the same
    event is upserted twice, at clock readings 10 and 20, the second
    invocation has changed the stored row (its updated_at), and the row's
    created_at is the one it had, not the event's. *)
Lemma C1_counterexample :
  let row (updated_at : Z) :=
    {| u_user_id := "u-1"; u_email := "alice@example.org";
       u_first_name := "Alice"; u_last_name := "Roe";
       u_created_at := 500; u_updated_at := updated_at |} in
  let db1 := set_users [row 10] empty_db in
  let db2 := set_users [row 20] empty_db in
  primary_keys samples.with_alice ∧
  UpsertUser 10 samples.alice_again samples.with_alice = (None, db1) ∧
  UpsertUser 20 samples.alice_again db1 = (None, db2) ∧
  db2 ≠ db1 ∧
  uc_CreatedAt samples.alice_again = 950.
Proof.
  split_and!.
  - apply (bool_decide_unpack _). vm_compute. exact I.
  - vm_compute. reflexivity.
  - vm_compute. reflexivity.
  - vm_compute. intros [=].
  - reflexivity.
Qed.

(** ** C10: the matched path of UpsertUser *)

Lemma MERGE_lookup_unmatched {Row : Type} (on : Row → Prop)
    `{!∀ r, Decision (on r)} (upd : Row → Row) (new : Row) (l : list Row)
    (j : nat) (r : Row) :
  l !! j = Some r → ¬ on r → MERGE on upd new l !! j = Some r.
Proof.
  intros Hj Hoff. unfold MERGE. case_decide.
  - rewrite list_lookup_fmap, Hj. simpl. by rewrite decide_False.
  - by apply lookup_app_l_Some.
Qed.

(** C10. When the event's user id matches a stored row, UpsertUser leaves
    the row where it is with its user_id and created_at; on success the row
    has the event's email, first name and last name and the clock reading
    as updated_at, the rows of other users are as they were and no row is
    added; on failure the tables are as they were. *)
Theorem C10_created_at_kept (now : Z) (e : UserCreated) (db : DB) (i : nat)
    (r : UserRow) :
  users db !! i = Some r →
  u_user_id r = uc_UserID e →
  let err := fst (UpsertUser now e db) in
  let db' := snd (UpsertUser now e db) in
  (∃ r', users db' !! i = Some r' ∧
         u_user_id r' = u_user_id r ∧ u_created_at r' = u_created_at r) ∧
  (err = None →
     users db' !! i =
       Some {| u_user_id := u_user_id r;
               u_email := uc_Email e;
               u_first_name := uc_FirstName e;
               u_last_name := uc_LastName e;
               u_created_at := u_created_at r;
               u_updated_at := now |} ∧
     length (users db') = length (users db) ∧
     ∀ j r2, users db !! j = Some r2 → u_user_id r2 ≠ uc_UserID e →
             users db' !! j = Some r2) ∧
  (err ≠ None → db' = db).
Proof.
  intros Hi Hr. rewrite UpsertUser_eq.
  destruct (users_violation _ _ _ _ db) as [v|]; cbn [fst snd].
  - split_and!; [by exists r | done | done].
  - unfold set_users; simpl.
    destruct (MERGE_lookup_matched (users_on (uc_UserID e))
      (users_matched (uc_Email e) (uc_FirstName e) (uc_LastName e) now)
      (users_not_matched (uc_UserID e) (uc_Email e) (uc_FirstName e)
         (uc_LastName e) now (uc_CreatedAt e)) (users db) i r Hi Hr)
      as [Hrow Hlen].
    split_and!.
    + eexists. split; [exact Hrow | done].
    + intros _. split_and!; [exact Hrow | exact Hlen |].
      intros j r2 Hj Hne. by apply MERGE_lookup_unmatched.
    + done.
Qed.

Lemma C10_created_at_kept_witness :
  users samples.with_alice !! 0%nat =
    Some {| u_user_id := "u-1"; u_email := "alice@example.com";
            u_first_name := "Alice"; u_last_name := "Doe";
            u_created_at := 500; u_updated_at := 500 |} ∧
  users (snd (UpsertUser 10 samples.alice_again samples.with_alice)) !! 0%nat =
    Some {| u_user_id := "u-1"; u_email := "alice@example.org";
            u_first_name := "Alice"; u_last_name := "Roe";
            u_created_at := 500; u_updated_at := 10 |}.
Proof.
  split; [reflexivity|].
  exact (proj1 (proj1 (proj2 (C10_created_at_kept 10 samples.alice_again
    samples.with_alice 0
    {| u_user_id := "u-1"; u_email := "alice@example.com";
       u_first_name := "Alice"; u_last_name := "Doe";
       u_created_at := 500; u_updated_at := 500 |}
    eq_refl eq_refl)) eq_refl)).
Defined.

(** ** UpsertInventory *)

Lemma inventory_violation_spec p1 p2 db :
  inventory_violation p1 p2 db = None ↔
  (Exists (inventory_on p1) (inventory db) ∨ varchar 50 p1) ∧
  (Exists (inventory_on p1) (inventory db) ∨ sql_int p2) ∧
  Forall (λ r, inventory_on p1 r → sql_int (inv_quantity r + p2)) (inventory db).
Proof. unfold inventory_violation. violation_spec. Qed.

Lemma UpsertInventory_eq now e db :
  UpsertInventory now e db =
    match inventory_violation (ia_SKU e) (inventory_delta e) db with
    | Some err =>
        (Some (Errorf_w "failed to upsert inventory" (sql_error_text err)), db)
    | None =>
        (None,
         set_inventory
           (MERGE (inventory_on (ia_SKU e))
              (inventory_matched (inventory_delta e) now)
              (inventory_not_matched (ia_SKU e) (inventory_delta e) now)
              (inventory db)) db)
    end.
Proof.
  unfold UpsertInventory, ExecContext, inventory_merge.
  by destruct (inventory_violation _ _ db).
Qed.

Lemma UpsertInventory_stored now e db db' :
  UpsertInventory now e db = (None, db') →
  stored_quantity (ia_SKU e) db' =
    Some (match stored_quantity (ia_SKU e) db with
          | Some q => q + inventory_delta e
          | None => inventory_delta e
          end) ∧
  ∀ sku, sku ≠ ia_SKU e → stored_quantity sku db' = stored_quantity sku db.
Proof.
  rewrite UpsertInventory_eq.
  destruct (inventory_violation _ _ db); intros [= <-]. unfold stored_quantity.
  simpl. split.
  - rewrite MERGE_filter_on by done.
    by destruct (filter (inventory_on (ia_SKU e)) (inventory db)).
  - intros sku Hne. rewrite MERGE_filter_off; [done..|].
    unfold inventory_on. congruence.
Qed.

(** ** C3: the delta UpsertInventory applies *)

(** C3 (amended). The delta UpsertInventory applies is the event's quantity,
    negated when the adjustment type is "subtract" and unchanged for every
    other adjustment type. On success, when no row exists for the SKU the
    inserted row's quantity is that delta, and when a row exists the stored
    quantity becomes the old quantity plus that delta; the quantities of
    other SKUs are as they were. *)
Theorem C3_signed_delta (now : Z) (e : InventoryAdjusted) (db db' : DB) :
  UpsertInventory now e db = (None, db') →
  let delta :=
    if decide (ia_AdjustmentType e = "subtract")
    then int_neg (ia_Quantity e)
    else ia_Quantity e in
  stored_quantity (ia_SKU e) db' =
    Some (match stored_quantity (ia_SKU e) db with
          | Some old => old + delta
          | None => delta
          end) ∧
  (∀ sku, sku ≠ ia_SKU e → stored_quantity sku db' = stored_quantity sku db) ∧
  (ia_AdjustmentType e ≠ "subtract" → delta = ia_Quantity e) ∧
  (ia_AdjustmentType e = "subtract" → - 2 ^ 63 < ia_Quantity e < 2 ^ 63 →
   delta = - ia_Quantity e).
Proof.
  intros Hup delta.
  destruct (UpsertInventory_stored now e db db' Hup) as [Hsku Hother].
  split_and!; [exact Hsku | exact Hother | |].
  - intros Hne. subst delta. by rewrite decide_False.
  - intros Heq Hq. subst delta. rewrite decide_True by done.
    by apply int_neg_opp.
Qed.

Lemma C3_signed_delta_witness :
  UpsertInventory 7 samples.returned_X (samples.stock "X" 10) =
    (None,
     set_inventory
       [{| inv_sku := "X"; inv_quantity := -40; inv_updated_at := 7 |}] empty_db) ∧
  stored_quantity "X"
    (set_inventory
       [{| inv_sku := "X"; inv_quantity := -40; inv_updated_at := 7 |}] empty_db)
    = Some (10 + -50).
Proof.
  split; [vm_compute; reflexivity|].
  exact (proj1 (C3_signed_delta 7 samples.returned_X (samples.stock "X" 10) _
                  eq_refl)).
Defined.

(** C3 as stated fails for the adjustment type "subtract": a quantity of 5
    on a stored quantity of 10 leaves 5, not 10 + 5. *)
Lemma C3_counterexample :
  ia_Quantity samples.subtract_X = 5 ∧
  ia_AdjustmentType samples.subtract_X = "subtract" ∧
  stored_quantity "X" (samples.stock "X" 10) = Some 10 ∧
  fst (UpsertInventory 7 samples.subtract_X (samples.stock "X" 10)) = None ∧
  stored_quantity "X"
    (snd (UpsertInventory 7 samples.subtract_X (samples.stock "X" 10))) = Some 5 ∧
  Some 5 ≠ Some (10 + ia_Quantity samples.subtract_X).
Proof. split_and!; try (vm_compute; reflexivity). vm_compute. intros [=]. Qed.

(** ** C8: a return of 50 on a stock of 10 *)

(** C8. With 10 stored for SKU "X", UpsertInventory of an event with sku "X",
    quantity -50 and adjustment type "returned" succeeds and leaves -40
    stored for "X". *)
Theorem C8_returned_50_of_10 (now : Z) (e : InventoryAdjusted) (db : DB) :
  primary_keys db →
  ia_SKU e = "X" →
  ia_Quantity e = -50 →
  ia_AdjustmentType e = "returned" →
  stored_quantity "X" db = Some 10 →
  fst (UpsertInventory now e db) = None ∧
  stored_quantity "X" (snd (UpsertInventory now e db)) = Some (-40).
Proof.
  intros (_ & _ & _ & Hpk) Hsku Hq Hty Hold.
  destruct e as [b sku q ty reason adjusted]. simpl in Hsku, Hq, Hty. subst.
  set (e := {| ia_BaseEvent := b; ia_SKU := "X"; ia_Quantity := -50;
               ia_AdjustmentType := "returned"; ia_Reason := reason;
               ia_AdjustedAt := adjusted |}).
  assert (inventory_delta e = -50) as Hdelta by done.
  assert (inventory_violation (ia_SKU e) (inventory_delta e) db = None) as Hok.
  { rewrite inventory_violation_spec, Hdelta. simpl.
    unfold stored_quantity in Hold.
    pose proof (primary_key_filter inv_sku "X" (inventory_on "X") (inventory db)
                  (λ _ H, H) Hpk) as Hlen.
    destruct (filter (inventory_on "X") (inventory db)) as [|r0 rest] eqn:Hf;
      [done|].
    destruct rest; [|simpl in Hlen; lia]. simpl in Hold.
    assert (∀ r, r ∈ inventory db → inventory_on "X" r → r = r0) as Honly.
    { intros r Hr Hon.
      assert (r ∈ filter (inventory_on "X") (inventory db)) as Hin
        by (by apply list_elem_of_filter).
      rewrite Hf in Hin. by apply list_elem_of_singleton in Hin. }
    assert (r0 ∈ filter (inventory_on "X") (inventory db)) as Hr0
      by (rewrite Hf; left).
    apply list_elem_of_filter in Hr0 as [Hon0 Hin0].
    assert (Exists (inventory_on "X") (inventory db)) as Hex
      by (apply Exists_exists; eauto).
    split_and!; [by left | by left |].
    apply Forall_forall. intros r Hr Hon. rewrite (Honly r Hr Hon).
    injection Hold as ->. unfold sql_int. lia. }
  pose proof (UpsertInventory_eq now e db) as Heq. rewrite Hok in Heq.
  split; [by rewrite Heq|].
  destruct (UpsertInventory_stored now e db _ Heq) as [Hnew _].
  rewrite Heq. cbn [snd]. etrans; [exact Hnew|].
  change (ia_SKU e) with "X". by rewrite Hold, Hdelta.
Qed.

Lemma C8_returned_50_of_10_witness :
  primary_keys (samples.stock "X" 10) ∧
  stored_quantity "X" (samples.stock "X" 10) = Some 10 ∧
  stored_quantity "X"
    (snd (UpsertInventory 7 samples.returned_X (samples.stock "X" 10)))
    = Some (-40).
Proof.
  assert (primary_keys (samples.stock "X" 10)) as Hpk
    by (apply (bool_decide_unpack _); vm_compute; exact I).
  split_and!; [exact Hpk | reflexivity |].
  exact (proj2 (C8_returned_50_of_10 7 samples.returned_X (samples.stock "X" 10)
                  Hpk eq_refl eq_refl eq_refl eq_refl)).
Defined.

(** ** UpsertOrder *)

Lemma orders_violation_spec p1 p2 p4 db :
  orders_violation p1 p2 p4 db = None ↔
  (Exists (orders_on p1) (orders db) ∨ varchar 36 p1) ∧
  varchar 36 p2 ∧ varchar 3 p4 ∧ Exists (users_on p2) (users db).
Proof. unfold orders_violation. violation_spec. Qed.

Lemma set_order_items_twice t t' db :
  set_order_items t (set_order_items t' db) = set_order_items t db.
Proof. done. Qed.

(** The loop over the items appends one row per item, in order. *)
Lemma insert_items_ok (oid : string) (items : list OrderItem) (db db' : DB) :
  tx_range
    (λ item,
       ExecContext "failed to insert order item"
         (order_items_insert oid (oi_SKU item) (oi_Quantity item) (oi_Price item)))
    items db = inr db' →
  db' = set_order_items (order_items db ++ (item_row oid <$> items)) db.
Proof.
  revert db. induction items as [|item items IH]; intros db; simpl.
  - unfold tx_done. intros [= <-]. destruct db. unfold set_order_items. simpl.
    by rewrite app_nil_r.
  - unfold tx_then, ExecContext at 1, order_items_insert.
    destruct (order_items_violation _ _ _ db); [done|].
    intros Hrest. apply IH in Hrest. rewrite Hrest. simpl.
    rewrite set_order_items_twice. f_equal. by rewrite <- app_assoc.
Qed.

Lemma UpsertOrder_ok now e db db' :
  UpsertOrder now e db = (None, db') →
  orders_violation (op_OrderID e) (op_UserID e) (op_Currency e) db = None ∧
  db' =
    set_order_items
      (filter (λ r, ¬ order_items_on (op_OrderID e) r) (order_items db) ++
       (item_row (op_OrderID e) <$> op_Items e))
      (set_orders
         (MERGE (orders_on (op_OrderID e))
            (orders_matched (op_UserID e) (op_TotalAmount e) (op_Currency e) now)
            (order_row e (op_PlacedAt e) now)
            (orders db)) db).
Proof.
  unfold UpsertOrder, tx_then, ExecContext at 1 2, orders_merge, order_items_delete.
  destruct (orders_violation _ _ _ db); [done|].
  match goal with |- context [tx_range ?f ?l ?d] =>
    destruct (tx_range f l d) as [err|db2] eqn:Hitems end; [done|].
  intros [= <-]. split; [done|].
  apply insert_items_ok in Hitems. by rewrite Hitems.
Qed.

Lemma UpsertOrder_atomic now e db :
  fst (UpsertOrder now e db) ≠ None → snd (UpsertOrder now e db) = db.
Proof.
  unfold UpsertOrder.
  match goal with |- context [match ?tx db with _ => _ end] =>
    destruct (tx db) end; done.
Qed.

Lemma UpsertOrder_facts now e db db' :
  primary_keys db →
  UpsertOrder now e db = (None, db') →
  primary_keys db' ∧
  filter (orders_on (op_OrderID e)) (orders db') =
    [order_row e
       (default (op_PlacedAt e)
          (o_placed_at <$> head (filter (orders_on (op_OrderID e)) (orders db))))
       now] ∧
  filter (order_items_on (op_OrderID e)) (order_items db') =
    item_row (op_OrderID e) <$> op_Items e ∧
  filter (λ r, ¬ order_items_on (op_OrderID e) r) (order_items db') =
    filter (λ r, ¬ order_items_on (op_OrderID e) r) (order_items db).
Proof.
  intros (Hu & Ho & Hp & Hi) [_ ->]%UpsertOrder_ok. simpl. split_and!.
  - unfold primary_keys. simpl. split_and!; try done.
    apply (MERGE_keys o_order_id (op_OrderID e)); done.
  - rewrite MERGE_filter_on by done.
    pose proof (primary_key_filter o_order_id (op_OrderID e)
                  (orders_on (op_OrderID e)) (orders db) (λ _ H, H) Ho) as Hlen.
    destruct (filter (orders_on (op_OrderID e)) (orders db))
      as [|r0 rest] eqn:Hf; [done|].
    destruct rest; [|simpl in Hlen; lia].
    assert (r0 ∈ filter (orders_on (op_OrderID e)) (orders db)) as Hr0
      by (rewrite Hf; left).
    apply list_elem_of_filter in Hr0 as [Hr0 _].
    simpl. unfold orders_matched, order_row. by rewrite Hr0.
  - rewrite filter_app, filter_none, filter_all; [done | |].
    + apply Forall_fmap, Forall_forall. by intros item _.
    + apply Forall_forall. intros r [Hr _]%list_elem_of_filter. by intros ?.
  - rewrite filter_app, (filter_none _ (_ <$> _)), app_nil_r.
    + apply filter_all, Forall_forall. by intros r [Hr _]%list_elem_of_filter.
    + apply Forall_fmap, Forall_forall. intros item _ Hne. by apply Hne.
Qed.

(** ** C2: an order's line items are replaced *)

(** C2. A successful UpsertOrder leaves exactly one row for the order id
    (the event's columns, placed_at kept when the row existed) and, as the
    line items of that order id, exactly the delivered items in order; the
    line items of other orders are as they were. Delivering an event for
    the same order id again, with whatever items, leaves exactly the items
    of the second delivery (no union, no duplicates when the deliveries are
    identical). A failed UpsertOrder leaves the tables as they were. *)
Theorem C2_items_replaced (t1 t2 : Z) (e1 e2 : OrderPlaced) (db db1 db2 : DB) :
  primary_keys db →
  op_OrderID e2 = op_OrderID e1 →
  UpsertOrder t1 e1 db = (None, db1) →
  UpsertOrder t2 e2 db1 = (None, db2) →
  let oid := op_OrderID e1 in
  let placed_at :=
    default (op_PlacedAt e1)
      (o_placed_at <$> head (filter (orders_on oid) (orders db))) in
  (filter (orders_on oid) (orders db1) = [order_row e1 placed_at t1] ∧
   filter (order_items_on oid) (order_items db1) = item_row oid <$> op_Items e1 ∧
   filter (λ r, ¬ order_items_on oid r) (order_items db1) =
     filter (λ r, ¬ order_items_on oid r) (order_items db)) ∧
  (filter (orders_on oid) (orders db2) = [order_row e2 placed_at t2] ∧
   filter (order_items_on oid) (order_items db2) = item_row oid <$> op_Items e2 ∧
   filter (λ r, ¬ order_items_on oid r) (order_items db2) =
     filter (λ r, ¬ order_items_on oid r) (order_items db)) ∧
  (∀ now e db0,
     fst (UpsertOrder now e db0) ≠ None → snd (UpsertOrder now e db0) = db0).
Proof.
  intros Hpk Hid H1 H2 oid placed_at.
  destruct (UpsertOrder_facts t1 e1 db db1 Hpk H1) as (Hpk1 & Ho1 & Hi1 & Hx1).
  destruct (UpsertOrder_facts t2 e2 db1 db2 Hpk1 H2) as (_ & Ho2 & Hi2 & Hx2).
  rewrite Hid in Ho2, Hi2, Hx2. fold oid in Ho1, Hi1, Hx1, Ho2, Hi2, Hx2.
  split_and!; try done.
  - by rewrite Ho2, Ho1.
  - by rewrite Hx2, Hx1.
  - intros now e db0. apply UpsertOrder_atomic.
Qed.

Lemma C2_items_replaced_witness :
  primary_keys samples.with_alice ∧
  fst (UpsertOrder 10 samples.order1 samples.with_alice) = None ∧
  fst (UpsertOrder 20 samples.order1_changed
         (snd (UpsertOrder 10 samples.order1 samples.with_alice))) = None ∧
  order_items
    (snd (UpsertOrder 20 samples.order1_changed
            (snd (UpsertOrder 10 samples.order1 samples.with_alice)))) =
    [item_row "o-1" samples.cable] ∧
  filter (order_items_on "o-1")
    (order_items
       (snd (UpsertOrder 20 samples.order1_changed
               (snd (UpsertOrder 10 samples.order1 samples.with_alice))))) =
    item_row "o-1" <$> op_Items samples.order1_changed.
Proof.
  assert (primary_keys samples.with_alice) as Hpk
    by (apply (bool_decide_unpack _); vm_compute; exact I).
  split_and!; [exact Hpk | vm_compute; reflexivity.. |].
  refine (proj1 (proj2 (proj1 (proj2
    (C2_items_replaced 10 20 samples.order1 samples.order1_changed
       samples.with_alice _ _ Hpk eq_refl _ _))))).
  - vm_compute; reflexivity.
  - vm_compute; reflexivity.
Defined.

(** ** The consumer: what each step touches *)

Section Consumer_facts.

Context (json : Codec).

Lemma sendToDLQ_calls env eventID data cause w :
  calls (sendToDLQ json env eventID data cause w) =
    calls w ++ [Call_Push eventID data cause].
Proof.
  unfold sendToDLQ, dlq.Push.
  destruct (Marshal_DLQEntry json _) as [encoded [e|]]; [done|].
  by destruct (RPush_err env).
Qed.

Lemma sendToDLQ_redis env eventID data cause w :
  redis (sendToDLQ json env eventID data cause w) =
    match Marshal_DLQEntry json (failure_record env eventID data cause),
          RPush_err env with
    | (encoded, None), None => redis w ++ [encoded]
    | _, _ => redis w
    end.
Proof.
  unfold sendToDLQ, dlq.Push, failure_record.
  destruct (Marshal_DLQEntry json _) as [encoded [e|]]; [done|].
  by destruct (RPush_err env).
Qed.

Lemma sendToDLQ_frame env eventID data cause w :
  sql (sendToDLQ json env eventID data cause w) = sql w ∧
  processedCount (sendToDLQ json env eventID data cause w) = processedCount w ∧
  MessagesProcessed (metrics (sendToDLQ json env eventID data cause w)) =
    MessagesProcessed (metrics w) ∧
  MessagesProcessedPerSecond (metrics (sendToDLQ json env eventID data cause w)) =
    MessagesProcessedPerSecond (metrics w).
Proof.
  unfold sendToDLQ, dlq.Push.
  destruct (Marshal_DLQEntry json _) as [encoded [e|]]; [done|].
  by destruct (RPush_err env).
Qed.

(** A handler touches the tables and makes at most one call, an upsert;
    when the payload does not decode it touches nothing. *)
Lemma handler_frame_refl w err : handler_frame w (err, w).
Proof.
  unfold handler_frame. simpl. split_and!; try done.
  exists []. by rewrite app_nil_r.
Qed.

Lemma handleUserCreated_frame env data eventID w :
  handler_frame w (handleUserCreated json env data eventID w).
Proof.
  unfold handleUserCreated.
  destruct (Unmarshal_UserCreated json data) as [event [err|]];
    [apply handler_frame_refl|].
  destruct (UpsertUser (now env) event (sql w)) as [err db].
  unfold handler_frame. simpl. split_and!; try done.
  eexists; split; [done | by repeat constructor].
Qed.

Lemma handleOrderPlaced_frame env data eventID w :
  handler_frame w (handleOrderPlaced json env data eventID w).
Proof.
  unfold handleOrderPlaced.
  destruct (Unmarshal_OrderPlaced json data) as [event [err|]];
    [apply handler_frame_refl|].
  destruct (UpsertOrder (now env) event (sql w)) as [err db].
  unfold handler_frame. simpl. split_and!; try done.
  eexists; split; [done | by repeat constructor].
Qed.

Lemma handlePaymentSettled_frame env data eventID w :
  handler_frame w (handlePaymentSettled json env data eventID w).
Proof.
  unfold handlePaymentSettled.
  destruct (Unmarshal_PaymentSettled json data) as [event [err|]];
    [apply handler_frame_refl|].
  destruct (UpsertPayment (now env) event (sql w)) as [err db].
  unfold handler_frame. simpl. split_and!; try done.
  eexists; split; [done | by repeat constructor].
Qed.

Lemma handleInventoryAdjusted_frame env data eventID w :
  handler_frame w (handleInventoryAdjusted json env data eventID w).
Proof.
  unfold handleInventoryAdjusted.
  destruct (Unmarshal_InventoryAdjusted json data) as [event [err|]];
    [apply handler_frame_refl|].
  destruct (UpsertInventory (now env) event (sql w)) as [err db].
  unfold handler_frame. simpl. split_and!; try done.
  eexists; split; [done | by repeat constructor].
Qed.

Lemma route_frame env msg b w : handler_frame w (route json env msg b w).
Proof.
  unfold route. repeat case_decide;
    auto using handleUserCreated_frame, handleOrderPlaced_frame,
      handlePaymentSettled_frame, handleInventoryAdjusted_frame,
      handler_frame_refl.
Qed.

Lemma route_unknown env msg b w :
  ¬ known_variant (be_EventType b) →
  route json env msg b w = (Some ("unknown event type: " ++ be_EventType b)%string, w).
Proof.
  unfold known_variant, route. intros Hun.
  repeat case_decide; try done; exfalso; apply Hun; auto.
Qed.

Lemma route_decode_failure env msg b cause w :
  decode_failure json (Value msg) b cause →
  Unmarshal_BaseEvent json (Value msg) = (b, None) →
  route json env msg b w = (Some cause, w).
Proof.
  unfold route.
  destruct 1 as [b err Hb|b ev err Hb Hty Hev|b ev err Hb Hty Hev
                |b ev err Hb Hty Hev|b ev err Hb Hty Hev]; intros Hok.
  - congruence.
  - rewrite decide_True by done.
    unfold handleUserCreated. by rewrite Hev.
  - rewrite Hty. rewrite decide_False by done. rewrite decide_True by done.
    unfold handleOrderPlaced. by rewrite Hev.
  - rewrite Hty. rewrite !decide_False by done. rewrite decide_True by done.
    unfold handlePaymentSettled. by rewrite Hev.
  - rewrite Hty. rewrite !decide_False by done. rewrite decide_True by done.
    unfold handleInventoryAdjusted. by rewrite Hev.
Qed.

(** The two shapes of [processMessage]. *)
Lemma processMessage_undecoded env msg w b err :
  Unmarshal_BaseEvent json (Value msg) = (b, Some err) →
  processMessage json env msg w =
    CommitMessage msg
      (sendToDLQ json env (be_EventID b) (Value msg)
         ("Failed to parse base event: " ++ err)%string w).
Proof. unfold processMessage. by intros ->. Qed.

Lemma processMessage_failed env msg w b cause w1 :
  Unmarshal_BaseEvent json (Value msg) = (b, None) →
  route json env msg b w = (Some cause, w1) →
  processMessage json env msg w =
    CommitMessage msg
      (let w2 := sendToDLQ json env (be_EventID b) (Value msg) cause w1 in
       with_metrics (MessagesProcessed_Inc (be_EventType b) "error" (metrics w2))
         w2).
Proof. unfold processMessage. by intros -> ->. Qed.

Lemma processMessage_succeeded env msg w b w1 :
  Unmarshal_BaseEvent json (Value msg) = (b, None) →
  route json env msg b w = (None, w1) →
  processMessage json env msg w =
    CommitMessage msg
      (processedCount_incr (be_EventType b)
         (with_metrics
            (MessagesProcessed_Inc (be_EventType b) "success" (metrics w1)) w1)).
Proof. unfold processMessage. by intros -> ->. Qed.

End Consumer_facts.

(** ** C4: an unknown variant *)

(** C4 (amended). When the envelope decodes and its discriminant is none of
    the four known variants, processMessage invokes no persistence-gateway
    operation and leaves the tables as they were, and pushes exactly one
    failure record, with the description "unknown event type: " followed by
    the discriminant and with the message body; the Failure Sink holds
    exactly one more record, as encoded, when it accepts the push, and no
    more record when the push fails. *)
Theorem C4_unknown_variant (json : Codec) (env : Env) (msg : Message)
    (w : World) (b : BaseEvent) :
  Unmarshal_BaseEvent json (Value msg) = (b, None) →
  ¬ known_variant (be_EventType b) →
  let w' := processMessage json env msg w in
  let cause := ("unknown event type: " ++ be_EventType b)%string in
  calls w' =
    calls w ++ [Call_Push (be_EventID b) (Value msg) cause;
                Call_CommitMessage msg] ∧
  sql w' = sql w ∧
  redis w' =
    match Marshal_DLQEntry json
            (failure_record env (be_EventID b) (Value msg) cause),
          RPush_err env with
    | (encoded, None), None => redis w ++ [encoded]
    | _, _ => redis w
    end.
Proof.
  intros Hb Hun w' cause. subst w'.
  rewrite (processMessage_failed json env msg w b cause w Hb)
    by (by apply route_unknown).
  simpl. rewrite sendToDLQ_calls, sendToDLQ_redis, <- app_assoc.
  by destruct (sendToDLQ_frame json env (be_EventID b) (Value msg) cause w) as [-> _].
Qed.

Lemma C4_unknown_variant_witness :
  Unmarshal_BaseEvent samples.sample_json samples.body_unknown =
    (samples.base "evt-6" "UserDeleted", None) ∧
  ¬ known_variant "UserDeleted" ∧
  redis (processMessage samples.sample_json (samples.redis_up 5)
           (samples.message 0 samples.body_unknown) empty_world) =
    [samples.entry_text
       (failure_record (samples.redis_up 5) "evt-6" samples.body_unknown
          "unknown event type: UserDeleted")].
Proof.
  assert (¬ known_variant "UserDeleted") as Hun
    by (intros [H|[H|[H|H]]]; discriminate H).
  split_and!; [reflexivity | exact Hun |].
  exact (proj2 (proj2 (C4_unknown_variant samples.sample_json
    (samples.redis_up 5) (samples.message 0 samples.body_unknown) empty_world
    (samples.base "evt-6" "UserDeleted") eq_refl Hun))).
Defined.

(** C4 as stated fails when the Failure Sink refuses the push: the message
    has an unknown discriminant and no failure record is in the sink. *)
Lemma C4_counterexample :
  let msg := samples.message 0 samples.body_unknown in
  let w' := processMessage samples.sample_json (samples.redis_down 5) msg
              empty_world in
  Unmarshal_BaseEvent samples.sample_json (Value msg) =
    (samples.base "evt-6" "UserDeleted", None) ∧
  ¬ known_variant "UserDeleted" ∧
  calls w' =
    [Call_Push "evt-6" (Value msg) "unknown event type: UserDeleted";
     Call_CommitMessage msg] ∧
  redis w' = [].
Proof.
  split_and!; try (vm_compute; reflexivity).
  intros [H|[H|[H|H]]]; discriminate H.
Qed.

(** ** C5: a body that does not decode *)

(** C5 (amended). When the body fails to decode, as the envelope or as the
    payload of the variant the envelope names, processMessage invokes no
    persistence-gateway operation and leaves the tables as they were; its
    calls are exactly one push, of the decoder's error text behind the
    prefix of the failed decoding and of the message body as received, and
    the commit. The Failure Sink then holds exactly one more element, the
    JSON encoding of the record with that cause and that body, when the
    record is encoded and the store accepts the push, and no more element
    otherwise. *)
Theorem C5_undecodable_body (json : Codec) (env : Env) (msg : Message)
    (w : World) (b : BaseEvent) (cause : string) :
  decode_failure json (Value msg) b cause →
  let w' := processMessage json env msg w in
  calls w' =
    calls w ++ [Call_Push (be_EventID b) (Value msg) cause;
                Call_CommitMessage msg] ∧
  sql w' = sql w ∧
  redis w' =
    match Marshal_DLQEntry json
            (failure_record env (be_EventID b) (Value msg) cause),
          RPush_err env with
    | (encoded, None), None => redis w ++ [encoded]
    | _, _ => redis w
    end.
Proof.
  intros Hfail w'. subst w'.
  destruct (Unmarshal_BaseEvent json (Value msg)) as [b' [e|]] eqn:Hb.
  - assert (b' = b ∧ cause = ("Failed to parse base event: " ++ e)%string)
      as [-> ->] by (destruct Hfail; split; congruence).
    rewrite (processMessage_undecoded json env msg w b e Hb).
    simpl. rewrite sendToDLQ_calls, sendToDLQ_redis, <- app_assoc.
    by destruct (sendToDLQ_frame json env (be_EventID b) (Value msg)
                   ("Failed to parse base event: " ++ e)%string w) as [-> _].
  - assert (b' = b) as -> by (destruct Hfail; congruence).
    rewrite (processMessage_failed json env msg w b cause w Hb)
      by (by apply route_decode_failure).
    simpl. rewrite sendToDLQ_calls, sendToDLQ_redis, <- app_assoc.
    by destruct (sendToDLQ_frame json env (be_EventID b) (Value msg) cause w)
      as [-> _].
Qed.

Lemma C5_undecodable_body_witness :
  decode_failure samples.sample_json samples.body_garbage samples.zero_base
    ("Failed to parse base event: " ++ samples.syntax_error)%string ∧
  calls (processMessage samples.sample_json (samples.redis_up 5)
           (samples.message 0 samples.body_garbage) empty_world) =
    [Call_Push "" "not json"
       ("Failed to parse base event: " ++ samples.syntax_error)%string;
     Call_CommitMessage (samples.message 0 samples.body_garbage)] ∧
  decode_failure samples.sample_json samples.body_bad_field
    (samples.base "evt-7" UserCreatedEvent)
    ("failed to unmarshal UserCreated event: " ++ samples.type_error)%string ∧
  calls (processMessage samples.sample_json (samples.redis_up 5)
           (samples.message 1 samples.body_bad_field) empty_world) =
    [Call_Push "evt-7" samples.body_bad_field
       ("failed to unmarshal UserCreated event: " ++ samples.type_error)%string;
     Call_CommitMessage (samples.message 1 samples.body_bad_field)].
Proof.
  assert (decode_failure samples.sample_json samples.body_garbage
            samples.zero_base
            ("Failed to parse base event: " ++ samples.syntax_error)%string)
    as Hgarbage by (by apply envelope_failure).
  assert (decode_failure samples.sample_json samples.body_bad_field
            (samples.base "evt-7" UserCreatedEvent)
            ("failed to unmarshal UserCreated event: " ++ samples.type_error)%string)
    as Hfield by (by eapply UserCreated_failure).
  split_and!; [exact Hgarbage | | exact Hfield | ].
  - exact (proj1 (C5_undecodable_body samples.sample_json (samples.redis_up 5)
      (samples.message 0 samples.body_garbage) empty_world _ _ Hgarbage)).
  - exact (proj1 (C5_undecodable_body samples.sample_json (samples.redis_up 5)
      (samples.message 1 samples.body_bad_field) empty_world _ _ Hfield)).
Defined.

(** C5 as stated fails when the Failure Sink refuses the push: the body
    does not decode as the envelope and no failure record is in the sink
    afterwards. *)
Lemma C5_counterexample :
  let msg := samples.message 0 samples.body_garbage in
  let w' := processMessage samples.sample_json (samples.redis_down 5) msg
              empty_world in
  Unmarshal_BaseEvent samples.sample_json (Value msg) =
    (samples.zero_base, Some samples.syntax_error) ∧
  calls w' =
    [Call_Push "" (Value msg)
       ("Failed to parse base event: " ++ samples.syntax_error)%string;
     Call_CommitMessage msg] ∧
  sql w' = empty_db ∧
  redis w' = [].
Proof. split_and!; vm_compute; reflexivity. Qed.

(** ** C6: the offset is committed on every path *)

(** C6. Whatever the message and whatever the environment (the Failure Sink
    accepting the push or not), the calls of processMessage end with the
    commit of that message, and it is their only commit: every call of the
    disposition precedes it. *)
Theorem C6_commit_last (json : Codec) (env : Env) (msg : Message) (w : World) :
  ∃ disposition,
    calls (processMessage json env msg w) =
      calls w ++ disposition ++ [Call_CommitMessage msg] ∧
    Forall (λ c, is_commit c = false) disposition.
Proof.
  destruct (Unmarshal_BaseEvent json (Value msg)) as [b [e|]] eqn:Hb.
  - rewrite (processMessage_undecoded json env msg w b e Hb). simpl.
    rewrite sendToDLQ_calls, <- app_assoc.
    eexists. split; [done | by repeat constructor].
  - destruct (route json env msg b w) as [err w1] eqn:Hroute.
    pose proof (route_frame json env msg b w) as Hframe.
    rewrite Hroute in Hframe.
    destruct Hframe as (_ & _ & _ & upserts & Hcalls & Hups). simpl in Hcalls.
    assert (Forall (λ c, is_commit c = false) upserts) as Hnc.
    { eapply Forall_impl; [exact Hups|]. by intros []. }
    destruct err as [cause|].
    + rewrite (processMessage_failed json env msg w b cause w1 Hb Hroute). simpl.
      rewrite sendToDLQ_calls, Hcalls, <- !app_assoc.
      exists (upserts ++ [Call_Push (be_EventID b) (Value msg) cause]).
      rewrite <- app_assoc. split; [done|].
      apply Forall_app. split; [done | by repeat constructor].
    + rewrite (processMessage_succeeded json env msg w b w1 Hb Hroute). simpl.
      rewrite Hcalls, <- app_assoc. by exists upserts.
Qed.

(** ** C7: the error counter *)

Lemma counter_value_Inc m ty status :
  counter_value (MessagesProcessed_Inc ty status m) ty status =
    S (counter_value m ty status).
Proof. unfold counter_value. simpl. by rewrite lookup_insert_eq. Qed.

Lemma counter_value_Inc_ne m ty status ty' status' :
  (ty, status) ≠ (ty', status') →
  counter_value (MessagesProcessed_Inc ty status m) ty' status' =
    counter_value m ty' status'.
Proof. intros Hne. unfold counter_value. simpl. by rewrite lookup_insert_ne. Qed.

(** An unknown variant, an undecodable payload and a failed upsert are
    pushed and counted, under the discriminant as the envelope gave it. *)
Lemma routed_failure_counted (json : Codec) (env : Env) (msg : Message)
    (w w1 : World) (b : BaseEvent) (cause : string) :
  Unmarshal_BaseEvent json (Value msg) = (b, None) →
  route json env msg b w = (Some cause, w1) →
  let w' := processMessage json env msg w in
  counter_value (metrics w') (be_EventType b) "error" =
    S (counter_value (metrics w) (be_EventType b) "error") ∧
  calls w' =
    calls w1 ++ [Call_Push (be_EventID b) (Value msg) cause;
                 Call_CommitMessage msg].
Proof.
  intros Hb Hroute w'. subst w'.
  rewrite (processMessage_failed json env msg w b cause w1 Hb Hroute). simpl.
  pose proof (route_frame json env msg b w) as Hframe. rewrite Hroute in Hframe.
  destruct Hframe as (_ & Hm & _). simpl in Hm.
  rewrite sendToDLQ_calls, <- app_assoc. split; [|done].
  unfold counter_value. simpl. rewrite lookup_insert_eq. simpl.
  unfold counter_value.
  destruct (sendToDLQ_frame json env (be_EventID b) (Value msg) cause w1)
    as (_ & _ & -> & _).
  by rewrite Hm.
Qed.

(** C7 on the code. When the envelope itself does not decode, processMessage
    pushes the failure record and commits, and no counter of
    events_processed_total moves: the failure is not counted under any
    label. *)
Theorem C7_undecoded_envelope_not_counted (json : Codec) (env : Env)
    (msg : Message) (w : World) (b : BaseEvent) (err : string) :
  Unmarshal_BaseEvent json (Value msg) = (b, Some err) →
  let w' := processMessage json env msg w in
  calls w' =
    calls w ++ [Call_Push (be_EventID b) (Value msg)
                  ("Failed to parse base event: " ++ err)%string;
                Call_CommitMessage msg] ∧
  MessagesProcessed (metrics w') = MessagesProcessed (metrics w) ∧
  ∀ event_type status,
    counter_value (metrics w') event_type status =
      counter_value (metrics w) event_type status.
Proof.
  intros Hb w'. subst w'.
  rewrite (processMessage_undecoded json env msg w b err Hb). simpl.
  rewrite sendToDLQ_calls, <- app_assoc.
  destruct (sendToDLQ_frame json env (be_EventID b) (Value msg)
              ("Failed to parse base event: " ++ err)%string w)
    as (_ & _ & Hm & _).
  split_and!; [done | done |].
  intros ty st. unfold counter_value. by rewrite Hm.
Qed.

Lemma C7_undecoded_envelope_not_counted_witness :
  Unmarshal_BaseEvent samples.sample_json samples.body_garbage =
    (samples.zero_base, Some samples.syntax_error) ∧
  MessagesProcessed
    (metrics (processMessage samples.sample_json (samples.redis_up 5)
                (samples.message 0 samples.body_garbage) empty_world)) = ∅.
Proof.
  split; [reflexivity|].
  exact (proj1 (proj2 (C7_undecoded_envelope_not_counted samples.sample_json
    (samples.redis_up 5) (samples.message 0 samples.body_garbage) empty_world
    samples.zero_base samples.syntax_error eq_refl))).
Defined.

(** ** C9: the success counter, the rolling count and the rate gauge *)

(** What one firing of the ticker does to a variant's gauge and count. *)
Lemma sample_fold (gauge pc : gmap string Z) (eventType : string) :
  let r := map_fold sample_one (gauge, pc) pc in
  fst r !! eventType =
    match pc !! eventType with
    | Some count => if decide (0 < count) then Some count else gauge !! eventType
    | None => gauge !! eventType
    end ∧
  snd r !! eventType =
    match pc !! eventType with
    | Some count => if decide (0 < count) then Some 0 else Some count
    | None => None
    end.
Proof.
  simpl.
  enough (∀ m : gmap string Z,
    let r := map_fold sample_one (gauge, pc) m in
    fst r !! eventType =
      match m !! eventType with
      | Some count => if decide (0 < count) then Some count else gauge !! eventType
      | None => gauge !! eventType
      end ∧
    snd r !! eventType =
      match m !! eventType with
      | Some count => if decide (0 < count) then Some 0 else pc !! eventType
      | None => pc !! eventType
      end) as Hfold.
  { destruct (Hfold pc) as [Hg Hp]. split; [exact Hg|].
    rewrite Hp. destruct (pc !! eventType) as [count|]; [|done].
    by case_decide. }
  intros m.
  apply (map_fold_weak_ind (λ r m,
    fst r !! eventType =
      match m !! eventType with
      | Some count => if decide (0 < count) then Some count else gauge !! eventType
      | None => gauge !! eventType
      end ∧
    snd r !! eventType =
      match m !! eventType with
      | Some count => if decide (0 < count) then Some 0 else pc !! eventType
      | None => pc !! eventType
      end)).
  - by rewrite lookup_empty.
  - intros k count m' r Hk [Hg Hp]. unfold sample_one.
    destruct (decide (k = eventType)) as [->|Hne].
    + rewrite lookup_insert_eq. rewrite Hk in Hg, Hp.
      case_decide; simpl; [by rewrite !lookup_insert_eq | done].
    + rewrite lookup_insert_ne by done.
      case_decide; simpl; [by rewrite !lookup_insert_ne | done].
Qed.

Lemma count_of_positive (pc : gmap string Z) (eventType : string) :
  0 < count_of pc eventType ↔ ∃ count, pc !! eventType = Some count ∧ 0 < count.
Proof.
  unfold count_of. destruct (pc !! eventType) as [count|]; simpl.
  - split; [eauto | by intros (? & [= <-] & ?)].
  - split; [lia | by intros (? & ? & ?)].
Qed.

Lemma ticker_fires_spec (w : World) (eventType : string) :
  let w' := ticker_fires w in
  let count := count_of (processedCount w) eventType in
  (0 < count →
     MessagesProcessedPerSecond (metrics w') !! eventType = Some count ∧
     count_of (processedCount w') eventType = 0) ∧
  (¬ 0 < count →
     MessagesProcessedPerSecond (metrics w') !! eventType =
       MessagesProcessedPerSecond (metrics w) !! eventType ∧
     processedCount w' !! eventType = processedCount w !! eventType).
Proof.
  intros w' count. subst w' count. unfold ticker_fires.
  pose proof (sample_fold (MessagesProcessedPerSecond (metrics w))
                (processedCount w) eventType) as Hfold.
  destruct (map_fold sample_one _ _) as [gauge pc]. simpl in Hfold |- *.
  destruct Hfold as [Hg Hp]. split.
  - intros (count & Hc & Hpos)%count_of_positive.
    rewrite Hc in Hg, Hp. rewrite decide_True in Hg, Hp by done.
    unfold count_of. by rewrite Hg, Hp, Hc.
  - intros Hnot. unfold count_of in Hnot.
    destruct (processedCount w !! eventType) as [count|]; simpl in Hnot.
    + rewrite decide_False in Hg, Hp by done. by rewrite Hg, Hp.
    + by rewrite Hg, Hp.
Qed.

(** C9 (amended). A message processed successfully increments the success
    counter of its variant and the variant's rolling count, and leaves the
    rate gauge alone. A firing of the ticker sets the gauge of every variant
    whose rolling count is positive to that count and resets the count to
    zero; the gauge of a variant whose rolling count is not positive is not
    set and keeps the value it had. *)
Theorem C9_rate_gauge (json : Codec) (env : Env) (msg : Message)
    (w w1 : World) (b : BaseEvent) :
  Unmarshal_BaseEvent json (Value msg) = (b, None) →
  route json env msg b w = (None, w1) →
  let w' := processMessage json env msg w in
  let variant := be_EventType b in
  (counter_value (metrics w') variant "success" =
     S (counter_value (metrics w) variant "success") ∧
   count_of (processedCount w') variant =
     int_add (count_of (processedCount w) variant) 1 ∧
   (int_range (count_of (processedCount w) variant + 1) →
    count_of (processedCount w') variant =
      count_of (processedCount w) variant + 1) ∧
   MessagesProcessedPerSecond (metrics w') = MessagesProcessedPerSecond (metrics w)) ∧
  (∀ (w0 : World) (eventType : string),
     let count := count_of (processedCount w0) eventType in
     (0 < count →
        MessagesProcessedPerSecond (metrics (ticker_fires w0)) !! eventType
          = Some count ∧
        count_of (processedCount (ticker_fires w0)) eventType = 0) ∧
     (¬ 0 < count →
        MessagesProcessedPerSecond (metrics (ticker_fires w0)) !! eventType
          = MessagesProcessedPerSecond (metrics w0) !! eventType ∧
        processedCount (ticker_fires w0) !! eventType
          = processedCount w0 !! eventType)).
Proof.
  intros Hb Hroute w' variant. subst w' variant. split.
  - rewrite (processMessage_succeeded json env msg w b w1 Hb Hroute). simpl.
    pose proof (route_frame json env msg b w) as Hframe.
    rewrite Hroute in Hframe.
    destruct Hframe as (_ & Hm & Hpc & _). simpl in Hm, Hpc.
    rewrite Hm, Hpc.
    assert (count_of (<[be_EventType b :=
                        int_add (count_of (processedCount w) (be_EventType b)) 1]>
                        (processedCount w)) (be_EventType b) =
            int_add (count_of (processedCount w) (be_EventType b)) 1) as Hincr
      by (by unfold count_of at 1; rewrite lookup_insert_eq).
    split_and!; [|exact Hincr| |done].
    + unfold counter_value. simpl. by rewrite lookup_insert_eq.
    + intros Hrange. etrans; [exact Hincr|]. by apply int_add_exact.
  - intros w0 eventType. apply ticker_fires_spec.
Qed.

Lemma C9_rate_gauge_witness :
  let msg := samples.message 0 samples.body_user in
  let w' := processMessage samples.sample_json (samples.redis_up 5) msg
              empty_world in
  Unmarshal_BaseEvent samples.sample_json (Value msg) =
    (samples.base "evt-1" UserCreatedEvent, None) ∧
  fst (route samples.sample_json (samples.redis_up 5) msg
         (samples.base "evt-1" UserCreatedEvent) empty_world) = None ∧
  counter_value (metrics w') "UserCreated" "success" = 1%nat ∧
  MessagesProcessedPerSecond (metrics (ticker_fires w')) !! "UserCreated" = Some 1.
Proof.
  intros msg w'.
  pose proof (C9_rate_gauge samples.sample_json (samples.redis_up 5) msg
    empty_world _ (samples.base "evt-1" UserCreatedEvent) eq_refl
    ltac:(vm_compute; reflexivity)) as [(Hcount & _ & _ & _) Htick].
  split_and!; [reflexivity | vm_compute; reflexivity | exact Hcount |].
  apply (Htick w' "UserCreated"). vm_compute. reflexivity.
Defined.

(** C9 as stated fails after an interval without successes: one UserCreated
    message succeeds, the ticker fires and sets the gauge to 1 and the count
    to 0, nothing succeeds during the next interval, the ticker fires again,
    and the gauge still reads 1, not 0. *)
Lemma C9_counterexample :
  let delivered :=
    Poll (samples.redis_up 5) (Read_Message (samples.message 0 samples.body_user)) in
  let w1 := Start samples.sample_json [delivered; Ticker] empty_world in
  let w2 := Start samples.sample_json [delivered; Ticker; Ticker] empty_world in
  MessagesProcessedPerSecond (metrics w1) !! "UserCreated" = Some 1 ∧
  count_of (processedCount w1) "UserCreated" = 0 ∧
  MessagesProcessedPerSecond (metrics w2) !! "UserCreated" = Some 1 ∧
  MessagesProcessedPerSecond (metrics w2) !! "UserCreated" ≠ Some 0.
Proof.
  split_and!; try (vm_compute; reflexivity).
  vm_compute. intros [=].
Qed.

(** ** The primary keys are an invariant *)

Lemma UpsertUser_primary_keys now e db :
  primary_keys db → primary_keys (snd (UpsertUser now e db)).
Proof.
  intros (Hu & Ho & Hp & Hi). rewrite UpsertUser_eq.
  destruct (users_violation _ _ _ _ db); [done|].
  unfold primary_keys. simpl. split_and!; try done.
  by apply (MERGE_keys u_user_id (uc_UserID e)).
Qed.

Lemma UpsertOrder_primary_keys now e db :
  primary_keys db → primary_keys (snd (UpsertOrder now e db)).
Proof.
  intros Hpk. destruct (UpsertOrder now e db) as [[err|] db'] eqn:Hup.
  - pose proof (UpsertOrder_atomic now e db) as Hsame.
    rewrite Hup in Hsame. simpl in *. by rewrite Hsame.
  - by destruct (UpsertOrder_facts now e db db' Hpk Hup) as [? _].
Qed.

Lemma UpsertPayment_primary_keys now e db :
  primary_keys db → primary_keys (snd (UpsertPayment now e db)).
Proof.
  intros (Hu & Ho & Hp & Hi). rewrite UpsertPayment_eq.
  destruct (payments_violation _ _ _ _ _ db); [done|].
  unfold primary_keys. simpl. split_and!; try done.
  by apply (MERGE_keys p_payment_id (ps_PaymentID e)).
Qed.

Lemma UpsertInventory_primary_keys now e db :
  primary_keys db → primary_keys (snd (UpsertInventory now e db)).
Proof.
  intros (Hu & Ho & Hp & Hi). rewrite UpsertInventory_eq.
  destruct (inventory_violation _ _ db); [done|].
  unfold primary_keys. simpl. split_and!; try done.
  by apply (MERGE_keys inv_sku (ia_SKU e)).
Qed.

Lemma empty_db_primary_keys : primary_keys empty_db.
Proof. unfold primary_keys. simpl. split_and!; constructor. Qed.

Lemma route_primary_keys json env msg b w :
  primary_keys (sql w) → primary_keys (sql (snd (route json env msg b w))).
Proof.
  intros Hpk. unfold route, handleUserCreated, handleOrderPlaced,
    handlePaymentSettled, handleInventoryAdjusted.
  repeat case_decide; try done.
  - destruct (Unmarshal_UserCreated json _) as [event [err|]]; [done|].
    pose proof (UpsertUser_primary_keys (now env) event _ Hpk).
    by destruct (UpsertUser _ _ _).
  - destruct (Unmarshal_OrderPlaced json _) as [event [err|]]; [done|].
    pose proof (UpsertOrder_primary_keys (now env) event _ Hpk).
    by destruct (UpsertOrder _ _ _).
  - destruct (Unmarshal_PaymentSettled json _) as [event [err|]]; [done|].
    pose proof (UpsertPayment_primary_keys (now env) event _ Hpk).
    by destruct (UpsertPayment _ _ _).
  - destruct (Unmarshal_InventoryAdjusted json _) as [event [err|]]; [done|].
    pose proof (UpsertInventory_primary_keys (now env) event _ Hpk).
    by destruct (UpsertInventory _ _ _).
Qed.

Lemma processMessage_primary_keys json env msg w :
  primary_keys (sql w) → primary_keys (sql (processMessage json env msg w)).
Proof.
  intros Hpk.
  destruct (Unmarshal_BaseEvent json (Value msg)) as [b [e|]] eqn:Hb.
  - rewrite (processMessage_undecoded json env msg w b e Hb). simpl.
    by destruct (sendToDLQ_frame json env (be_EventID b) (Value msg)
                   ("Failed to parse base event: " ++ e)%string w) as [-> _].
  - pose proof (route_primary_keys json env msg b w Hpk) as Hpk1.
    destruct (route json env msg b w) as [[cause|] w1] eqn:Hroute.
    + rewrite (processMessage_failed json env msg w b cause w1 Hb Hroute). simpl.
      by destruct (sendToDLQ_frame json env (be_EventID b) (Value msg) cause w1)
        as [-> _].
    + by rewrite (processMessage_succeeded json env msg w b w1 Hb Hroute).
Qed.

Lemma ticker_fires_sql w : sql (ticker_fires w) = sql w.
Proof. unfold ticker_fires. by destruct (map_fold sample_one _ _). Qed.

(** Every state [Start] reaches from tables with distinct keys has tables
    with distinct keys. *)
Lemma Start_primary_keys json schedule w :
  primary_keys (sql w) → primary_keys (sql (Start json schedule w)).
Proof.
  unfold Start.
  assert (primary_keys (sql (with_processedCount ∅ w)) →
          primary_keys (sql (foldl (step json) (with_processedCount ∅ w) schedule)))
    as Hgen; [|done].
  generalize (with_processedCount ∅ w). clear w.
  induction schedule as [|s schedule IH]; intros w Hpk; [done|].
  simpl. apply IH. destruct s as [|env [msg| |err]]; simpl.
  - by rewrite ticker_fires_sql.
  - by apply processMessage_primary_keys.
  - done.
  - done.
Qed.

(** * Further properties *)

(** ** The schema is an invariant of the upserts *)

Lemma MERGE_Forall {Row : Type} (on : Row → Prop) `{!∀ r, Decision (on r)}
    (upd : Row → Row) (new : Row) (Q : Row → Prop) (l : list Row) :
  Forall Q l →
  Forall (λ r, on r → Q (upd r)) l →
  (¬ Exists on l → Q new) →
  Forall Q (MERGE on upd new l).
Proof.
  intros HQ Hupd Hnew. unfold MERGE. case_decide as Hex.
  - apply Forall_fmap. rewrite Forall_forall in HQ, Hupd |- *.
    intros r Hr. simpl. case_decide; auto.
  - apply Forall_app. split; [done|]. constructor; [auto | constructor].
Qed.

(** A MERGE on the key keeps every key of the table. *)
Lemma MERGE_Exists_key {Row : Type} (key : Row → string) (k id : string)
    (on : Row → Prop) `{!∀ r, Decision (on r)}
    (upd : Row → Row) (new : Row) (l : list Row) :
  (∀ r, key (upd r) = key r) →
  Exists (λ r, key r = id) l →
  Exists (λ r, key r = id) (MERGE on upd new l).
Proof.
  intros Hupd [r [Hr Hid]]%Exists_exists. unfold MERGE. case_decide.
  - apply Exists_fmap, Exists_exists. exists r. split; [done|]. simpl.
    case_decide; [by rewrite Hupd | done].
  - apply Exists_app. left. apply Exists_exists. eauto.
Qed.

(** A MERGE on the primary key that writes [c] into a unique column, no
    other row holding [c], keeps the column unique. *)
Lemma MERGE_unique {Row : Type} (key col : Row → string) (k c : string)
    (on : Row → Prop) `{!∀ r, Decision (on r)}
    (upd : Row → Row) (new : Row) (l : list Row) :
  (∀ r, on r ↔ key r = k) →
  (∀ r, on r → col (upd r) = c) → col new = c →
  NoDup (key <$> l) → NoDup (col <$> l) →
  ¬ Exists (λ r, ¬ on r ∧ col r = c) l →
  NoDup (col <$> MERGE on upd new l).
Proof.
  intros Hon Hupd Hnew Hkeys Hcols Hfree. unfold MERGE. case_decide as Hex.
  - clear Hex. induction l as [|r l IH]; [constructor|].
    apply NoDup_cons in Hkeys as [Hk Hkeys]. apply NoDup_cons in Hcols as [Hc Hcols].
    assert (¬ Exists (λ r, ¬ on r ∧ col r = c) l) as Hfree'
      by (intros ?; apply Hfree; by right).
    specialize (IH Hkeys Hcols Hfree'). csimpl. apply NoDup_cons. split; [|done].
    intros Hin. apply list_elem_of_fmap in Hin as [r' [Heq Hr']].
    apply list_elem_of_fmap in Hr' as [r0 [-> Hr0]].
    destruct (decide (on r)) as [Hr|Hr]; destruct (decide (on r0)) as [Hr0'|Hr0'].
    + apply Hk. apply list_elem_of_fmap. exists r0. split; [|done].
      apply Hon in Hr, Hr0'. congruence.
    + apply Hfree'. apply Exists_exists. exists r0. split; [done|].
      split; [done|]. by rewrite <- Heq, Hupd.
    + apply Hfree. left. split; [done|]. by rewrite Heq, Hupd.
    + apply Hc. apply list_elem_of_fmap. by exists r0.
  - rewrite fmap_app. csimpl. apply NoDup_app. split_and!; [done| |apply NoDup_singleton].
    intros x Hx ->%list_elem_of_singleton.
    apply list_elem_of_fmap in Hx as [r [Heq Hr]].
    apply Hfree. apply Exists_exists. exists r. split; [done|].
    split; [|congruence]. intros Hr'. apply Hex. apply Exists_exists. eauto.
Qed.

Lemma UpsertUser_schema now e db :
  schema_ok db → schema_ok (snd (UpsertUser now e db)).
Proof.
  intros (Hpk & Hmail & Hou & Hio & Hpo & Hinv).
  pose proof (UpsertUser_primary_keys now e db Hpk) as Hpk'.
  rewrite UpsertUser_eq in Hpk' |- *.
  destruct (users_violation _ _ _ _ db) eqn:Hv; [done|].
  apply users_violation_spec in Hv as (_ & _ & _ & _ & Hfree).
  unfold schema_ok. simpl in *. split_and!; try done.
  - destruct Hpk as (Hk & _).
    by apply (MERGE_unique u_user_id u_email (uc_UserID e) (uc_Email e)).
  - eapply Forall_impl; [exact Hou|]. intros o Ho. simpl in Ho.
    by apply (MERGE_Exists_key u_user_id (uc_UserID e) (o_user_id o)).
Qed.

Lemma UpsertOrder_schema now e db :
  schema_ok db → schema_ok (snd (UpsertOrder now e db)).
Proof.
  intros Hok. destruct (UpsertOrder now e db) as [[err|] db'] eqn:Hup.
  - pose proof (UpsertOrder_atomic now e db) as Hsame.
    rewrite Hup in Hsame. simpl in *. by rewrite Hsame.
  - destruct Hok as (Hpk & Hmail & Hou & Hio & Hpo & Hinv).
    destruct (UpsertOrder_facts now e db db' Hpk Hup) as [Hpk' _].
    apply UpsertOrder_ok in Hup as [Hv ->].
    apply orders_violation_spec in Hv as (_ & _ & _ & Huser).
    unfold schema_ok. simpl in *. split_and!; try done.
    + apply MERGE_Forall; [done | by apply Forall_forall | done].
    + apply Forall_app. split.
      * apply Forall_forall. intros i [_ Hi]%list_elem_of_filter.
        rewrite Forall_forall in Hio.
        by apply (MERGE_Exists_key o_order_id (op_OrderID e) (i_order_id i)),
                 Hio.
      * apply Forall_fmap, Forall_forall. intros item _. simpl.
        by apply MERGE_Exists_on.
    + eapply Forall_impl; [exact Hpo|]. intros p Hp. simpl in Hp.
      by apply (MERGE_Exists_key o_order_id (op_OrderID e) (p_order_id p)).
Qed.

Lemma UpsertPayment_schema now e db :
  schema_ok db → schema_ok (snd (UpsertPayment now e db)).
Proof.
  intros (Hpk & Hmail & Hou & Hio & Hpo & Hinv).
  pose proof (UpsertPayment_primary_keys now e db Hpk) as Hpk'.
  rewrite UpsertPayment_eq in Hpk' |- *.
  destruct (payments_violation _ _ _ _ _ db) eqn:Hv; [done|].
  apply payments_violation_spec in Hv as (_ & _ & _ & _ & _ & Horder).
  unfold schema_ok. simpl in *. split_and!; try done.
  apply MERGE_Forall; [done | by apply Forall_forall | done].
Qed.

Lemma UpsertInventory_schema now e db :
  schema_ok db → schema_ok (snd (UpsertInventory now e db)).
Proof.
  intros (Hpk & Hmail & Hou & Hio & Hpo & Hinv).
  pose proof (UpsertInventory_primary_keys now e db Hpk) as Hpk'.
  rewrite UpsertInventory_eq in Hpk' |- *.
  destruct (inventory_violation _ _ db) eqn:Hv; [done|].
  apply inventory_violation_spec in Hv as (_ & Hnew & Hupd).
  unfold schema_ok. simpl in *. split_and!; try done.
  apply MERGE_Forall; [done | done |]. intros Hno. by destruct Hnew.
Qed.

(** X1. Each of the four upserts keeps the schema: from tables with distinct
    primary keys, unique e-mail addresses, resolved foreign keys and stock
    quantities within INT, it leaves such tables, whether it succeeds or
    fails. *)
Theorem X1_upserts_keep_schema (now : Z) (db : DB) :
  schema_ok db →
  (∀ e, schema_ok (snd (UpsertUser now e db))) ∧
  (∀ e, schema_ok (snd (UpsertOrder now e db))) ∧
  (∀ e, schema_ok (snd (UpsertPayment now e db))) ∧
  (∀ e, schema_ok (snd (UpsertInventory now e db))).
Proof.
  intros Hok. split_and!; intros e.
  - by apply UpsertUser_schema.
  - by apply UpsertOrder_schema.
  - by apply UpsertPayment_schema.
  - by apply UpsertInventory_schema.
Qed.

Lemma X1_upserts_keep_schema_witness :
  schema_ok samples.with_order ∧
  schema_ok (snd (UpsertPayment 10 samples.payment1 samples.with_order)) ∧
  schema_ok (snd (UpsertUser 10 samples.alice_again samples.with_order)).
Proof.
  assert (schema_ok samples.with_order) as Hok
    by (apply (bool_decide_unpack _); vm_compute; exact I).
  pose proof (X1_upserts_keep_schema 10 samples.with_order Hok)
    as (Hu & _ & Hp & _).
  split_and!; [exact Hok | apply Hp | apply Hu].
Defined.

(** ** What the consumer keeps of the tables *)

Section Consumer_invariant.

Context (json : Codec) (Inv : DB → Prop).

Hypothesis UpsertUser_Inv :
  ∀ now e db, Inv db → Inv (snd (UpsertUser now e db)).
Hypothesis UpsertOrder_Inv :
  ∀ now e db, Inv db → Inv (snd (UpsertOrder now e db)).
Hypothesis UpsertPayment_Inv :
  ∀ now e db, Inv db → Inv (snd (UpsertPayment now e db)).
Hypothesis UpsertInventory_Inv :
  ∀ now e db, Inv db → Inv (snd (UpsertInventory now e db)).

Lemma route_Inv env msg b w :
  Inv (sql w) → Inv (sql (snd (route json env msg b w))).
Proof.
  intros HI. unfold route, handleUserCreated, handleOrderPlaced,
    handlePaymentSettled, handleInventoryAdjusted.
  repeat case_decide; try done.
  - destruct (Unmarshal_UserCreated json _) as [event [err|]]; [done|].
    pose proof (UpsertUser_Inv (now env) event _ HI).
    by destruct (UpsertUser _ _ _).
  - destruct (Unmarshal_OrderPlaced json _) as [event [err|]]; [done|].
    pose proof (UpsertOrder_Inv (now env) event _ HI).
    by destruct (UpsertOrder _ _ _).
  - destruct (Unmarshal_PaymentSettled json _) as [event [err|]]; [done|].
    pose proof (UpsertPayment_Inv (now env) event _ HI).
    by destruct (UpsertPayment _ _ _).
  - destruct (Unmarshal_InventoryAdjusted json _) as [event [err|]]; [done|].
    pose proof (UpsertInventory_Inv (now env) event _ HI).
    by destruct (UpsertInventory _ _ _).
Qed.

Lemma processMessage_sql env msg w :
  ∃ b, sql (processMessage json env msg w) = sql w ∨
       sql (processMessage json env msg w) = sql (snd (route json env msg b w)).
Proof.
  destruct (Unmarshal_BaseEvent json (Value msg)) as [b [e|]] eqn:Hb; exists b.
  - left. rewrite (processMessage_undecoded json env msg w b e Hb). simpl.
    by destruct (sendToDLQ_frame json env (be_EventID b) (Value msg)
                   ("Failed to parse base event: " ++ e)%string w) as [-> _].
  - right. destruct (route json env msg b w) as [[cause|] w1] eqn:Hroute.
    + rewrite (processMessage_failed json env msg w b cause w1 Hb Hroute). simpl.
      by destruct (sendToDLQ_frame json env (be_EventID b) (Value msg) cause w1)
        as [-> _].
    + by rewrite (processMessage_succeeded json env msg w b w1 Hb Hroute).
Qed.

Lemma processMessage_Inv env msg w :
  Inv (sql w) → Inv (sql (processMessage json env msg w)).
Proof.
  intros HI. destruct (processMessage_sql env msg w) as [b [-> | ->]]; [done|].
  by apply route_Inv.
Qed.

Lemma Start_Inv schedule w :
  Inv (sql w) → Inv (sql (Start json schedule w)).
Proof.
  unfold Start.
  assert (Inv (sql (with_processedCount ∅ w)) →
          Inv (sql (foldl (step json) (with_processedCount ∅ w) schedule)))
    as Hgen; [|done].
  generalize (with_processedCount ∅ w). clear w.
  induction schedule as [|s schedule IH]; intros w HI; [done|].
  simpl. apply IH. destruct s as [|env [msg| |err]]; simpl.
  - by rewrite ticker_fires_sql.
  - by apply processMessage_Inv.
  - done.
  - done.
Qed.

End Consumer_invariant.

(** X2. Whatever the consumer reads, in whatever interleaving with its
    ticker, and whatever the decoder and the Failure Sink do, the tables
    keep the schema: distinct primary keys, unique e-mail addresses,
    resolved foreign keys, stock quantities within INT. The empty tables
    have it. *)
Theorem X2_consumer_keeps_schema (json : Codec) (schedule : list Step)
    (w : World) :
  schema_ok (sql w) →
  schema_ok (sql (Start json schedule w)) ∧ schema_ok empty_db.
Proof.
  intros Hok. split.
  - apply Start_Inv; auto using UpsertUser_schema, UpsertOrder_schema,
      UpsertPayment_schema, UpsertInventory_schema.
  - apply (bool_decide_unpack _). vm_compute. exact I.
Qed.

Lemma X2_consumer_keeps_schema_witness :
  schema_ok (sql empty_world) ∧
  schema_ok
    (sql (Start samples.sample_json
            [Poll (samples.redis_up 5)
               (Read_Message (samples.message 0 samples.body_user));
             Ticker;
             Poll (samples.redis_down 6)
               (Read_Message (samples.message 1 samples.body_garbage))]
            empty_world)).
Proof.
  assert (schema_ok (sql empty_world)) as Hok
    by (apply (bool_decide_unpack _); vm_compute; exact I).
  split; [exact Hok|].
  exact (proj1 (X2_consumer_keeps_schema samples.sample_json _ empty_world Hok)).
Defined.

(** ** A diverted message writes nothing *)

Lemma UpsertUser_atomic now e db :
  fst (UpsertUser now e db) ≠ None → snd (UpsertUser now e db) = db.
Proof. rewrite UpsertUser_eq. by destruct (users_violation _ _ _ _ db). Qed.

Lemma UpsertPayment_atomic now e db :
  fst (UpsertPayment now e db) ≠ None → snd (UpsertPayment now e db) = db.
Proof. rewrite UpsertPayment_eq. by destruct (payments_violation _ _ _ _ _ db). Qed.

Lemma UpsertInventory_atomic now e db :
  fst (UpsertInventory now e db) ≠ None → snd (UpsertInventory now e db) = db.
Proof. rewrite UpsertInventory_eq. by destruct (inventory_violation _ _ db). Qed.

Lemma route_failed_sql json env msg b w cause w1 :
  route json env msg b w = (Some cause, w1) → sql w1 = sql w.
Proof.
  unfold route, handleUserCreated, handleOrderPlaced,
    handlePaymentSettled, handleInventoryAdjusted.
  repeat case_decide.
  - destruct (Unmarshal_UserCreated json _) as [event [err|]];
      [by intros [= _ <-]|].
    pose proof (UpsertUser_atomic (now env) event (sql w)) as Hat.
    destruct (UpsertUser _ _ _) as [err db]. intros [= -> <-]. simpl in *.
    by apply Hat.
  - destruct (Unmarshal_OrderPlaced json _) as [event [err|]];
      [by intros [= _ <-]|].
    pose proof (UpsertOrder_atomic (now env) event (sql w)) as Hat.
    destruct (UpsertOrder _ _ _) as [err db]. intros [= -> <-]. simpl in *.
    by apply Hat.
  - destruct (Unmarshal_PaymentSettled json _) as [event [err|]];
      [by intros [= _ <-]|].
    pose proof (UpsertPayment_atomic (now env) event (sql w)) as Hat.
    destruct (UpsertPayment _ _ _) as [err db]. intros [= -> <-]. simpl in *.
    by apply Hat.
  - destruct (Unmarshal_InventoryAdjusted json _) as [event [err|]];
      [by intros [= _ <-]|].
    pose proof (UpsertInventory_atomic (now env) event (sql w)) as Hat.
    destruct (UpsertInventory _ _ _) as [err db]. intros [= -> <-]. simpl in *.
    by apply Hat.
  - by intros [= _ <-].
Qed.

(** The calls of [processMessage]: those of the disposition, then the
    commit. *)
Lemma processMessage_calls json env msg w :
  ∃ disposition,
    calls (processMessage json env msg w) =
      calls w ++ disposition ++ [Call_CommitMessage msg] ∧
    Forall (λ c, is_commit c = false) disposition ∧
    (Exists (λ c, is_push c = true) disposition →
     sql (processMessage json env msg w) = sql w).
Proof.
  destruct (Unmarshal_BaseEvent json (Value msg)) as [b [e|]] eqn:Hb.
  - rewrite (processMessage_undecoded json env msg w b e Hb). simpl.
    rewrite sendToDLQ_calls, <- app_assoc.
    eexists. split_and!; [done | by repeat constructor |]. intros _.
    by destruct (sendToDLQ_frame json env (be_EventID b) (Value msg)
                   ("Failed to parse base event: " ++ e)%string w) as [-> _].
  - destruct (route json env msg b w) as [err w1] eqn:Hroute.
    pose proof (route_frame json env msg b w) as Hframe.
    rewrite Hroute in Hframe.
    destruct Hframe as (_ & _ & _ & upserts & Hcalls & Hups). simpl in Hcalls.
    assert (Forall (λ c, is_commit c = false) upserts) as Hnc.
    { eapply Forall_impl; [exact Hups|]. by intros []. }
    destruct err as [cause|].
    + rewrite (processMessage_failed json env msg w b cause w1 Hb Hroute). simpl.
      rewrite sendToDLQ_calls, Hcalls, <- !app_assoc.
      exists (upserts ++ [Call_Push (be_EventID b) (Value msg) cause]).
      rewrite <- app_assoc. split_and!; [done| |].
      * apply Forall_app. split; [done | by repeat constructor].
      * intros _.
        destruct (sendToDLQ_frame json env (be_EventID b) (Value msg) cause w1)
          as [-> _].
        by eapply route_failed_sql.
    + rewrite (processMessage_succeeded json env msg w b w1 Hb Hroute). simpl.
      rewrite Hcalls, <- app_assoc. exists upserts. split_and!; [done..|].
      intros [c [Hc Hpush]]%Exists_exists. rewrite Forall_forall in Hups.
      specialize (Hups c Hc). by destruct c.
Qed.

(** X3. A message that processMessage diverts to the Failure Sink, for
    whatever reason (undecodable, unknown variant, rejected by the store),
    leaves the tables exactly as they were: when a push is among its calls,
    no row of any table has changed, not even for an order whose line items
    were partly inserted before the failure. *)
Theorem X3_diverted_writes_nothing (json : Codec) (env : Env) (msg : Message)
    (w : World) (made : list Call) :
  calls (processMessage json env msg w) = calls w ++ made →
  Exists (λ c, is_push c = true) made →
  sql (processMessage json env msg w) = sql w.
Proof.
  intros Hmade Hpush.
  destruct (processMessage_calls json env msg w) as (disp & Hcalls & _ & Hsql).
  rewrite Hcalls in Hmade. apply app_inv_head in Hmade. subst made.
  apply Hsql. apply Exists_app in Hpush as [?|Hlast]; [done|].
  apply Exists_cons in Hlast as [Hlast|Hnil]; [done | by apply Exists_nil in Hnil].
Qed.

Lemma X3_diverted_writes_nothing_witness :
  let msg := samples.message 0 examples.body_order_too_big in
  let w' := processMessage examples.json (samples.redis_up 5) msg
              examples.alice_world in
  calls w' =
    calls examples.alice_world ++
      [Call_UpsertOrder examples.order_too_big;
       Call_Push "evt-8" examples.body_order_too_big
         "failed to insert order item: Arithmetic overflow error converting expression to data type int, column order_items.quantity";
       Call_CommitMessage msg] ∧
  sql w' = samples.with_alice.
Proof.
  intros msg w'. split; [vm_compute; reflexivity|].
  refine (X3_diverted_writes_nothing examples.json (samples.redis_up 5) msg
            examples.alice_world _ _ _).
  - vm_compute. reflexivity.
  - right. left. reflexivity.
Defined.

(** ** Dispatch of a decodable message *)

Lemma route_dispatched json env msg b c upsert w :
  dispatched json (Value msg) b c upsert →
  route json env msg b w =
    (fst (upsert (now env) (sql w)),
     with_sql (snd (upsert (now env) (sql w))) (call c w)).
Proof.
  unfold route.
  destruct 1 as [b ev Hb Hty Hev|b ev Hb Hty Hev|b ev Hb Hty Hev|b ev Hb Hty Hev].
  - rewrite decide_True by done.
    unfold handleUserCreated. rewrite Hev. by destruct (UpsertUser _ _ _).
  - rewrite Hty. rewrite decide_False by done. rewrite decide_True by done.
    unfold handleOrderPlaced. rewrite Hev. by destruct (UpsertOrder _ _ _).
  - rewrite Hty. rewrite !decide_False by done. rewrite decide_True by done.
    unfold handlePaymentSettled. rewrite Hev. by destruct (UpsertPayment _ _ _).
  - rewrite Hty. rewrite !decide_False by done. rewrite decide_True by done.
    unfold handleInventoryAdjusted. rewrite Hev.
    by destruct (UpsertInventory _ _ _).
Qed.

Lemma dispatched_envelope json data b c upsert :
  dispatched json data b c upsert → Unmarshal_BaseEvent json data = (b, None).
Proof. by destruct 1. Qed.

Lemma processMessage_dispatched json env msg w b c upsert :
  dispatched json (Value msg) b c upsert →
  let w' := processMessage json env msg w in
  let err := fst (upsert (now env) (sql w)) in
  sql w' = snd (upsert (now env) (sql w)) ∧
  calls w' =
    calls w ++ [c] ++
      match err with
      | Some cause => [Call_Push (be_EventID b) (Value msg) cause]
      | None => []
      end ++ [Call_CommitMessage msg] ∧
  counter_value (metrics w') (be_EventType b)
      (match err with Some _ => "error" | None => "success" end) =
    S (counter_value (metrics w) (be_EventType b)
         (match err with Some _ => "error" | None => "success" end)) ∧
  (err = None → redis w' = redis w ∧ DLQCount (metrics w') = DLQCount (metrics w)).
Proof.
  intros Hd w' err. subst w' err.
  pose proof (dispatched_envelope _ _ _ _ _ Hd) as Hb.
  pose proof (route_dispatched json env msg b c upsert w Hd) as Hroute.
  destruct (upsert (now env) (sql w)) as [[cause|] db]; cbn [fst snd] in *.
  - rewrite (processMessage_failed json env msg w b cause _ Hb Hroute). simpl.
    rewrite sendToDLQ_calls. simpl. rewrite <- !app_assoc. simpl.
    destruct (sendToDLQ_frame json env (be_EventID b) (Value msg) cause
                (with_sql db (call c w))) as (-> & _ & Hm & _).
    split_and!; [done | done | | done].
    unfold counter_value. simpl. rewrite lookup_insert_eq. simpl.
    unfold counter_value. by rewrite Hm.
  - rewrite (processMessage_succeeded json env msg w b _ Hb Hroute). simpl.
    rewrite <- !app_assoc. simpl. split_and!; [done | done | | done].
    unfold counter_value. simpl. by rewrite lookup_insert_eq.
Qed.

(** X4. A message that decodes, as the envelope and as the payload of the
    variant it names, is dispatched to that variant's upsert exactly once,
    with the decoded event and the clock reading: the tables are what the
    upsert leaves. When the upsert fails its error text is pushed to the
    Failure Sink with the message body and the error counter of the variant
    is incremented; when it succeeds nothing is pushed, the sink and its
    counter are untouched and the success counter is incremented. The
    commit is the last call either way. *)
Theorem X4_dispatch (json : Codec) (env : Env) (msg : Message) (w : World)
    (b : BaseEvent) (c : Call) (upsert : Z → DB → option string * DB) :
  dispatched json (Value msg) b c upsert →
  let w' := processMessage json env msg w in
  let err := fst (upsert (now env) (sql w)) in
  sql w' = snd (upsert (now env) (sql w)) ∧
  calls w' =
    calls w ++ [c] ++
      match err with
      | Some cause => [Call_Push (be_EventID b) (Value msg) cause]
      | None => []
      end ++ [Call_CommitMessage msg] ∧
  counter_value (metrics w') (be_EventType b)
      (match err with Some _ => "error" | None => "success" end) =
    S (counter_value (metrics w) (be_EventType b)
         (match err with Some _ => "error" | None => "success" end)) ∧
  (err = None → redis w' = redis w ∧ DLQCount (metrics w') = DLQCount (metrics w)).
Proof. apply processMessage_dispatched. Qed.

Lemma X4_dispatch_witness :
  let msg := samples.message 3 examples.body_payment in
  let w' := processMessage examples.json (samples.redis_up 5) msg
              examples.alice_world in
  dispatched examples.json (Value msg) (samples.base "evt-4" PaymentSettledEvent)
    (Call_UpsertPayment samples.payment1)
    (λ now, UpsertPayment now samples.payment1) ∧
  sql w' = samples.with_alice ∧
  calls w' =
    [Call_UpsertPayment samples.payment1;
     Call_Push "evt-4" examples.body_payment
       "failed to upsert payment: The statement conflicted with the FOREIGN KEY constraint payments.order_id";
     Call_CommitMessage msg].
Proof.
  intros msg w'.
  assert (dispatched examples.json (Value msg)
            (samples.base "evt-4" PaymentSettledEvent)
            (Call_UpsertPayment samples.payment1)
            (λ now, UpsertPayment now samples.payment1)) as Hd
    by (by apply dispatched_PaymentSettled).
  pose proof (X4_dispatch examples.json (samples.redis_up 5) msg
                examples.alice_world _ _ _ Hd) as (Hsql & Hcalls & _).
  split_and!; [exact Hd | exact Hsql | exact Hcalls].
Defined.

(** ** Redelivery of InventoryAdjusted accumulates *)

Lemma deliver_inventory ts : ∀ e db errs db',
  deliver UpsertInventory ts e db = (errs, db') →
  Forall (λ err, err = None) errs →
  ts ≠ [] →
  stored_quantity (ia_SKU e) db' =
    Some (default 0 (stored_quantity (ia_SKU e) db)
          + Z.of_nat (length ts) * inventory_delta e) ∧
  ∀ sku, sku ≠ ia_SKU e → stored_quantity sku db' = stored_quantity sku db.
Proof.
  induction ts as [|t ts IH]; intros e db errs db' Hrun Hok Hne; [done|].
  simpl in Hrun.
  destruct (UpsertInventory t e db) as [err db1] eqn:Hup.
  destruct (deliver UpsertInventory ts e db1) as [errs' db2] eqn:Hrest.
  injection Hrun as <- <-. apply Forall_cons in Hok as [-> Hok].
  destruct (UpsertInventory_stored t e db db1 Hup) as [Hone Hothers].
  destruct ts as [|t' ts'].
  - simpl in Hrest. injection Hrest as <- <-. split; [|done].
    rewrite Hone. f_equal. destruct (stored_quantity (ia_SKU e) db); simpl; lia.
  - destruct (IH e db1 errs' db2 Hrest Hok ltac:(done)) as [Hsku Hother].
    split.
    + rewrite Hsku, Hone. f_equal. simpl length.
      destruct (stored_quantity (ia_SKU e) db); simpl default; lia.
    + intros sku Hsku'. by rewrite Hother, Hothers.
Qed.

(** X5. UpsertInventory is not idempotent: N successful deliveries of the
    same InventoryAdjusted event, N >= 1, leave the quantity that was stored
    for the SKU (0 when it had no row) plus N times the event's delta; the
    quantities of other SKUs are as they were. *)
Theorem X5_inventory_accumulates (t : Z) (ts : list Z) (e : InventoryAdjusted)
    (db db' : DB) (errs : list (option string)) :
  deliver UpsertInventory (t :: ts) e db = (errs, db') →
  Forall (λ err, err = None) errs →
  stored_quantity (ia_SKU e) db' =
    Some (default 0 (stored_quantity (ia_SKU e) db)
          + Z.of_nat (S (length ts)) * inventory_delta e) ∧
  ∀ sku, sku ≠ ia_SKU e → stored_quantity sku db' = stored_quantity sku db.
Proof. intros Hrun Hok. by apply (deliver_inventory (t :: ts) e db errs db'). Qed.

Lemma X5_inventory_accumulates_witness :
  fst (deliver UpsertInventory [7; 8; 9] samples.returned_X (samples.stock "X" 10))
    = [None; None; None] ∧
  stored_quantity "X"
    (snd (deliver UpsertInventory [7; 8; 9] samples.returned_X
            (samples.stock "X" 10)))
    = Some (10 + 3 * -50).
Proof.
  split; [vm_compute; reflexivity|].
  refine (proj1 (X5_inventory_accumulates 7 [8; 9] samples.returned_X
                   (samples.stock "X" 10) _ [None; None; None] _ _)).
  - vm_compute. reflexivity.
  - repeat constructor.
Defined.

(** ** Redelivery of OrderPlaced *)

Lemma order_items_violation_spec p1 p2 p3 db :
  order_items_violation p1 p2 p3 db = None ↔
  varchar 36 p1 ∧ varchar 50 p2 ∧ sql_int p3 ∧ Exists (orders_on p1) (orders db).
Proof. unfold order_items_violation. violation_spec. Qed.

Lemma insert_items_fit (oid : string) (items : list OrderItem) (db : DB) :
  Exists (orders_on oid) (orders db) →
  is_Some (match tx_range
             (λ item,
                ExecContext "failed to insert order item"
                  (order_items_insert oid (oi_SKU item) (oi_Quantity item)
                     (oi_Price item)))
             items db with
           | inl _ => None
           | inr db' => Some db'
           end) ↔ items_fit oid items.
Proof.
  intros Hex. revert db Hex. unfold items_fit.
  induction items as [|item items IH]; intros db Hex; simpl.
  - split; [constructor | by eexists].
  - unfold tx_then, ExecContext at 1, order_items_insert.
    destruct (order_items_violation oid (oi_SKU item) (oi_Quantity item) db)
      as [v|] eqn:Hv.
    + split; [by intros [? [=]]|]. intros [Hfit _]%Forall_cons.
      assert (order_items_violation oid (oi_SKU item) (oi_Quantity item) db
              = None) as Hnone.
      { apply order_items_violation_spec. destruct Hfit as (? & ? & ?).
        by split_and!. }
      congruence.
    + apply order_items_violation_spec in Hv as (? & ? & ? & _).
      rewrite IH by done. rewrite Forall_cons. tauto.
Qed.

Lemma UpsertOrder_succeeds now e db :
  fst (UpsertOrder now e db) = None ↔
  orders_violation (op_OrderID e) (op_UserID e) (op_Currency e) db = None ∧
  items_fit (op_OrderID e) (op_Items e).
Proof.
  unfold UpsertOrder, tx_then, ExecContext at 1 2, orders_merge,
    order_items_delete.
  destruct (orders_violation _ _ _ db) as [v|]; [by split; [|intros []]|].
  match goal with |- context [tx_range ?f ?l ?d] =>
    pose proof (insert_items_fit (op_OrderID e) l d) as Hfit;
    destruct (tx_range f l d) as [err|db2] end.
  - simpl in Hfit. split; [done|]. intros [_ Hitems].
    apply Hfit in Hitems; [by destruct Hitems | by apply MERGE_Exists_on].
  - simpl. split; [|done]. intros _. split; [done|].
    apply Hfit; [by apply MERGE_Exists_on | by eexists].
Qed.

Lemma UpsertOrder_clock t t' e db :
  fst (UpsertOrder t e db) = None → fst (UpsertOrder t' e db) = None.
Proof. by rewrite !UpsertOrder_succeeds. Qed.

Lemma UpsertOrder_result now e db :
  fst (UpsertOrder now e db) = None →
  snd (UpsertOrder now e db) =
    set_order_items
      (filter (λ r, ¬ order_items_on (op_OrderID e) r) (order_items db) ++
       (item_row (op_OrderID e) <$> op_Items e))
      (set_orders
         (MERGE (orders_on (op_OrderID e))
            (orders_matched (op_UserID e) (op_TotalAmount e) (op_Currency e) now)
            (order_row e (op_PlacedAt e) now)
            (orders db)) db).
Proof.
  intros Hok. destruct (UpsertOrder now e db) as [err db'] eqn:Hup.
  simpl in Hok. subst err. by apply UpsertOrder_ok in Hup as [_ ->].
Qed.

Lemma UpsertOrder_again t t' e db :
  fst (UpsertOrder t e db) = None →
  UpsertOrder t' e (snd (UpsertOrder t e db)) = UpsertOrder t' e db.
Proof.
  intros Hok.
  pose proof (UpsertOrder_clock t t' e db Hok) as Hok'.
  assert (fst (UpsertOrder t' e (snd (UpsertOrder t e db))) = None) as Hok2.
  { apply UpsertOrder_succeeds. apply UpsertOrder_succeeds in Hok as [Hv Hfit].
    split; [|done]. rewrite UpsertOrder_result by (by apply UpsertOrder_succeeds).
    apply orders_violation_spec in Hv as (_ & ? & ? & ?).
    apply orders_violation_spec. simpl. split_and!; try done.
    left. by apply MERGE_Exists_on. }
  apply injective_projections; [by rewrite Hok2, Hok'|].
  rewrite (UpsertOrder_result t' e db Hok').
  rewrite (UpsertOrder_result t' e _ Hok2).
  rewrite (UpsertOrder_result t e db Hok). unfold set_order_items, set_orders.
  simpl. f_equal.
  - by apply MERGE_MERGE.
  - f_equal. rewrite filter_app, (filter_none _ (_ <$> _)), app_nil_r.
    + apply filter_all, Forall_forall. by intros r [Hr _]%list_elem_of_filter.
    + apply Forall_fmap, Forall_forall. intros item _ Hne. by apply Hne.
Qed.

(** X6. UpsertOrder is idempotent up to updated_at: once it has succeeded
    with an event, N invocations in all with that same event succeed every
    time and leave the tables that a single invocation at the last clock
    reading leaves, with as many line-item rows for the order id as the
    event has items. *)
Theorem X6_order_redelivery (t : Z) (ts : list Z) (e : OrderPlaced) (db : DB) :
  fst (UpsertOrder t e db) = None →
  deliver UpsertOrder (t :: ts) e db =
    (replicate (S (length ts)) None,
     snd (UpsertOrder (default t (last ts)) e db)) ∧
  length (filter (order_items_on (op_OrderID e))
            (order_items (snd (deliver UpsertOrder (t :: ts) e db)))) =
    length (op_Items e).
Proof.
  intros Hok.
  rewrite (deliver_last UpsertOrder UpsertOrder_clock UpsertOrder_again) by done.
  split; [done|]. cbn [snd].
  rewrite UpsertOrder_result by (by eapply UpsertOrder_clock). simpl.
  rewrite filter_app, filter_none, filter_all.
  - simpl. by rewrite length_fmap.
  - apply Forall_fmap, Forall_forall. by intros item _.
  - apply Forall_forall. intros r [Hr _]%list_elem_of_filter. by intros ?.
Qed.

Lemma X6_order_redelivery_witness :
  fst (UpsertOrder 10 samples.order1 samples.with_alice) = None ∧
  deliver UpsertOrder [10; 20; 30] samples.order1 samples.with_alice =
    ([None; None; None], snd (UpsertOrder 30 samples.order1 samples.with_alice)) ∧
  length (order_items
            (snd (deliver UpsertOrder [10; 20; 30] samples.order1
                    samples.with_alice))) = 2%nat.
Proof.
  split_and!; [vm_compute; reflexivity | | vm_compute; reflexivity].
  refine (proj1 (X6_order_redelivery 10 [20; 30] samples.order1
                   samples.with_alice _)).
  vm_compute. reflexivity.
Defined.

(** ** The queries of the read API *)

Import queries.

Lemma placed_at_desc_trans : Transitive placed_at_desc.
Proof. unfold placed_at_desc. intros a b c. lia. Qed.

Lemma placed_at_desc_total : Total placed_at_desc.
Proof. unfold placed_at_desc. intros a b. lia. Qed.

Lemma created_at_desc_trans : Transitive created_at_desc.
Proof. unfold created_at_desc. intros a b c. lia. Qed.

Lemma created_at_desc_total : Total created_at_desc.
Proof. unfold created_at_desc. intros a b. lia. Qed.

(** The first [n] rows of a sorted table: they are sorted, they are rows of
    the table, there are [n] of them unless the table is shorter, and every
    row left out comes after each of them. *)
Lemma take_sorted {A : Type} (R : relation A) `{!∀ x y, Decision (R x y)}
    (Htrans : Transitive R) (Htotal : Total R) (n : nat) (l : list A) :
  let top := take n (merge_sort R l) in
  StronglySorted R top ∧
  length top = (n `min` length l)%nat ∧
  (∀ x, x ∈ top → x ∈ l) ∧
  (∀ x, x ∈ l → x ∈ top ∨ ∀ y, y ∈ top → R y x).
Proof.
  intros top. subst top.
  pose proof (StronglySorted_merge_sort R l) as Hsorted.
  pose proof (merge_sort_Permutation R l) as Hperm.
  rewrite <- (take_drop n (merge_sort R l)) in Hsorted.
  split_and!.
  - by eapply StronglySorted_app_1_l.
  - by rewrite length_take, Hperm.
  - intros x Hx. rewrite <- Hperm.
    rewrite <- (take_drop n (merge_sort R l)). apply elem_of_app. by left.
  - intros x Hx. rewrite <- Hperm, <- (take_drop n (merge_sort R l)) in Hx.
    apply elem_of_app in Hx as [Hx|Hx]; [by left|]. right. intros y Hy.
    by eapply StronglySorted_app_1_elem_of.
Qed.

(** The rows [TOP n] leaves out, with those it returns, are the rows
    selected; none of them comes before a row returned. *)
Lemma take_sorted_rest {A : Type} (R : relation A) `{!∀ x y, Decision (R x y)}
    (Htrans : Transitive R) (Htotal : Total R) (n : nat) (l : list A) :
  let top := take n (merge_sort R l) in
  let rest := drop n (merge_sort R l) in
  top ++ rest ≡ₚ l ∧ ∀ x y, x ∈ rest → y ∈ top → R y x.
Proof.
  intros top rest. subst top rest.
  pose proof (StronglySorted_merge_sort R l) as Hsorted.
  rewrite <- (take_drop n (merge_sort R l)) in Hsorted.
  split.
  - rewrite take_drop. apply merge_sort_Permutation.
  - intros x y Hx Hy. by eapply StronglySorted_app_1_elem_of.
Qed.

Lemma NoDup_top {A B : Type} `{!EqDecision B} (f : A → B)
    (top rest l : list A) :
  top ++ rest ≡ₚ l → NoDup (f <$> l) → NoDup (f <$> top).
Proof.
  intros Hperm Hl. rewrite <- Hperm, fmap_app in Hl.
  by apply NoDup_app in Hl as [? _].
Qed.

Lemma NoDup_fmap_filter {A B : Type} (f : A → B) (P : A → Prop)
    `{!∀ x, Decision (P x)} (l : list A) :
  NoDup (f <$> l) → NoDup (f <$> filter P l).
Proof.
  induction l as [|x l IH]; [done|]. csimpl. intros [Hx Hl]%NoDup_cons.
  destruct (decide (P x)).
  - rewrite filter_cons_True by done. csimpl. apply NoDup_cons. split; [|auto].
    intros [y [Hy Hin]]%list_elem_of_fmap. apply Hx, list_elem_of_fmap.
    exists y. split; [done|]. by apply list_elem_of_filter in Hin as [_ ?].
  - rewrite filter_cons_False by done. auto.
Qed.

Lemma StronglySorted_fmap {A B : Type} (R : relation A) (R' : relation B)
    (f : A → B) (l : list A) :
  (∀ a b, R a b → R' (f a) (f b)) →
  StronglySorted R l → StronglySorted R' (f <$> l).
Proof.
  intros Hf. induction 1 as [|r l Hl IH Hall]; csimpl; constructor; [done|].
  apply Forall_fmap. eapply Forall_impl; [exact Hall|]. intros r'. apply Hf.
Qed.

Lemma GetUserWithOrders_found userID db u :
  head (filter (users_on userID) (users db)) = Some u →
  GetUserWithOrders userID db =
    inr {| uwo_UserID := u_user_id u; uwo_Email := u_email u;
           uwo_FirstName := u_first_name u; uwo_LastName := u_last_name u;
           uwo_CreatedAt := u_created_at u; uwo_UpdatedAt := u_updated_at u;
           uwo_Orders := scan_order <$> last_orders userID db |}.
Proof. unfold GetUserWithOrders. by intros ->. Qed.

(** X7. GetUserWithOrders fails, with "user not found", exactly when no row
    of users has the id; a user who has no order is returned with an empty
    list of orders, not an error. *)
Theorem X7_user_not_found (userID : string) (db : DB) :
  (GetUserWithOrders userID db = inl "user not found" ↔
   ¬ Exists (users_on userID) (users db)) ∧
  (Exists (users_on userID) (users db) →
   ∃ u, GetUserWithOrders userID db = inr u ∧ uwo_UserID u = userID ∧
        (¬ Exists (λ o, o_user_id o = userID) (orders db) → uwo_Orders u = [])).
Proof.
  unfold GetUserWithOrders.
  destruct (head (filter (users_on userID) (users db))) as [u|] eqn:Hhead.
  - assert (u ∈ filter (users_on userID) (users db)) as Hin
      by (by apply head_Some_elem_of).
    apply list_elem_of_filter in Hin as [Hu Hin].
    assert (Exists (users_on userID) (users db)) as Hex
      by (apply Exists_exists; eauto).
    split; [by split|]. intros _. eexists. split_and!; [done | done |].
    intros Hno. simpl. unfold last_orders.
    by rewrite (filter_unmatched (λ o, o_user_id o = userID)).
  - apply head_None in Hhead. split.
    + split; [|done]. intros _ Hex.
      by apply (filter_matched (users_on userID)) in Hex.
    + intros Hex. by apply (filter_matched (users_on userID)) in Hex.
Qed.

Lemma X7_user_not_found_witness :
  Exists (users_on "u-1") (users samples.with_alice) ∧
  (∃ u, GetUserWithOrders "u-1" samples.with_alice = inr u ∧
        uwo_UserID u = "u-1" ∧ uwo_Orders u = []) ∧
  GetUserWithOrders "u-9" samples.with_alice = inl "user not found".
Proof.
  assert (Exists (users_on "u-1") (users samples.with_alice)) as Hex
    by (by left).
  split_and!; [exact Hex | |].
  - destruct (proj2 (X7_user_not_found "u-1" samples.with_alice) Hex)
      as (u & Hu & Hid & Hnone).
    exists u. split_and!; [exact Hu | exact Hid |].
    apply Hnone. intros Hbad. by apply Exists_nil in Hbad.
  - apply (proj1 (X7_user_not_found "u-9" samples.with_alice)).
    intros Hbad. apply Exists_cons in Hbad as [Hbad|Hbad]; [discriminate Hbad|].
    by apply Exists_nil in Hbad.
Defined.

(** X8. The orders GetUserWithOrders returns are orders of that user, read
    from rows of the table, newest first; there are five of them, or all of
    the user's orders when there are fewer; and every order of the user that
    is left out was placed no later than each order returned. They are read
    from different rows: the rows returned and the rows left out are, taken
    together, the user's orders, each as often as the table has it; so a
    user with five orders or fewer gets every one of them, and with distinct
    primary keys no order id is returned twice. *)
Theorem X8_last_five_orders (userID : string) (db : DB) (u : UserWithOrders) :
  GetUserWithOrders userID db = inr u →
  let mine := filter (λ o, o_user_id o = userID) (orders db) in
  length (uwo_Orders u) = (5 `min` length mine)%nat ∧
  Forall (λ o, ord_UserID o = userID ∧
               ∃ r, r ∈ orders db ∧ o = scan_order r) (uwo_Orders u) ∧
  StronglySorted (λ a b, (ord_PlacedAt b ≤ ord_PlacedAt a)%Z) (uwo_Orders u) ∧
  (∀ r, r ∈ mine →
        scan_order r ∈ uwo_Orders u ∨
        ∀ o, o ∈ uwo_Orders u → (o_placed_at r ≤ ord_PlacedAt o)%Z) ∧
  (∃ rows rest,
     uwo_Orders u = scan_order <$> rows ∧ rows ++ rest ≡ₚ mine ∧
     ∀ r o, r ∈ rest → o ∈ rows → (o_placed_at r ≤ o_placed_at o)%Z) ∧
  ((length mine ≤ 5)%nat → uwo_Orders u ≡ₚ scan_order <$> mine) ∧
  (primary_keys db → NoDup (ord_OrderID <$> uwo_Orders u)).
Proof.
  unfold GetUserWithOrders.
  destruct (head (filter (users_on userID) (users db))) as [row|]; [|done].
  intros [= <-]. simpl. unfold last_orders.
  set (mine := filter (λ o, o_user_id o = userID) (orders db)).
  destruct (take_sorted placed_at_desc placed_at_desc_trans
              placed_at_desc_total 5 mine) as (Hsorted & Hlen & Hsub & Htop).
  destruct (take_sorted_rest placed_at_desc placed_at_desc_trans
              placed_at_desc_total 5 mine) as (Hperm & Hrest).
  split_and!.
  - by rewrite length_fmap.
  - apply Forall_fmap, Forall_forall. intros r Hr. simpl.
    apply Hsub in Hr. apply list_elem_of_filter in Hr as [Hmine Hr]. eauto.
  - eapply StronglySorted_fmap; [|exact Hsorted]. by intros a b.
  - intros r Hr. destruct (Htop r Hr) as [Hin|Hlater].
    + left. apply list_elem_of_fmap. eauto.
    + right. intros o [r' [-> Hr']]%list_elem_of_fmap. by apply Hlater.
  - exists (take 5 (merge_sort placed_at_desc mine)),
           (drop 5 (merge_sort placed_at_desc mine)).
    split_and!; [done | exact Hperm |]. intros r o Hr Ho. by apply Hrest.
  - intros Hfew. rewrite take_ge.
    + by rewrite merge_sort_Permutation.
    + by rewrite merge_sort_Permutation.
  - intros (_ & Hpk & _). rewrite <- list_fmap_compose.
    apply (NoDup_top (ord_OrderID ∘ scan_order) _ _ _ Hperm).
    by apply (NoDup_fmap_filter o_order_id).
Qed.

Lemma X8_last_five_orders_witness :
  ∃ u, GetUserWithOrders "u-1" examples.seven_orders = inr u ∧
       primary_keys examples.seven_orders ∧
       ord_OrderID <$> uwo_Orders u = ["b"; "d"; "f"; "e"; "a"] ∧
       length (uwo_Orders u) = 5%nat ∧
       NoDup (ord_OrderID <$> uwo_Orders u).
Proof.
  assert (primary_keys examples.seven_orders) as Hpk
    by (apply (bool_decide_unpack _); vm_compute; exact I).
  eexists. split; [vm_compute; reflexivity|]. split; [exact Hpk|].
  split; [vm_compute; reflexivity|].
  match goal with |- length (uwo_Orders ?u) = _ ∧ _ =>
    pose proof (X8_last_five_orders "u-1" examples.seven_orders u eq_refl)
      as (Hlen & _ & _ & _ & _ & _ & Hnodup)
  end.
  split; [exact Hlen | exact (Hnodup Hpk)].
Defined.

Lemma GetUserWithOrders_upserted now e db :
  primary_keys db →
  fst (UpsertUser now e db) = None →
  GetUserWithOrders (uc_UserID e) (snd (UpsertUser now e db)) =
    inr {| uwo_UserID := uc_UserID e;
           uwo_Email := uc_Email e;
           uwo_FirstName := uc_FirstName e;
           uwo_LastName := uc_LastName e;
           uwo_CreatedAt :=
             default (uc_CreatedAt e)
               (u_created_at <$>
                  head (filter (users_on (uc_UserID e)) (users db)));
           uwo_UpdatedAt := now;
           uwo_Orders := scan_order <$> last_orders (uc_UserID e) db |}.
Proof.
  intros Hpk Hok.
  pose proof (UpsertUser_row now e db Hpk Hok) as Hrow.
  erewrite GetUserWithOrders_found; [|rewrite Hrow; reflexivity]. simpl.
  do 2 f_equal. unfold last_orders.
  rewrite UpsertUser_eq. by destruct (users_violation _ _ _ _ db).
Qed.

(** X9. What UpsertUser stores, GetUserWithOrders reads back: after a
    successful upsert the user of the event's id is found, with the event's
    e-mail address and names, the clock reading as updated_at and, as
    created_at, the event's creation time when the upsert inserted the row
    and the row's own otherwise; the orders returned are those returned
    before the upsert. *)
Theorem X9_upsert_then_get_user (now : Z) (e : UserCreated) (db : DB) :
  primary_keys db →
  fst (UpsertUser now e db) = None →
  GetUserWithOrders (uc_UserID e) (snd (UpsertUser now e db)) =
    inr {| uwo_UserID := uc_UserID e;
           uwo_Email := uc_Email e;
           uwo_FirstName := uc_FirstName e;
           uwo_LastName := uc_LastName e;
           uwo_CreatedAt :=
             default (uc_CreatedAt e)
               (u_created_at <$>
                  head (filter (users_on (uc_UserID e)) (users db)));
           uwo_UpdatedAt := now;
           uwo_Orders := scan_order <$> last_orders (uc_UserID e) db |}.
Proof. apply GetUserWithOrders_upserted. Qed.

Lemma X9_upsert_then_get_user_witness :
  primary_keys samples.with_alice ∧
  fst (UpsertUser 10 samples.alice_again samples.with_alice) = None ∧
  GetUserWithOrders "u-1"
    (snd (UpsertUser 10 samples.alice_again samples.with_alice)) =
    inr {| uwo_UserID := "u-1"; uwo_Email := "alice@example.org";
           uwo_FirstName := "Alice"; uwo_LastName := "Roe";
           uwo_CreatedAt := 500; uwo_UpdatedAt := 10; uwo_Orders := [] |}.
Proof.
  assert (primary_keys samples.with_alice) as Hpk
    by (apply (bool_decide_unpack _); vm_compute; exact I).
  split_and!; [exact Hpk | vm_compute; reflexivity |].
  exact (X9_upsert_then_get_user 10 samples.alice_again samples.with_alice
           Hpk eq_refl).
Defined.

Lemma filter_ext_in {A : Type} (P Q : A → Prop) `{!∀ x, Decision (P x)}
    `{!∀ x, Decision (Q x)} (l : list A) :
  Forall (λ x, P x ↔ Q x) l → filter P l = filter Q l.
Proof.
  induction 1 as [|x l Hx _ IH]; [done|].
  destruct (decide (P x)) as [HP|HP].
  - rewrite (filter_cons_True P), (filter_cons_True Q), IH; [done | | done].
    by apply Hx.
  - rewrite (filter_cons_False P), (filter_cons_False Q); [done | | done].
    intros HQ. by apply HP, Hx.
Qed.

Lemma MERGE_Forall_off {Row : Type} (on : Row → Prop) `{!∀ r, Decision (on r)}
    (upd : Row → Row) (new : Row) (Q : Row → Prop) (l : list Row) :
  Forall (λ r, ¬ on r → Q r) l →
  Forall (λ r, on r → Q (upd r)) l →
  (¬ Exists on l → Q new) →
  Forall Q (MERGE on upd new l).
Proof.
  intros HQ Hupd Hnew. unfold MERGE. case_decide as Hex.
  - apply Forall_fmap. rewrite Forall_forall in HQ, Hupd |- *.
    intros r Hr. simpl. case_decide; auto.
  - apply Forall_app. split; [|constructor; [auto | constructor]].
    rewrite Forall_forall in HQ |- *. intros r Hr. apply HQ; [done|].
    intros Hon. apply Hex. apply Exists_exists. eauto.
Qed.

Lemma GetOrderWithPayment_found orderID db o :
  head (filter (orders_on orderID) (orders db)) = Some o →
  GetOrderWithPayment orderID db =
    inr {| owp_OrderID := o_order_id o; owp_UserID := o_user_id o;
           owp_TotalAmount := o_total_amount o; owp_Currency := o_currency o;
           owp_PlacedAt := o_placed_at o; owp_UpdatedAt := o_updated_at o;
           owp_Payment :=
             scan_payment <$>
               head (filter (λ p, p_order_id p = o_order_id o) (payments db)) |}.
Proof. unfold GetOrderWithPayment. by intros ->. Qed.

(** X10. What UpsertOrder and UpsertPayment store, GetOrderWithPayment reads
    back. After a successful UpsertOrder the order of the event's id is
    found with the event's user, amount and currency, and with the payment
    it had, if any. After a successful UpsertPayment on an order that had
    no payment under another payment id, the order is found with that
    payment: the event's payment id, amount, method, status and settlement
    time. An id that no order has gives "order not found". *)
Theorem X10_upsert_then_get_order (now : Z) (db : DB) :
  primary_keys db →
  (∀ e : OrderPlaced,
     fst (UpsertOrder now e db) = None →
     ∃ o, GetOrderWithPayment (op_OrderID e) (snd (UpsertOrder now e db)) = inr o ∧
          owp_OrderID o = op_OrderID e ∧ owp_UserID o = op_UserID e ∧
          owp_TotalAmount o = op_TotalAmount e ∧
          owp_Currency o = op_Currency e ∧ owp_UpdatedAt o = now ∧
          owp_Payment o =
            scan_payment <$>
              head (filter (λ p, p_order_id p = op_OrderID e) (payments db))) ∧
  (∀ e : PaymentSettled,
     fst (UpsertPayment now e db) = None →
     Forall (λ p, p_order_id p = ps_OrderID e → p_payment_id p = ps_PaymentID e)
       (payments db) →
     ∃ o, GetOrderWithPayment (ps_OrderID e) (snd (UpsertPayment now e db)) = inr o ∧
          owp_Payment o =
            Some {| pay_PaymentID := ps_PaymentID e;
                    pay_Amount := ps_Amount e;
                    pay_PaymentMethod := ps_PaymentMethod e;
                    pay_Status := ps_Status e;
                    pay_SettledAt := ps_SettledAt e |}) ∧
  (∀ orderID,
     ¬ Exists (orders_on orderID) (orders db) →
     GetOrderWithPayment orderID db = inl "order not found").
Proof.
  intros Hpk. split_and!.
  - intros e Hok.
    destruct (UpsertOrder now e db) as [err db'] eqn:Hup. simpl in Hok. subst err.
    destruct (UpsertOrder_facts now e db db' Hpk Hup) as (_ & Hrow & _).
    apply UpsertOrder_ok in Hup as [_ Hdb']. simpl.
    erewrite GetOrderWithPayment_found; [|rewrite Hrow; reflexivity].
    eexists. split; [reflexivity|]. simpl. split_and!; try done.
    by rewrite Hdb'.
  - intros e Hok Hfree. apply UpsertPayment_ok in Hok.
    rewrite UpsertPayment_eq, Hok. simpl.
    apply payments_violation_spec in Hok as (_ & _ & _ & _ & _ & Hex).
    destruct (head (filter (orders_on (ps_OrderID e)) (orders db)))
      as [o|] eqn:Hhead; [|by apply head_None, filter_matched in Hhead].
    assert (o ∈ filter (orders_on (ps_OrderID e)) (orders db)) as Hin
      by (by apply head_Some_elem_of).
    apply list_elem_of_filter in Hin as [Ho _].
    erewrite GetOrderWithPayment_found; [|exact Hhead].
    eexists. split; [reflexivity|]. simpl. rewrite Ho.
    erewrite (filter_ext_in _ (payments_on (ps_PaymentID e))).
    + rewrite MERGE_filter_on by done.
      destruct (filter (payments_on (ps_PaymentID e)) (payments db))
        as [|p ps] eqn:Hf; [done|].
      assert (p ∈ filter (payments_on (ps_PaymentID e)) (payments db)) as Hp
        by (rewrite Hf; left).
      apply list_elem_of_filter in Hp as [Hp _]. simpl.
      unfold scan_payment. simpl. by rewrite Hp.
    + apply MERGE_Forall_off.
      * eapply Forall_impl; [exact Hfree|]. intros p Hp Hoff. simpl.
        split; [done|]. by intros Hon.
      * by apply Forall_forall.
      * done.
  - intros orderID Hno. unfold GetOrderWithPayment.
    by rewrite (filter_unmatched (orders_on orderID)).
Qed.

Lemma X10_upsert_then_get_order_witness :
  primary_keys samples.with_order ∧
  fst (UpsertPayment 10 samples.payment1 samples.with_order) = None ∧
  (∃ o, GetOrderWithPayment "o-1"
          (snd (UpsertPayment 10 samples.payment1 samples.with_order)) = inr o ∧
        owp_Payment o =
          Some {| pay_PaymentID := "p-1"; pay_Amount := 320;
                  pay_PaymentMethod := "credit_card";
                  pay_Status := "completed"; pay_SettledAt := 920 |}) ∧
  GetOrderWithPayment "o-9" samples.with_order = inl "order not found".
Proof.
  assert (primary_keys samples.with_order) as Hpk
    by (apply (bool_decide_unpack _); vm_compute; exact I).
  pose proof (X10_upsert_then_get_order 10 samples.with_order Hpk)
    as (_ & Hpay & Hmiss).
  split_and!; [exact Hpk | vm_compute; reflexivity | |].
  - apply (Hpay samples.payment1); [vm_compute; reflexivity | constructor].
  - apply Hmiss. intros Hbad.
    apply Exists_cons in Hbad as [Hbad|Hbad]; [discriminate Hbad|].
    by apply Exists_nil in Hbad.
Defined.

(** X11. GetRecentUsers reads from rows of users, newest first, as many as
    the limit allows, or all of them when there are fewer: a limit from 1 to
    100 is the number of users returned when the table has that many; a
    limit below 1 or above 100 stands for 5, so that never more than 100
    users are returned. The users are read from different rows: the rows
    returned and the rows left out are, taken together, the rows of the
    table, and no row left out was created after a row returned; with
    distinct primary keys no user id is returned twice. *)
Theorem X11_recent_users (limit : Z) (db : DB) :
  let n := Z.to_nat (recent_limit limit) in
  (1 ≤ recent_limit limit ≤ 100)%Z ∧
  ((limit ≤ 0 ∨ 100 < limit)%Z → GetRecentUsers limit db = GetRecentUsers 5 db) ∧
  length (GetRecentUsers limit db) = (n `min` length (users db))%nat ∧
  (length (GetRecentUsers limit db) ≤ 100)%nat ∧
  Forall (λ s, ∃ r, r ∈ users db ∧ s = scan_user r) (GetRecentUsers limit db) ∧
  StronglySorted (λ a b, (us_CreatedAt b ≤ us_CreatedAt a)%Z)
    (GetRecentUsers limit db) ∧
  ((1 ≤ limit ≤ 100)%Z →
   length (GetRecentUsers limit db) =
     (Z.to_nat limit `min` length (users db))%nat) ∧
  ((limit ≤ 0 ∨ 100 < limit)%Z →
   length (GetRecentUsers limit db) = (5 `min` length (users db))%nat) ∧
  (∃ rows rest,
     GetRecentUsers limit db = scan_user <$> rows ∧
     rows ++ rest ≡ₚ users db ∧
     ∀ r o, r ∈ rest → o ∈ rows → (u_created_at r ≤ u_created_at o)%Z) ∧
  (primary_keys db → NoDup (us_UserID <$> GetRecentUsers limit db)).
Proof.
  intros n. subst n. unfold GetRecentUsers.
  destruct (take_sorted created_at_desc created_at_desc_trans
              created_at_desc_total (Z.to_nat (recent_limit limit)) (users db))
    as (Hsorted & Hlen & Hsub & _).
  destruct (take_sorted_rest created_at_desc created_at_desc_trans
              created_at_desc_total (Z.to_nat (recent_limit limit)) (users db))
    as (Hperm & Hrest).
  assert (1 ≤ recent_limit limit ≤ 100)%Z as Hrange
    by (unfold recent_limit; case_decide; lia).
  split; [exact Hrange|]. split_and!.
  - intros Hout. unfold recent_limit. rewrite decide_True by done.
    by rewrite decide_False by lia.
  - by rewrite length_fmap.
  - rewrite length_fmap, Hlen. lia.
  - apply Forall_fmap, Forall_forall. intros r Hr. simpl. eauto.
  - eapply StronglySorted_fmap; [|exact Hsorted]. by intros a b.
  - intros Hin. rewrite length_fmap, Hlen. unfold recent_limit.
    by rewrite decide_False by lia.
  - intros Hout. rewrite length_fmap, Hlen. unfold recent_limit.
    by rewrite decide_True by done.
  - exists (take (Z.to_nat (recent_limit limit))
              (merge_sort created_at_desc (users db))),
           (drop (Z.to_nat (recent_limit limit))
              (merge_sort created_at_desc (users db))).
    split_and!; [done | exact Hperm |]. intros r o Hr Ho. by apply Hrest.
  - intros (Hpk & _). rewrite <- list_fmap_compose.
    by apply (NoDup_top (us_UserID ∘ scan_user) _ _ _ Hperm).
Qed.

(** ** The handlers of the read API *)

(** X12. GET /users/{id} and GET /orders/{id} answer 404, with the text
    "user not found" or "order not found" and a newline, exactly when no
    row has the id; otherwise they answer 200 with the JSON content type and
    the value the query returns. *)
Theorem X12_status_codes (id : string) (db : DB) :
  (¬ Exists (users_on id) (users db) →
   api.getUser id db =
     {| api.StatusCode := 404; api.ContentType := "text/plain; charset=utf-8";
        api.Body := inl ("user not found" ++ api.newline)%string |}) ∧
  (Exists (users_on id) (users db) →
   api.StatusCode (api.getUser id db) = 200 ∧
   api.ContentType (api.getUser id db) = "application/json" ∧
   ∃ u, api.Body (api.getUser id db) = inr u ∧
        GetUserWithOrders id db = inr u) ∧
  (¬ Exists (orders_on id) (orders db) →
   api.getOrder id db =
     {| api.StatusCode := 404; api.ContentType := "text/plain; charset=utf-8";
        api.Body := inl ("order not found" ++ api.newline)%string |}) ∧
  (Exists (orders_on id) (orders db) →
   api.StatusCode (api.getOrder id db) = 200 ∧
   api.ContentType (api.getOrder id db) = "application/json" ∧
   ∃ o, api.Body (api.getOrder id db) = inr o ∧
        GetOrderWithPayment id db = inr o).
Proof.
  unfold api.getUser, api.getOrder, GetUserWithOrders, GetOrderWithPayment.
  split_and!.
  - intros Hno. by rewrite (filter_unmatched (users_on id)).
  - intros Hex. apply (filter_matched (users_on id)) in Hex.
    destruct (filter (users_on id) (users db)); [done|]. simpl. eauto.
  - intros Hno. by rewrite (filter_unmatched (orders_on id)).
  - intros Hex. apply (filter_matched (orders_on id)) in Hex.
    destruct (filter (orders_on id) (orders db)); [done|]. simpl. eauto.
Qed.

Lemma X12_status_codes_witness :
  ¬ Exists (users_on "o-1") (users samples.with_order) ∧
  api.StatusCode (api.getUser "o-1" samples.with_order) = 404 ∧
  Exists (orders_on "o-1") (orders samples.with_order) ∧
  api.StatusCode (api.getOrder "o-1" samples.with_order) = 200.
Proof.
  assert (¬ Exists (users_on "o-1") (users samples.with_order)) as Hno.
  { intros Hbad. apply Exists_cons in Hbad as [Hbad|Hbad]; [discriminate Hbad|].
    by apply Exists_nil in Hbad. }
  assert (Exists (orders_on "o-1") (orders samples.with_order)) as Hex
    by (by left).
  pose proof (X12_status_codes "o-1" samples.with_order)
    as (Hu404 & _ & _ & Ho200).
  split_and!; [exact Hno | | exact Hex | exact (proj1 (Ho200 Hex))].
  by rewrite (Hu404 Hno).
Defined.

(** X13. From the topic to the read API: when a message decodes as a
    UserCreated event and the upsert succeeds, GET /users/{id} for the
    event's user id then answers 200 with the event's e-mail address and
    names. *)
Theorem X13_consumed_user_is_served (json : Codec) (env : Env) (msg : Message)
    (w : World) (b : BaseEvent) (e : UserCreated) :
  primary_keys (sql w) →
  dispatched json (Value msg) b (Call_UpsertUser e) (λ now, UpsertUser now e) →
  fst (UpsertUser (now env) e (sql w)) = None →
  let answer := api.getUser (uc_UserID e) (sql (processMessage json env msg w)) in
  api.StatusCode answer = 200 ∧
  ∃ u, api.Body answer = inr u ∧
       uwo_UserID u = uc_UserID e ∧ uwo_Email u = uc_Email e ∧
       uwo_FirstName u = uc_FirstName e ∧ uwo_LastName u = uc_LastName e ∧
       uwo_UpdatedAt u = now env.
Proof.
  intros Hpk Hd Hok answer. subst answer.
  destruct (processMessage_dispatched json env msg w b _ _ Hd) as (-> & _).
  unfold api.getUser.
  rewrite (GetUserWithOrders_upserted (now env) e (sql w) Hpk Hok). simpl.
  split; [done|]. eexists. split; [reflexivity|]. done.
Qed.

Lemma X13_consumed_user_is_served_witness :
  let msg := samples.message 0 samples.body_user in
  let w' := processMessage examples.json (samples.redis_up 5) msg empty_world in
  primary_keys (sql empty_world) ∧
  fst (UpsertUser 5 samples.alice (sql empty_world)) = None ∧
  api.StatusCode (api.getUser "u-1" (sql w')) = 200.
Proof.
  intros msg w'.
  assert (primary_keys (sql empty_world)) as Hpk
    by (apply (bool_decide_unpack _); vm_compute; exact I).
  assert (dispatched examples.json (Value msg)
            (samples.base "evt-1" UserCreatedEvent)
            (Call_UpsertUser samples.alice)
            (λ now, UpsertUser now samples.alice)) as Hd
    by (by apply dispatched_UserCreated).
  split_and!; [exact Hpk | vm_compute; reflexivity |].
  exact (proj1 (X13_consumed_user_is_served examples.json (samples.redis_up 5)
                  msg empty_world _ samples.alice Hpk Hd eq_refl)).
Defined.

Lemma X11_recent_users_witness :
  (0 ≤ 0 ∨ 100 < 0)%Z ∧
  GetRecentUsers 0 samples.with_alice = GetRecentUsers 5 samples.with_alice ∧
  length (GetRecentUsers 0 samples.with_alice) = 1%nat ∧
  (1 ≤ 1 ≤ 100)%Z ∧
  length (users examples.with_bob) = 2%nat ∧
  length (GetRecentUsers 1 examples.with_bob) = 1%nat ∧
  us_UserID <$> GetRecentUsers 1 examples.with_bob = ["u-2"] ∧
  us_UserID <$> GetRecentUsers 2 examples.with_bob = ["u-2"; "u-1"].
Proof.
  assert (0 ≤ 0 ∨ 100 < 0)%Z as Hout by (left; lia).
  assert (1 ≤ 1 ≤ 100)%Z as Hin by lia.
  split; [exact Hout|].
  split; [exact (proj1 (proj2 (X11_recent_users 0 samples.with_alice)) Hout)|].
  split; [vm_compute; reflexivity|].
  split; [exact Hin|].
  split; [reflexivity|].
  split; [|split; vm_compute; reflexivity].
  destruct (X11_recent_users 1 examples.with_bob)
    as (_ & _ & _ & _ & _ & _ & Hhonoured & _).
  exact (Hhonoured Hin).
Defined.

(** ** The dead-letter queue: push, count and range *)

Lemma LRange_all {A : Type} (l : list A) : dlq_read.LRange l 0 (-1) = l.
Proof.
  unfold dlq_read.LRange. cbv zeta.
  destruct (decide (0 < 0)%Z) as [?|_]; [lia|].
  destruct (decide (-1 < 0)%Z) as [_|?]; [|lia].
  case_decide as Hlt.
  - destruct l; [done | simpl length in Hlt; lia].
  - change (Z.to_nat 0) with 0%nat. rewrite drop_0, take_ge; [done|]. lia.
Qed.

Lemma LRange_last {A : Type} (l : list A) (x : A) :
  dlq_read.LRange (l ++ [x]) (-1) (-1) = [x].
Proof.
  unfold dlq_read.LRange. cbv zeta.
  destruct (decide (-1 < 0)%Z) as [_|?]; [|lia].
  rewrite length_app. simpl length.
  rewrite decide_False by lia.
  replace (Z.to_nat (Z.max 0 (Z.of_nat (length l + 1) + -1))) with (length l)
    by lia.
  rewrite drop_app_length.
  replace (Z.to_nat _) with 1%nat by lia. done.
Qed.

Lemma LRange_length {A : Type} (l : list A) (start stop : Z) :
  (length (dlq_read.LRange l start stop) ≤ length l)%nat.
Proof.
  unfold dlq_read.LRange. case_decide; [simpl; lia|].
  rewrite length_take, length_drop. lia.
Qed.

Lemma omap_length_le {A B : Type} (f : A → option B) (l : list A) :
  (length (omap f l) ≤ length l)%nat.
Proof.
  induction l as [|x l IH]; csimpl; [done|].
  destruct (f x); simpl; lia.
Qed.

(** The loop of [GetEntries]: the elements that decode, in order. *)
Lemma GetEntries_loop (json : Codec) (results : list string)
    (acc : list DLQEntry) :
  foldl
    (λ (entries : list DLQEntry) (result : string),
       match Unmarshal_DLQEntry json result with
       | (_, Some _) => entries
       | (entry, None) => entries ++ [entry]
       end)
    acc results =
  acc ++ omap (λ result,
                 match Unmarshal_DLQEntry json result with
                 | (_, Some _) => None
                 | (entry, None) => Some entry
                 end) results.
Proof.
  revert acc. induction results as [|result results IH]; intros acc; simpl.
  - by rewrite app_nil_r.
  - rewrite IH. destruct (Unmarshal_DLQEntry json result) as [entry [err|]];
      [done|]. by rewrite <- app_assoc.
Qed.

(** Elements that all decode are all returned, as what they decode to. *)
Lemma GetEntries_decoded (json : Codec) (results : list string)
    (entries : list DLQEntry) :
  Forall2 (λ result entry, Unmarshal_DLQEntry json result = (entry, None))
    results entries →
  omap (λ result,
          match Unmarshal_DLQEntry json result with
          | (_, Some _) => None
          | (entry, None) => Some entry
          end) results = entries.
Proof.
  induction 1 as [|result entry results entries Hentry _ IH]; [done|].
  csimpl. by rewrite Hentry, IH.
Qed.

(** X14. The Failure Sink is a queue that is read back as it was written.
    Push returns nil exactly when the record is encoded and the store
    accepts the RPUSH. It then adds one to GetCount and to
    dlq_entries_total and puts the encoding of the record, with retry count
    0 and the clock reading, at the tail: when the record decodes as it was
    encoded, GetEntries(-1, -1) returns exactly that record and, when the
    elements queued before decode too, GetEntries(0, -1) the whole queue in
    push order. A push that fails changes neither the queue nor the
    counter. GetEntries never returns more entries than GetCount counts,
    whatever the range and the decoder. *)
Theorem X14_push_count_range (json : Codec) (env : Env)
    (eventID originalData errorMsg : string) (w : World) :
  let err := fst (dlq.Push json env eventID originalData errorMsg w) in
  let w' := snd (dlq.Push json env eventID originalData errorMsg w) in
  let record := failure_record env eventID originalData errorMsg in
  let encoded := fst (Marshal_DLQEntry json record) in
  (err = None ↔
     snd (Marshal_DLQEntry json record) = None ∧ RPush_err env = None) ∧
  (err = None →
     redis w' = redis w ++ [encoded] ∧
     dlq.GetCount w' = dlq.GetCount w + 1 ∧
     DLQCount (metrics w') = S (DLQCount (metrics w)) ∧
     (Unmarshal_DLQEntry json encoded = (record, None) →
      dlq_read.GetEntries json (-1) (-1) w' = [record] ∧
      ∀ entries,
        Forall2 (λ result entry,
                   Unmarshal_DLQEntry json result = (entry, None))
          (redis w) entries →
        dlq_read.GetEntries json 0 (-1) w' = entries ++ [record])) ∧
  (err ≠ None → redis w' = redis w ∧ DLQCount (metrics w') = DLQCount (metrics w)) ∧
  ∀ start stop,
    (Z.of_nat (length (dlq_read.GetEntries json start stop w')) ≤ dlq.GetCount w')%Z.
Proof.
  intros err w' record encoded. subst err w' encoded record.
  unfold dlq.Push, dlq.GetCount, failure_record.
  split_and!.
  - destruct (Marshal_DLQEntry json _) as [encoded [e|]]; simpl.
    + split; [done|]. by intros [? _].
    + destruct (RPush_err env); simpl; [|done].
      split; [done|]. by intros [_ ?].
  - destruct (Marshal_DLQEntry json _) as [encoded [e|]]; [done|].
    destruct (RPush_err env); [done|]. intros _. simpl. split_and!.
    + done.
    + rewrite length_app. simpl. lia.
    + done.
    + intros Hround. unfold dlq_read.GetEntries. cbv zeta.
      rewrite !GetEntries_loop, !app_nil_l.
      cbn [redis with_metrics with_redis call].
      rewrite LRange_last, LRange_all.
      split.
      * apply GetEntries_decoded. by repeat constructor.
      * intros entries Hqueue.
        apply GetEntries_decoded, Forall2_app; [done|].
        by repeat constructor.
  - destruct (Marshal_DLQEntry json _) as [encoded [e|]]; [done|].
    by destruct (RPush_err env).
  - intros start stop.
    match goal with |- context [dlq_read.GetEntries json start stop ?x] =>
      generalize x end.
    intros w0. unfold dlq_read.GetEntries. rewrite GetEntries_loop. simpl.
    pose proof (LRange_length (redis w0) start stop) as Hlen.
    pose proof (omap_length_le
      (λ result, match Unmarshal_DLQEntry json result with
                 | (_, Some _) => None
                 | (entry, None) => Some entry
                 end)
      (dlq_read.LRange (redis w0) start stop))
      as Hle.
    lia.
Qed.

Lemma X14_push_count_range_witness :
  let record := failure_record (samples.redis_up 5) "evt-6"
                  samples.body_unknown "unknown event type: UserDeleted" in
  let w' := snd (dlq.Push examples.json (samples.redis_up 5) "evt-6"
                   samples.body_unknown "unknown event type: UserDeleted"
                   empty_world) in
  Unmarshal_DLQEntry examples.json
    (fst (Marshal_DLQEntry examples.json record)) = (record, None) ∧
  dlq.GetCount w' = 1 ∧
  dlq_read.GetEntries examples.json (-1) (-1) w' = [record] ∧
  dlq_read.GetEntries examples.json 0 (-1) w' = [record].
Proof.
  intros record w'.
  assert (Unmarshal_DLQEntry examples.json
            (fst (Marshal_DLQEntry examples.json record)) = (record, None))
    as Hround by reflexivity.
  pose proof (X14_push_count_range examples.json (samples.redis_up 5)
                "evt-6" samples.body_unknown "unknown event type: UserDeleted"
                empty_world) as (Hiff & Hok & _).
  destruct (Hok (proj2 Hiff (conj eq_refl eq_refl)))
    as (_ & Hcount & _ & Hrange).
  destruct (Hrange Hround) as (Hlast & Hall).
  split_and!; [exact Hround | exact Hcount | exact Hlast |].
  apply (Hall []). constructor.
Defined.

(** ** The poll loop as a whole *)

Lemma ticker_fires_frame w :
  calls (ticker_fires w) = calls w ∧ redis (ticker_fires w) = redis w ∧
  DLQCount (metrics (ticker_fires w)) = DLQCount (metrics w) ∧
  MessagesProcessed (metrics (ticker_fires w)) = MessagesProcessed (metrics w).
Proof. unfold ticker_fires. by destruct (map_fold sample_one _ _). Qed.

Lemma filter_commits disposition c :
  Forall (λ c, is_commit c = false) disposition →
  is_commit c = true →
  filter (λ c, is_commit c = true) (disposition ++ [c]) = [c].
Proof.
  intros Hnone Hc. rewrite filter_app, filter_none, filter_cons_True; [done..|].
  eapply Forall_impl; [exact Hnone|]. intros c' Hc'. simpl in Hc'. congruence.
Qed.

Lemma step_commits json w s :
  filter (λ c, is_commit c = true) (calls (step json w s)) =
    filter (λ c, is_commit c = true) (calls w) ++
      (Call_CommitMessage <$> delivered [s]).
Proof.
  destruct s as [|env [msg| |err]]; simpl.
  - destruct (ticker_fires_frame w) as [-> _]. by rewrite app_nil_r.
  - destruct (processMessage_calls json env msg w) as (disp & -> & Hnone & _).
    rewrite filter_app. f_equal. by apply filter_commits.
  - by rewrite app_nil_r.
  - by rewrite app_nil_r.
Qed.

Lemma delivered_cons s schedule :
  delivered (s :: schedule) = delivered [s] ++ delivered schedule.
Proof. unfold delivered. simpl. by destruct s as [|env [msg| |err]]. Qed.

Lemma foldl_step_commits json schedule : ∀ w,
  filter (λ c, is_commit c = true) (calls (foldl (step json) w schedule)) =
    filter (λ c, is_commit c = true) (calls w) ++
      (Call_CommitMessage <$> delivered schedule).
Proof.
  induction schedule as [|s schedule IH]; intros w.
  - simpl. by rewrite app_nil_r.
  - simpl foldl. rewrite IH, step_commits, (delivered_cons s schedule).
    by rewrite fmap_app, app_assoc.
Qed.

(** X15. Start commits every message it reads, once, in the order read:
    the commits among its calls are those made before, followed by one
    commit per delivered message in delivery order. Polls that time out or
    fail and firings of the ticker commit nothing. *)
Theorem X15_commits_in_order (json : Codec) (schedule : list Step) (w : World) :
  filter (λ c, is_commit c = true) (calls (Start json schedule w)) =
    filter (λ c, is_commit c = true) (calls w) ++
      (Call_CommitMessage <$> delivered schedule).
Proof. unfold Start. by rewrite foldl_step_commits. Qed.

Lemma sendToDLQ_queue json env eventID data cause w :
  ∃ added,
    redis (sendToDLQ json env eventID data cause w) = redis w ++ added ∧
    DLQCount (metrics (sendToDLQ json env eventID data cause w)) =
      (DLQCount (metrics w) + length added)%nat ∧
    Forall (λ data, ∃ entry, Marshal_DLQEntry json entry = (data, None) ∧
                        dlq_RetryCount entry = 0) added ∧
    (length added ≤ 1)%nat.
Proof.
  unfold sendToDLQ, dlq.Push.
  destruct (Marshal_DLQEntry json _) as [encoded [e|]] eqn:Hencoded; simpl;
    [|destruct (RPush_err env); simpl].
  - exists []. rewrite app_nil_r. split_and!; [done | simpl; lia | done | simpl; lia].
  - exists []. rewrite app_nil_r. split_and!; [done | simpl; lia | done | simpl; lia].
  - exists [encoded]. split_and!; [done | simpl; lia | | done].
    constructor; [|done]. by eexists.
Qed.

Lemma processMessage_queue json env msg w :
  ∃ added,
    redis (processMessage json env msg w) = redis w ++ added ∧
    DLQCount (metrics (processMessage json env msg w)) =
      (DLQCount (metrics w) + length added)%nat ∧
    Forall (λ data, ∃ entry, Marshal_DLQEntry json entry = (data, None) ∧
                        dlq_RetryCount entry = 0) added ∧
    (length added ≤ 1)%nat.
Proof.
  destruct (Unmarshal_BaseEvent json (Value msg)) as [b [e|]] eqn:Hb.
  - rewrite (processMessage_undecoded json env msg w b e Hb). simpl.
    apply sendToDLQ_queue.
  - destruct (route json env msg b w) as [err w1] eqn:Hroute.
    pose proof (route_frame json env msg b w) as Hframe.
    rewrite Hroute in Hframe. destruct Hframe as (Hr & Hm & _). simpl in Hr, Hm.
    destruct err as [cause|].
    + rewrite (processMessage_failed json env msg w b cause w1 Hb Hroute). simpl.
      rewrite <- Hr, <- Hm. apply sendToDLQ_queue.
    + rewrite (processMessage_succeeded json env msg w b w1 Hb Hroute). simpl.
      rewrite Hr, Hm. exists []. rewrite app_nil_r.
      split_and!; [done | simpl; lia | done | simpl; lia].
Qed.

Lemma foldl_step_queue json schedule : ∀ w,
  ∃ added,
    redis (foldl (step json) w schedule) = redis w ++ added ∧
    DLQCount (metrics (foldl (step json) w schedule)) =
      (DLQCount (metrics w) + length added)%nat ∧
    Forall (λ data, ∃ entry, Marshal_DLQEntry json entry = (data, None) ∧
                        dlq_RetryCount entry = 0) added ∧
    (length added ≤ length (delivered schedule))%nat.
Proof.
  induction schedule as [|s schedule IH]; intros w.
  - exists []. rewrite app_nil_r. simpl. split_and!; [done | simpl; lia | done | simpl; lia].
  - simpl foldl. destruct (IH (step json w s)) as (rest & Hr & Hc & Hz & Hl).
    assert (∃ added,
      redis (step json w s) = redis w ++ added ∧
      DLQCount (metrics (step json w s)) =
        (DLQCount (metrics w) + length added)%nat ∧
      Forall (λ data, ∃ entry, Marshal_DLQEntry json entry = (data, None) ∧
                          dlq_RetryCount entry = 0) added ∧
      (length added ≤ length (delivered [s]))%nat) as (first & Hr1 & Hc1 & Hz1 & Hl1).
    { destruct s as [|env [msg| |err]]; simpl.
      - destruct (ticker_fires_frame w) as (_ & -> & -> & _).
        exists []. rewrite app_nil_r. simpl. split_and!; [done | simpl; lia | done | simpl; lia].
      - apply processMessage_queue.
      - exists []. rewrite app_nil_r. simpl. split_and!; [done | simpl; lia | done | simpl; lia].
      - exists []. rewrite app_nil_r. simpl. split_and!; [done | simpl; lia | done | simpl; lia]. }
    exists (first ++ rest). rewrite Hr, Hr1, Hc, Hc1, length_app, app_assoc.
    rewrite (delivered_cons s schedule), length_app.
    split_and!; [done | lia | by apply Forall_app | lia].
Qed.

(** X16. Start only ever appends to the Failure Sink: the queue after any
    run is the queue before it followed by the records added, at most one
    per delivered message, each the encoding of a record with retry count
    0; and dlq_entries_total has grown by exactly the number of records
    added, so the counter and the length of the queue move together. *)
Theorem X16_sink_append_only (json : Codec) (schedule : list Step) (w : World) :
  ∃ added,
    redis (Start json schedule w) = redis w ++ added ∧
    DLQCount (metrics (Start json schedule w)) =
      (DLQCount (metrics w) + length added)%nat ∧
    Forall (λ data, ∃ entry, Marshal_DLQEntry json entry = (data, None) ∧
                        dlq_RetryCount entry = 0) added ∧
    (length added ≤ length (delivered schedule))%nat.
Proof.
  unfold Start.
  apply (foldl_step_queue json schedule (with_processedCount ∅ w)).
Qed.

(** ** The producer *)

Import producer.

Lemma publish_published json topic d key marshalled log :
  published topic key (fst marshalled) log
    (publish json topic d key marshalled log).
Proof.
  unfold publish. destruct marshalled as [data [e|]]; [done|].
  destruct (Unmarshal_BaseEvent json data) as [b [e|]]; [done|].
  destruct (Produce_err d); [done|].
  destruct (report d) as [e|[partition offset]]; [done|].
  simpl. by exists partition, offset.
Qed.

Lemma publish_nil json topic d key marshalled log log' :
  publish json topic d key marshalled log = (None, log') →
  ∃ msg b,
    log' = log ++ [msg] ∧ Topic msg = topic ∧ Key msg = key ∧
    Value msg = fst marshalled ∧
    Unmarshal_BaseEvent json (Value msg) = (b, None).
Proof.
  unfold publish. destruct marshalled as [data [e|]]; [done|].
  destruct (Unmarshal_BaseEvent json data) as [b [e|]] eqn:Hb; [done|].
  destruct (Produce_err d); [done|].
  destruct (report d) as [e|[partition offset]]; [done|].
  intros [= <-]. by eexists _, b.
Qed.

(** X17. Each of the four publishers is all-or-nothing on the topic: a call
    that returns an error appends nothing, a call that returns nil appends
    exactly one message. The message is keyed by the user id, the order id,
    the order id again for a payment (not the payment id), and the SKU; its
    body is the encoding of the event with the variant's own discriminant
    written over whatever the caller had set. *)
Theorem X17_publishers_all_or_nothing (enc : Encoder) (json : Codec)
    (topic : string) (d : Delivery) (log : list Message) :
  (∀ event,
     published topic (uc_UserID event)
       (fst (Marshal_UserCreated enc (stamp_UserCreated event))) log
       (PublishUserCreated enc json topic d event log)) ∧
  (∀ event,
     published topic (op_OrderID event)
       (fst (Marshal_OrderPlaced enc (stamp_OrderPlaced event))) log
       (PublishOrderPlaced enc json topic d event log)) ∧
  (∀ event,
     published topic (ps_OrderID event)
       (fst (Marshal_PaymentSettled enc (stamp_PaymentSettled event))) log
       (PublishPaymentSettled enc json topic d event log)) ∧
  (∀ event,
     published topic (ia_SKU event)
       (fst (Marshal_InventoryAdjusted enc (stamp_InventoryAdjusted event))) log
       (PublishInventoryAdjusted enc json topic d event log)).
Proof. split_and!; intros event; apply publish_published. Qed.

(** X18. Producer and consumer compose. When a publisher returns nil and
    the decoder reads back, from the body written, the stamped event and
    its envelope, the message appended to the topic is handed by
    processMessage to the upsert of the publisher's own variant with the
    stamped event: the tables afterwards are what that upsert leaves. The
    envelope always decodes, since [publish] has decoded it itself; the
    discriminant the caller had set plays no part. *)
Theorem X18_published_event_is_upserted (enc : Encoder) (json : Codec)
    (topic : string) (d : Delivery) (env : Env) (log log' : list Message)
    (w : World) :
  (∀ event,
     let stamped := stamp_UserCreated event in
     let body := fst (Marshal_UserCreated enc stamped) in
     PublishUserCreated enc json topic d event log = (None, log') →
     Unmarshal_UserCreated json body = (stamped, None) →
     fst (Unmarshal_BaseEvent json body) = uc_BaseEvent stamped →
     ∃ msg, log' = log ++ [msg] ∧ Key msg = uc_UserID event ∧
       dispatched json (Value msg) (uc_BaseEvent stamped)
         (Call_UpsertUser stamped) (λ now, UpsertUser now stamped) ∧
       sql (processMessage json env msg w) =
         snd (UpsertUser (now env) stamped (sql w))) ∧
  (∀ event,
     let stamped := stamp_OrderPlaced event in
     let body := fst (Marshal_OrderPlaced enc stamped) in
     PublishOrderPlaced enc json topic d event log = (None, log') →
     Unmarshal_OrderPlaced json body = (stamped, None) →
     fst (Unmarshal_BaseEvent json body) = op_BaseEvent stamped →
     ∃ msg, log' = log ++ [msg] ∧ Key msg = op_OrderID event ∧
       dispatched json (Value msg) (op_BaseEvent stamped)
         (Call_UpsertOrder stamped) (λ now, UpsertOrder now stamped) ∧
       sql (processMessage json env msg w) =
         snd (UpsertOrder (now env) stamped (sql w))) ∧
  (∀ event,
     let stamped := stamp_PaymentSettled event in
     let body := fst (Marshal_PaymentSettled enc stamped) in
     PublishPaymentSettled enc json topic d event log = (None, log') →
     Unmarshal_PaymentSettled json body = (stamped, None) →
     fst (Unmarshal_BaseEvent json body) = ps_BaseEvent stamped →
     ∃ msg, log' = log ++ [msg] ∧ Key msg = ps_OrderID event ∧
       dispatched json (Value msg) (ps_BaseEvent stamped)
         (Call_UpsertPayment stamped) (λ now, UpsertPayment now stamped) ∧
       sql (processMessage json env msg w) =
         snd (UpsertPayment (now env) stamped (sql w))) ∧
  (∀ event,
     let stamped := stamp_InventoryAdjusted event in
     let body := fst (Marshal_InventoryAdjusted enc stamped) in
     PublishInventoryAdjusted enc json topic d event log = (None, log') →
     Unmarshal_InventoryAdjusted json body = (stamped, None) →
     fst (Unmarshal_BaseEvent json body) = ia_BaseEvent stamped →
     ∃ msg, log' = log ++ [msg] ∧ Key msg = ia_SKU event ∧
       dispatched json (Value msg) (ia_BaseEvent stamped)
         (Call_UpsertInventory stamped) (λ now, UpsertInventory now stamped) ∧
       sql (processMessage json env msg w) =
         snd (UpsertInventory (now env) stamped (sql w))).
Proof.
  split_and!; intros event stamped body Hpub Hevent Hbase;
    destruct (publish_nil _ _ _ _ _ _ _ Hpub) as (msg & b & -> & _ & Hkey & Hvalue & Hb);
    subst stamped body; cbn [fst] in Hvalue; rewrite <- Hvalue in Hevent, Hbase;
    rewrite Hb in Hbase; cbn [fst] in Hbase; subst b;
    (exists msg; split; [reflexivity|]; split; [exact Hkey|]).
  - assert (dispatched json (Value msg) (uc_BaseEvent (stamp_UserCreated event))
              (Call_UpsertUser (stamp_UserCreated event))
              (λ now, UpsertUser now (stamp_UserCreated event))) as Hd
      by (by apply dispatched_UserCreated).
    split; [exact Hd|]. apply (processMessage_dispatched _ env msg w _ _ _ Hd).
  - assert (dispatched json (Value msg) (op_BaseEvent (stamp_OrderPlaced event))
              (Call_UpsertOrder (stamp_OrderPlaced event))
              (λ now, UpsertOrder now (stamp_OrderPlaced event))) as Hd
      by (by apply dispatched_OrderPlaced).
    split; [exact Hd|]. apply (processMessage_dispatched _ env msg w _ _ _ Hd).
  - assert (dispatched json (Value msg) (ps_BaseEvent (stamp_PaymentSettled event))
              (Call_UpsertPayment (stamp_PaymentSettled event))
              (λ now, UpsertPayment now (stamp_PaymentSettled event))) as Hd
      by (by apply dispatched_PaymentSettled).
    split; [exact Hd|]. apply (processMessage_dispatched _ env msg w _ _ _ Hd).
  - assert (dispatched json (Value msg) (ia_BaseEvent (stamp_InventoryAdjusted event))
              (Call_UpsertInventory (stamp_InventoryAdjusted event))
              (λ now, UpsertInventory now (stamp_InventoryAdjusted event))) as Hd
      by (by apply dispatched_InventoryAdjusted).
    split; [exact Hd|]. apply (processMessage_dispatched _ env msg w _ _ _ Hd).
Qed.

Lemma X18_published_event_is_upserted_witness :
  let msg := {| Topic := "events"; Partition := 0; Offset := 41;
                Key := "u-2"; Value := examples.body_bob |} in
  PublishUserCreated examples.enc examples.json "events" examples.delivered_ok
    examples.bob [] = (None, [msg]) ∧
  sql (processMessage examples.json (samples.redis_up 5) msg empty_world) =
    snd (UpsertUser (now (samples.redis_up 5))
           (stamp_UserCreated examples.bob) empty_db).
Proof.
  intros msg.
  assert (PublishUserCreated examples.enc examples.json "events"
            examples.delivered_ok examples.bob [] = (None, [msg])) as Hpub
    by reflexivity.
  split; [exact Hpub|].
  destruct (X18_published_event_is_upserted examples.enc examples.json "events"
              examples.delivered_ok (samples.redis_up 5) [] [msg] empty_world)
    as (Huser & _).
  destruct (Huser examples.bob Hpub eq_refl eq_refl)
    as (msg' & Hlog & _ & _ & Hsql).
  simpl in Hlog. injection Hlog as <-. exact Hsql.
Defined.

(** ** Configuration *)

Import config.

Lemma getEnv_nonempty environ key defaultValue :
  defaultValue ≠ "" → getEnv environ key defaultValue ≠ "".
Proof. unfold getEnv. simpl. by destruct (decide (Getenv environ key ≠ "")). Qed.

(** X19. getEnv treats a variable set to the empty string as unset: setting
    it to the empty string or removing it both give the default, any other
    value set is returned as it is, and the result is empty only when the
    default itself is empty. *)
Theorem X19_getEnv_empty_is_unset (environ : gmap string string)
    (key defaultValue : string) :
  getEnv (<[key := ""]> environ) key defaultValue = defaultValue ∧
  getEnv (delete key environ) key defaultValue = defaultValue ∧
  (∀ value, value ≠ "" →
     getEnv (<[key := value]> environ) key defaultValue = value) ∧
  (getEnv environ key defaultValue = "" → defaultValue = "").
Proof.
  unfold getEnv, Getenv. split_and!.
  - rewrite lookup_insert_eq. simpl. by destruct (decide ("" ≠ "")).
  - rewrite lookup_delete_eq. simpl. by destruct (decide ("" ≠ "")).
  - intros value Hvalue. rewrite lookup_insert_eq. simpl.
    by destruct (decide (value ≠ "")).
  - simpl. by destruct (decide (default "" (environ !! key) ≠ "")).
Qed.

Lemma X19_getEnv_empty_is_unset_witness :
  "6380" ≠ "" ∧
  getEnv (<["REDIS_PORT" := "6380"]> ∅) "REDIS_PORT" "6379" = "6380".
Proof.
  assert ("6380" ≠ "") as Hvalue by done.
  split; [exact Hvalue|].
  destruct (X19_getEnv_empty_is_unset ∅ "REDIS_PORT" "6379") as (_ & _ & Hset & _).
  exact (Hset "6380" Hvalue).
Defined.

(** X20. Load converts the three numeric settings in the order REDIS_PORT,
    REDIS_DB, MSSQL_PORT and fails on the first that Atoi rejects, with an
    error that names that setting; the later ones are then not reported.
    When Load succeeds all three were accepted, the ports and the database
    index are the numbers Atoi read, and every text setting other than the
    two passwords is non-empty, whatever the environment holds. *)
Theorem X20_Load_first_bad_number (Atoi : string → Z * option string)
    (environ : gmap string string) :
  let redisPort := Atoi (getEnv environ "REDIS_PORT" "6379") in
  let redisDB := Atoi (getEnv environ "REDIS_DB" "0") in
  let mssqlPort := Atoi (getEnv environ "MSSQL_PORT" "1433") in
  match Load Atoi environ with
  | inl err =>
      (∃ e, snd redisPort = Some e ∧ err = Errorf_w "invalid REDIS_PORT" e) ∨
      (snd redisPort = None ∧
       ∃ e, snd redisDB = Some e ∧ err = Errorf_w "invalid REDIS_DB" e) ∨
      (snd redisPort = None ∧ snd redisDB = None ∧
       ∃ e, snd mssqlPort = Some e ∧ err = Errorf_w "invalid MSSQL_PORT" e)
  | inr cfg =>
      snd redisPort = None ∧ snd redisDB = None ∧ snd mssqlPort = None ∧
      redis_Port (Redis cfg) = fst redisPort ∧
      redis_DB (Redis cfg) = fst redisDB ∧
      mssql_Port (MSSQL cfg) = fst mssqlPort ∧
      kafka_Brokers (Kafka cfg) ≠ "" ∧ kafka_Topic (Kafka cfg) ≠ "" ∧
      kafka_ConsumerGroup (Kafka cfg) ≠ "" ∧
      mssql_Server (MSSQL cfg) ≠ "" ∧ mssql_User (MSSQL cfg) ≠ "" ∧
      mssql_Database (MSSQL cfg) ≠ "" ∧
      redis_Host (Redis cfg) ≠ "" ∧ redis_DLQKey (Redis cfg) ≠ "" ∧
      api_Port (API cfg) ≠ "" ∧ metrics_Port (Metrics_ cfg) ≠ ""
  end.
Proof.
  intros redisPort redisDB mssqlPort. unfold Load.
  fold redisPort redisDB mssqlPort.
  destruct redisPort as [p [e|]]; [left; by exists e|].
  destruct redisDB as [n [e|]]; [right; left; split; [done|by exists e]|].
  destruct mssqlPort as [q [e|]];
    [right; right; split_and!; [done..|by exists e]|].
  cbn [fst snd Kafka MSSQL Redis API Metrics_ kafka_Brokers kafka_Topic
       kafka_ConsumerGroup mssql_Server mssql_Port mssql_User mssql_Database
       redis_Host redis_Port redis_DB redis_DLQKey api_Port metrics_Port].
  split_and!; try reflexivity; by apply getEnv_nonempty.
Qed.
